(** * scrap.py: the crawl of the ZSU daily briefs, embedded and verified

    The development follows [Theme 2/gl2.2/2025/scrap.py].  Python strings
    are sequences of Unicode code points; the fragment of the [re] module
    the scraper uses is a small backtracking matcher; the browser, the
    markup parser and [sort_values] are interfaces of the run. *)

From Stdlib Require Import NArith List String Ascii Lia Permutation Sorted.
From stdpp Require Import base decidable countable list gmap sets.

Local Open Scope N_scope.

(** ** Python [str]: code points *)

Module PyStr.

Abbreviation char := N (only parsing).
Abbreviation str := (list N) (only parsing).

(** The bytes of a source literal (the file is UTF-8). *)
Fixpoint bytes (s : string) : list N :=
  match s with
  | EmptyString => []
  | String a r => N_of_ascii a :: bytes r
  end.

Definition cont (b : N) : N := b - 128.

Fixpoint utf8_decode (bs : list N) : str :=
  match bs with
  | [] => []
  | b :: r =>
      if b <? 128 then b :: utf8_decode r
      else if b <? 224 then
        match r with
        | c1 :: r1 => ((b - 192) * 64 + cont c1) :: utf8_decode r1
        | _ => []
        end
      else if b <? 240 then
        match r with
        | c1 :: c2 :: r2 =>
            ((b - 224) * 4096 + cont c1 * 64 + cont c2) :: utf8_decode r2
        | _ => []
        end
      else
        match r with
        | c1 :: c2 :: c3 :: r3 =>
            ((b - 240) * 262144 + cont c1 * 4096 + cont c2 * 64 + cont c3)
              :: utf8_decode r3
        | _ => []
        end
  end.

(** The escapes of a Python literal that the sources and the examples use:
    backslash-n, backslash-t and the doubled backslash. *)
Fixpoint unescape (cs : str) : str :=
  match cs with
  | [] => []
  | c :: r =>
      match r with
      | d :: r' =>
          if (c =? 92) && (d =? 110) then 10 :: unescape r'
          else if (c =? 92) && (d =? 116) then 9 :: unescape r'
          else if (c =? 92) && (d =? 92) then 92 :: unescape r'
          else c :: unescape r
      | [] => [c]
      end
  end.

(** [py "..."] is the Python string written with the same literal. *)
Definition py (s : string) : str := unescape (utf8_decode (bytes s)).

(** [str.isspace] of one character, which is also the class [\s] of a
    [str] pattern: the characters of bidirectional type WS, B or S and of
    category Zs. *)
Definition isspace (c : char) : bool :=
  ((9 <=? c) && (c <=? 13)) || ((28 <=? c) && (c <=? 32))
  || (c =? 0x85) || (c =? 0xa0) || (c =? 0x1680)
  || ((0x2000 <=? c) && (c <=? 0x200a))
  || (c =? 0x2028) || (c =? 0x2029) || (c =? 0x202f) || (c =? 0x205f)
  || (c =? 0x3000).

(** The zero of every block of decimal digits (general category Nd,
    Unicode 14): ten consecutive code points of values 0 to 9. *)
Definition Nd_zeros : list N :=
  [48; 1632; 1776; 1984; 2406; 2534; 2662; 2790; 2918; 3046; 3174; 3302;
   3430; 3558; 3664; 3792; 3872; 4160; 4240; 6112; 6160; 6470; 6608; 6784;
   6800; 6992; 7088; 7232; 7248; 42528; 43216; 43264; 43472; 43504; 43600;
   44016; 65296; 66720; 68912; 69734; 69872; 69942; 70096; 70384; 70736;
   70864; 71248; 71360; 71472; 71904; 72016; 72784; 73040; 73120; 92768;
   92864; 93008; 120782; 120792; 120802; 120812; 120822; 123200; 123632;
   125264; 130032].

(** The decimal value of a character, when it is a decimal digit: what the
    class [\d] accepts and what [int] reads. *)
Definition decimal (c : char) : option N :=
  match List.find (fun z => (z <=? c) && (c <? z + 10)) Nd_zeros with
  | Some z => Some (c - z)
  | None => None
  end.

Definition isdecimal (c : char) : bool :=
  match decimal c with Some _ => true | None => false end.

(** [int(s)] on a string of decimal digits; [None] is the [ValueError] of
    any other string (signs, blanks and underscores never reach it here). *)
Fixpoint int_from (acc : N) (s : str) : option N :=
  match s with
  | [] => Some acc
  | c :: r =>
      match decimal c with
      | Some d => int_from (acc * 10 + d) r
      | None => None
      end
  end.

Definition int (s : str) : option N :=
  match s with
  | [] => None
  | _ => int_from 0 s
  end.

(** Simple lower-case mapping, on the two alphabets of the pages: Basic
    Latin and the Cyrillic capitals U+0400..U+042F.  Elsewhere the model
    has the identity. *)
Definition lower (c : char) : char :=
  if (65 <=? c) && (c <=? 90) then c + 32
  else if (0x400 <=? c) && (c <=? 0x40f) then c + 80
  else if (0x410 <=? c) && (c <=? 0x42f) then c + 32
  else c.

(** The further lower-case letters that [re.IGNORECASE] identifies with a
    Cyrillic letter (they share its capital). *)
Definition casefix (c : char) : list char :=
  if c =? 0x432 then [0x1c80]
  else if c =? 0x434 then [0x1c81]
  else if c =? 0x43e then [0x1c82]
  else if c =? 0x441 then [0x1c83]
  else if c =? 0x442 then [0x1c84; 0x1c85]
  else if c =? 0x44a then [0x1c86]
  else [].

Definition mem (c : char) (l : list char) : bool := existsb (N.eqb c) l.

(** A literal [p] of a pattern compiled with [re.IGNORECASE] against the
    character [c]. *)
Definition ci_eq (p c : char) : bool :=
  mem (lower c) (lower p :: casefix (lower p)).

Fixpoint lstrip (s : str) : str :=
  match s with
  | c :: r => if isspace c then lstrip r else s
  | [] => []
  end.

Definition rstrip (s : str) : str := rev (lstrip (rev s)).

(** [s.strip()] *)
Definition strip (s : str) : str := rstrip (lstrip s).

Fixpoint startswith (p s : str) : bool :=
  match p, s with
  | [], _ => true
  | a :: p', b :: s' => (a =? b) && startswith p' s'
  | _ :: _, [] => false
  end.

(** [p in s] *)
Fixpoint contains (p s : str) : bool :=
  startswith p s
  || match s with
     | [] => false
     | _ :: s' => contains p s'
     end.

(** [sep.join(parts)] *)
Fixpoint join (sep : str) (parts : list str) : str :=
  match parts with
  | [] => []
  | [p] => p
  | p :: r => p ++ sep ++ join sep r
  end.

End PyStr.
Import PyStr.

(** ** The fragment of [re] that the scraper uses *)

Module Re.

(** Patterns: a character class, sequence, alternation, a greedy bounded
    repetition of a class ([+] is [Rep p 1 None], [{1,2}] is
    [Rep p 1 (Some 2)]) and a capturing group. *)
Inductive regex :=
| Eps
| Chr (p : char -> bool)
| Cat (r1 r2 : regex)
| Alt (r1 r2 : regex)
| Rep (p : char -> bool) (lo : nat) (hi : option nat)
| Grp (r : regex).

Definition exhausted (hi : option nat) : bool :=
  match hi with Some O => true | _ => false end.

(** Greedy repetition with backtracking: take one more character when
    that lets the rest of the pattern match, else stop here when [lo]
    characters were taken. *)
Fixpoint rep {A} (p : char -> bool) (lo : nat) (hi : option nat)
    (s : str) (k : str -> option A) : option A :=
  let stop := match lo with O => k s | S _ => None end in
  match s with
  | c :: s' =>
      if p c && negb (exhausted hi) then
        match rep p (Nat.pred lo) (option_map Nat.pred hi) s' k with
        | Some x => Some x
        | None => stop
        end
      else stop
  | [] => stop
  end.

(** The matcher, in continuation-passing style: [k] is the rest of the
    pattern, [caps] the groups closed so far.  Alternatives are tried in
    order and the first full match wins, as in [re]. *)
Fixpoint run {A} (r : regex) (caps : list str) (s : str)
    (k : list str -> str -> option A) : option A :=
  match r with
  | Eps => k caps s
  | Chr p =>
      match s with
      | c :: s' => if p c then k caps s' else None
      | [] => None
      end
  | Cat r1 r2 => run r1 caps s (fun caps1 s1 => run r2 caps1 s1 k)
  | Alt r1 r2 =>
      match run r1 caps s k with
      | Some x => Some x
      | None => run r2 caps s k
      end
  | Rep p lo hi => rep p lo hi s (k caps)
  | Grp r1 =>
      run r1 caps s
        (fun caps1 s1 => k (caps1 ++ [take (length s - length s1) s]) s1)
  end.

(** [pattern.match(s)]: the groups and the length of the match at the
    start of [s]. *)
Definition match_at (r : regex) (s : str) : option (list str * nat) :=
  run r [] s (fun caps rest => Some (caps, (length s - length rest)%nat)).

Fixpoint search_from (r : regex) (i : nat) (s : str)
    : option (nat * list str * nat) :=
  match match_at r s with
  | Some (caps, n) => Some (i, caps, n)
  | None =>
      match s with
      | [] => None
      | _ :: s' => search_from r (S i) s'
      end
  end.

(** [re.search(r, s)]: start, groups and length of the leftmost match. *)
Definition search (r : regex) (s : str) : option (nat * list str * nat) :=
  search_from r 0 s.

(** [re.sub(r, repl, s)] for a pattern that matches no empty string (the
    two patterns of [clean_text] start with a [+]): scan from the left,
    write [repl] for a match and jump over its characters ([skip] counts
    those still to pass). *)
Fixpoint sub_go (r : regex) (repl : str) (skip : nat) (s : str) : str :=
  match s with
  | [] => []
  | c :: s' =>
      match skip with
      | S n => sub_go r repl n s'
      | O =>
          match match_at r s with
          | Some (_, n) => repl ++ sub_go r repl (Nat.pred n) s'
          | None => c :: sub_go r repl 0 s'
          end
      end
  end.

Definition sub (r : regex) (repl : str) (s : str) : str := sub_go r repl 0 s.

(** [re.split(r, s)], again for a pattern that matches no empty string:
    the pieces between the matches, each match leaving its groups in the
    list.  [cur] is the piece being read. *)
Fixpoint split_go (r : regex) (skip : nat) (cur : str) (s : str) : list str :=
  match s with
  | [] => [cur]
  | c :: s' =>
      match skip with
      | S n => split_go r n cur s'
      | O =>
          match match_at r s with
          | Some (caps, n) => cur :: caps ++ split_go r (Nat.pred n) [] s'
          | None => split_go r 0 (cur ++ [c]) s'
          end
      end
  end.

Definition split (r : regex) (s : str) : list str := split_go r 0 [] s.

(** [matches r caps w caps']: the text [w] is in the language of [r], and
    reading it adds to the groups [caps] what makes [caps']. *)
Inductive matches : regex -> list str -> str -> list str -> Prop :=
| M_Eps caps : matches Eps caps [] caps
| M_Chr p c caps : p c = true -> matches (Chr p) caps [c] caps
| M_Cat r1 r2 caps w1 caps1 w2 caps2 :
    matches r1 caps w1 caps1 -> matches r2 caps1 w2 caps2 ->
    matches (Cat r1 r2) caps (w1 ++ w2) caps2
| M_AltL r1 r2 caps w caps1 :
    matches r1 caps w caps1 -> matches (Alt r1 r2) caps w caps1
| M_AltR r1 r2 caps w caps1 :
    matches r2 caps w caps1 -> matches (Alt r1 r2) caps w caps1
| M_Rep p lo hi caps w :
    forallb p w = true -> (lo <= length w)%nat ->
    (forall h, hi = Some h -> (length w <= h)%nat) ->
    matches (Rep p lo hi) caps w caps
| M_Grp r caps w caps1 :
    matches r caps w caps1 -> matches (Grp r) caps w (caps1 ++ [w]).

(** A literal text, each character compared as [re.IGNORECASE] does. *)
Definition lit_i (c : char) : regex := Chr (ci_eq c).
Definition lits_i (w : str) : regex := fold_right (fun c r => Cat (lit_i c) r) Eps w.

End Re.

(** ** The scraper *)

Module Scrap.
Import Re.

Definition START_URL : str :=
  py "https://www.zsu.gov.ua/news/operatyvna-informatsiia-stanom-na-0800-20102025-shchodo-rosiiskoho-vtorhnennia".
Definition DAYS_BACK : nat := 30.
Definition MAX_PAGES : nat := DAYS_BACK * 2.

Definition is_blank (c : char) : bool := (c =? 32) || (c =? 9).
Definition is_newline (c : char) : bool := c =? 10.
Definition is_dot_or_dash (c : char) : bool := (c =? 46) || (c =? 45).

(** The pattern [[ \t]+]. *)
Definition RE_BLANKS : regex := Rep is_blank 1 None.
(** The pattern [\s+\n]. *)
Definition RE_SPACE_NEWLINE : regex := Cat (Rep isspace 1 None) (Chr is_newline).
(** The pattern of line 80, compiled with [re.IGNORECASE]: a group of two
    alternatives, both the Cyrillic letter U+0430, between the literals. *)
Definition RE_READ_ALSO : regex :=
  Cat (lits_i (py "Чит"))
    (Cat (Grp (Alt (lit_i 0x430) (lit_i 0x430))) (lits_i (py "йте також"))).
(** The pattern [(\d{1,2})[.\-](\d{1,2})[.\-](\d{2,4})]. *)
Definition RE_DATE : regex :=
  Cat (Grp (Rep isdecimal 1 (Some 2%nat)))
    (Cat (Chr is_dot_or_dash)
       (Cat (Grp (Rep isdecimal 1 (Some 2%nat)))
          (Cat (Chr is_dot_or_dash) (Grp (Rep isdecimal 2 (Some 4%nat)))))).

Definition clean_text (t : str) : str :=
  strip (sub RE_SPACE_NEWLINE (py "\n") (sub RE_BLANKS (py " ") t)).

(** What the scraper reads off a parsed page ([BeautifulSoup(html, "lxml")]);
    texts are those of [get_text(" ", strip=True)]. *)
Record Soup := {
  (** [soup.find(["h1","h2"])]: the text of the first heading, if any *)
  heading : option str;
  (** [(soup.find("main") or soup).find("article")]: when there is such an
      element, the text of each [p] in it *)
  article : option (list str);
  (** the text of each [p] of [soup.find("main") or soup] *)
  main_p : list str;
  (** [a["href"]] of each [a] that has the attribute, in document order *)
  a_href : list str
}.

(** The truth value of a sequence. *)
Definition nonempty {A} (s : list A) : bool :=
  match s with [] => false | _ => true end.

Definition extract_article_text (soup : Soup) : str :=
  let parts :=
    match article soup with
    | Some ps => ps
    | None => main_p soup
    end in
  let txt := join (py "\n") (List.filter nonempty parts) in
  let txt := hd [] (split RE_READ_ALSO txt) in
  clean_text txt.

(** [urllib.parse.urljoin] when it returns: its two opening guards;
    [resolve] is the reference resolution of RFC 3986 that follows them.
    [Raising.urljoin] is the call with its [ValueError]. *)
Definition urljoin (resolve : str -> str -> str) (base url : str) : str :=
  match base, url with
  | [], _ => url
  | _, [] => base
  | _, _ => resolve base url
  end.

Definition SLUG_DAILY : str := py "operatyvna-informatsiia".
Definition SLUG_INVASION : str := py "shchodo-rosiiskoho-vtorhnennia".

(** The loop "unique preserve order" of lines 90 to 93. *)
Definition unique (links : list str) : list str :=
  snd (foldl
         (fun (acc : gset (list N) * list str) u =>
            let (seen, out) := acc in
            if decide (u ∈ seen) then acc else ({[u]} ∪ seen, out ++ [u]))
         (∅, []) links).

Definition find_prev_day_links (resolve : str -> str -> str)
    (soup : Soup) (base_url : str) : list str :=
  let links :=
    foldl
      (fun links href =>
         if contains SLUG_DAILY href && contains SLUG_INVASION href
         then links ++ [urljoin resolve base_url href]
         else links)
      [] (a_href soup) in
  unique links.

Record Row := {
  url : str;
  title : str;
  text : str;
  date_slug : str
}.

(** [parse_page_html], with the soup already parsed and the [date_slug]
    that [main] adds to the dictionary. *)
Definition parse_page_html (soup : Soup) (u : str) (slug : str) : Row :=
  {| url := u;
     title := match heading soup with Some t => t | None => [] end;
     text := extract_article_text soup;
     date_slug := slug |}.

(** *** Calendar dates *)

Record date := { year : N; month : N; day : N }.

Definition is_leap (y : N) : bool :=
  (y mod 4 =? 0) && (negb (y mod 100 =? 0) || (y mod 400 =? 0)).

Definition days_in_month (y m : N) : N :=
  if m =? 2 then (if is_leap y then 29 else 28)
  else if mem m [4; 6; 9; 11] then 30
  else 31.

Definition valid_date (y m d : N) : bool :=
  (1 <=? y) && (y <=? 9999) && (1 <=? m) && (m <=? 12)
  && (1 <=? d) && (d <=? days_in_month y m).

(** [datetime(y, m, d).date()]; [None] is its [ValueError]. *)
Definition datetime (y m d : N) : option date :=
  if valid_date y m d then Some {| year := y; month := m; day := d |}
  else None.

Fixpoint digits_rev (w : nat) (n : N) : str :=
  match w with
  | O => []
  | S w' => (48 + n mod 10) :: digits_rev w' (n / 10)
  end.

(** ["%0wd" % n] for [n] of at most [w] digits. *)
Definition zero_padded (w : nat) (n : N) : str := rev (digits_rev w n).

(** [date.isoformat()] *)
Definition isoformat (d : date) : str :=
  zero_padded 4 (year d) ++ [45] ++ zero_padded 2 (month d) ++ [45]
  ++ zero_padded 2 (day d).

(** Lines 135 to 143: the date of a title, as the text of [date_slug]. *)
Definition title_date_slug (title : str) : str :=
  match search RE_DATE title with
  | Some (_, [dd; mm; yy], _) =>
      let yy := if (length yy =? 2)%nat then py "20" ++ yy else yy in
      match int yy, int mm, int dd with
      | Some y, Some m, Some d =>
          match datetime y m d with
          | Some dt => isoformat dt
          | None => []
          end
      | _, _, _ => []
      end
  | _ => []
  end.

(** *** The browser *)

(** The session [make_driver] returns, as [main] uses it when reading
    and parsing a loaded page raise nothing; [Raising.Browser] is the
    session whose pages can fail. *)
Record Driver := {
  (** [driver.get(url)]: [false] when it raises *)
  get : str -> bool;
  (** the [WebDriverWait] for the body: [false] when it times out *)
  wait_body : str -> bool;
  (** [BeautifulSoup(driver.page_source, "lxml")] once [url] is loaded *)
  page_source : str -> Soup
}.

(** The variables of [main]'s loop; [gets] is the trace of the calls of
    [driver.get]. *)
Record State := {
  rows : list Row;
  visited : gset (list N);
  queue : list str;
  gets : list str
}.

Definition initial : State :=
  {| rows := []; visited := ∅; queue := [START_URL]; gets := [] |}.

(** Line 112. *)
Definition loop_cond (st : State) : bool :=
  nonempty (queue st) && (length (rows st) <? DAYS_BACK)%nat
  && (size (visited st) <? MAX_PAGES)%nat.

(** Lines 151 to 153. *)
Definition enqueue (seen : gset (list N)) (q : list str) (prev_links : list str)
    : list str :=
  foldl (fun q u => if decide ((u ∉ seen) ∧ (u ∉ q)) then q ++ [u] else q)
    q prev_links.

Section Loop.
Variable resolve : str -> str -> str.
Variable driver : Driver.

(** Lines 113 to 155: one turn of the loop, when lines 130, 131 and 150
    raise nothing ([Raising.loop_body] is the turn that can raise). *)
Definition loop_body (st : State) : State :=
  match queue st with
  | [] => st
  | u :: q =>
      if decide (u ∈ visited st) then
        {| rows := rows st; visited := visited st; queue := q;
           gets := gets st |}
      else
        let seen := {[u]} ∪ visited st in
        if get driver u then
          let _ := wait_body driver u in
          let soup := page_source driver u in
          let title := match heading soup with Some t => t | None => [] end in
          let res := parse_page_html soup u (title_date_slug title) in
          let prev_links := find_prev_day_links resolve soup u in
          {| rows := rows st ++ [res]; visited := seen;
             queue := enqueue seen q prev_links; gets := gets st ++ [u] |}
        else
          {| rows := rows st; visited := seen; queue := q;
             gets := gets st ++ [u] |}
  end.

(** The [while] of line 112; [None] when [fuel] turns do not end it. *)
Fixpoint while (fuel : nat) (st : State) : option State :=
  match fuel with
  | O => None
  | S f => if loop_cond st then while f (loop_body st) else Some st
  end.

(** The state after [n] turns, the loop staying where it stopped. *)
Definition turn (st : State) : State :=
  if loop_cond st then loop_body st else st.

Definition after (n : nat) : State := Nat.iter n turn initial.

End Loop.

(** *** The data frame of the end *)

(** ["date_slug" in df.columns]: a frame built from no dictionary has no
    column. *)
Definition nonempty_frame (df : list Row) : bool :=
  match df with [] => false | _ => true end.

(** [drop_duplicates(subset=["url"])]: the first row of each url. *)
Definition drop_duplicates (df : list Row) : list Row :=
  snd (foldl
         (fun (acc : gset (list N) * list Row) r =>
            let (seen, out) := acc in
            if decide (url r ∈ seen) then acc
            else ({[url r]} ∪ seen, out ++ [r]))
         (∅, []) df).

(** [df["date_slug"].str.len() > 0], row by row. *)
Definition has_date (r : Row) : bool := (0 <? length (date_slug r))%nat.

Definition is_ascii_digit (c : char) : bool := (48 <=? c) && (c <=? 57).

(** [pd.to_datetime] of one cell.  The model reads the format that
    [isoformat] writes; [None] is any other text, and no date that
    [datetime] builds is outside the range of a Timestamp. *)
Definition to_datetime (s : str) : option date :=
  match s with
  | [y1; y2; y3; y4; s1; m1; m2; s2; d1; d2] =>
      if (s1 =? 45) && (s2 =? 45)
         && forallb is_ascii_digit [y1; y2; y3; y4; m1; m2; d1; d2]
      then
        match int [y1; y2; y3; y4], int [m1; m2], int [d1; d2] with
        | Some y, Some m, Some d => datetime y m d
        | _, _, _ => None
        end
      else None
  | _ => None
  end.

(** The order of Timestamps, through a number that grows with the date. *)
Definition date_key (d : date) : N := year d * 10000 + month d * 100 + day d.

Definition later_first (a b : date * Row) : Prop :=
  date_key (fst b) <= date_key (fst a).

(** [sort_values("date_slug", ascending=False)] on rows whose cell is a
    Timestamp.  Its default kind is not a stable sort, so the order of
    rows of one date is whatever the implementation gives. *)
Record Sorter := {
  sort_values : list (date * Row) -> list (date * Row);
  sort_values_perm : forall l, sort_values l ≡ₚ l;
  sort_values_sorted : forall l, Sorted later_first (sort_values l)
}.

(** The row as [to_csv] writes it once the cell is a Timestamp. *)
Definition with_timestamp (c : date * Row) : Row :=
  {| url := url (snd c); title := title (snd c); text := text (snd c);
     date_slug := isoformat (fst c) |}.

(** The cell conversion of line 162, over the whole column; [None] when
    [pd.to_datetime] raises. *)
Definition convert_column (df : list Row) : option (list (date * Row)) :=
  mapM (fun r => match to_datetime (date_slug r) with
                 | Some d => Some (d, r)
                 | None => None
                 end) df.

(** Lines 158 to 166: the frame that is written. *)
Definition aggregate (S : Sorter) (rows : list Row) : option (list Row) :=
  let df := drop_duplicates rows in
  if nonempty_frame df && existsb has_date df then
    match convert_column (List.filter has_date df) with
    | Some df_valid =>
        Some (map with_timestamp (take DAYS_BACK (sort_values S df_valid)))
    | None => None
    end
  else Some (take DAYS_BACK df).

(** How a run ends. *)
Inductive Outcome :=
| NoSession                  (** [make_driver()] raised: nothing was crawled *)
| Saved (csv : list Row)     (** the rows of the file written by [to_csv] *)
| Raised                     (** an exception left [main]: no file is written *)
| Running.                   (** the loop did not end within the turns given *)

Definition main (fuel : nat) (resolve : str -> str -> str) (S : Sorter)
    (make_driver : option Driver) : Outcome :=
  match make_driver with
  | None => NoSession
  | Some driver =>
      match while resolve driver fuel initial with
      | None => Running
      | Some st =>
          match aggregate S (rows st) with
          | Some out => Saved out
          | None => Raised
          end
      end
  end.

End Scrap.

(** ** The calls that raise

    [Scrap] has the loop for as long as the calls outside a [try] return.
    Here they can raise: [driver.page_source] and the parser (lines 130
    and 131), [urljoin] (line 88, reached from line 150) and
    [pd.to_datetime] (line 162).  Nothing in [main] catches these, so the
    exception leaves [main] and no file is written. *)

Module Raising.
Import Re Scrap.

(** [urllib.parse.urljoin]: its two opening guards, then the resolution;
    [None] is the [ValueError] of [urlsplit]. *)
Definition urljoin (resolve : str -> str -> option str) (base url : str)
    : option str :=
  match base, url with
  | [], _ => Some url
  | _, [] => Some base
  | _, _ => resolve base url
  end.

(** Lines 83 to 94; [None] when a call of [urljoin] raises. *)
Definition find_prev_day_links (resolve : str -> str -> option str)
    (soup : Soup) (base_url : str) : option (list str) :=
  let links :=
    foldl
      (fun (links : option (list str)) href =>
         match links with
         | Some links =>
             if contains SLUG_DAILY href && contains SLUG_INVASION href
             then
               match urljoin resolve base_url href with
               | Some u => Some (links ++ [u])
               | None => None
               end
             else Some links
         | None => None
         end)
      (Some []) (a_href soup) in
  match links with
  | Some links => Some (unique links)
  | None => None
  end.

(** The session, with pages that can fail to be read. *)
Record Browser := {
  (** [driver.get(url)]: [false] when it raises *)
  get : str -> bool;
  (** the [WebDriverWait] for the body: [false] when it times out *)
  wait_body : str -> bool;
  (** [BeautifulSoup(driver.page_source, "lxml")] once [url] is loaded;
      [None] when one of the two calls raises *)
  page_source : str -> option Soup
}.

(** How the [while] of line 112 is left. *)
Inductive Loop :=
| Ended (st : State)   (** the test of line 112 failed *)
| Failed               (** an exception left the loop *)
| Unfinished.          (** the turns given did not end it *)

Section Loop.
Variable resolve : str -> str -> option str.
Variable browser : Browser.

(** Lines 113 to 155: one turn of the loop; [None] when an exception
    leaves it. *)
Definition loop_body (st : State) : option State :=
  match queue st with
  | [] => Some st
  | u :: q =>
      if decide (u ∈ visited st) then
        Some {| rows := rows st; visited := visited st; queue := q;
                gets := gets st |}
      else
        let seen := {[u]} ∪ visited st in
        if get browser u then
          let _ := wait_body browser u in
          match page_source browser u with
          | Some soup =>
              let title := match heading soup with Some t => t | None => [] end in
              let res := parse_page_html soup u (title_date_slug title) in
              match find_prev_day_links resolve soup u with
              | Some prev_links =>
                  Some {| rows := rows st ++ [res]; visited := seen;
                          queue := enqueue seen q prev_links;
                          gets := gets st ++ [u] |}
              | None => None
              end
          | None => None
          end
        else
          Some {| rows := rows st; visited := seen; queue := q;
                  gets := gets st ++ [u] |}
  end.

Fixpoint while (fuel : nat) (st : State) : Loop :=
  match fuel with
  | O => Unfinished
  | S f =>
      if loop_cond st then
        match loop_body st with
        | Some st' => while f st'
        | None => Failed
        end
      else Ended st
  end.

(** The state after [n] turns, the loop staying where it stopped; [None]
    once a turn has raised. *)
Definition turn (st : State) : option State :=
  if loop_cond st then loop_body st else Some st.

Fixpoint after (n : nat) : option State :=
  match n with
  | O => Some initial
  | S n' =>
      match after n' with
      | Some st => turn st
      | None => None
      end
  end.

End Loop.

(** The cell conversion of line 162; [in_bounds] tells the dates that
    pandas holds as a Timestamp (every date from pandas 3 on, those of
    the nanosecond range before), and [None] is [pd.to_datetime]
    raising. *)
Definition convert_column (in_bounds : date -> bool) (df : list Row)
    : option (list (date * Row)) :=
  mapM (fun r => match to_datetime (date_slug r) with
                 | Some d => if in_bounds d then Some (d, r) else None
                 | None => None
                 end) df.

(** Lines 158 to 166: the frame that is written. *)
Definition aggregate (in_bounds : date -> bool) (S : Sorter) (rows : list Row)
    : option (list Row) :=
  let df := drop_duplicates rows in
  if nonempty_frame df && existsb has_date df then
    match convert_column in_bounds (List.filter has_date df) with
    | Some df_valid =>
        Some (map with_timestamp (take DAYS_BACK (sort_values S df_valid)))
    | None => None
    end
  else Some (take DAYS_BACK df).

Definition main (fuel : nat) (resolve : str -> str -> option str)
    (in_bounds : date -> bool) (S : Sorter) (make_driver : option Browser)
    : Outcome :=
  match make_driver with
  | None => NoSession
  | Some browser =>
      match while resolve browser fuel initial with
      | Unfinished => Running
      | Failed => Raised
      | Ended st =>
          match aggregate in_bounds S (rows st) with
          | Some out => Saved out
          | None => Raised
          end
      end
  end.

(** The calls of a turn on [u] that no [try] guards return, and the date
    of the page is one pandas holds. *)
Definition returns (resolve : str -> str -> option str)
    (in_bounds : date -> bool) (browser : Browser) (u : str) : Prop :=
  exists soup,
    page_source browser u = Some soup
    /\ is_Some (find_prev_day_links resolve soup u)
    /\ forall d,
         to_datetime
           (title_date_slug match heading soup with Some t => t | None => [] end)
         = Some d ->
         in_bounds d = true.

(** The loop of [Scrap] that a resolver and a session stand for as long
    as nothing raises: where a call raises, the value is of no account. *)
Definition resolved (resolve : str -> str -> option str) (base url : str) : str :=
  match resolve base url with Some u => u | None => [] end.

Definition driver_of (browser : Browser) : Driver :=
  {| Scrap.get := get browser;
     Scrap.wait_body := wait_body browser;
     Scrap.page_source := fun u =>
       match page_source browser u with
       | Some soup => soup
       | None => {| heading := None; article := None; main_p := []; a_href := [] |}
       end |}.

End Raising.

(** ** Notions the statements use *)

Module Spec.
Import Re Scrap.

(** No two neighbours of [s] are related by [R]. *)
Fixpoint no_pair (R : char -> char -> bool) (s : str) : bool :=
  match s with
  | a :: r =>
      match r with
      | b :: _ => negb (R a b) && no_pair R r
      | [] => true
      end
  | [] => true
  end.

Definition both_blank (a b : char) : bool := is_blank a && is_blank b.
Definition space_then_newline (a b : char) : bool := isspace a && is_newline b.

(** [s] starts with a newline, after whitespace or not. *)
Definition newline_ahead (s : str) : Prop :=
  exists v s', s = v ++ 10 :: s' /\ forallb isspace v = true.

Definition visible (c : char) : bool := negb (isspace c).

(** *** Whitespace normalisation, in the words of the specification *)

Definition starts_blank (s : str) : bool :=
  match s with c :: _ => is_blank c | [] => false end.

(** Every run of spaces and tabs becomes one space: a blank before a
    blank goes, the last blank of a run is written as a space. *)
Fixpoint blank_runs_to_space (s : str) : str :=
  match s with
  | [] => []
  | c :: r =>
      if is_blank c then
        if starts_blank r then blank_runs_to_space r
        else 32 :: blank_runs_to_space r
      else c :: blank_runs_to_space r
  end.

(** [newline_ahead], decided. *)
Fixpoint newline_ahead_b (s : str) : bool :=
  match s with
  | c :: r => is_newline c || (isspace c && newline_ahead_b r)
  | [] => false
  end.

(** Whitespace that ends in a newline becomes the newline: a whitespace
    character goes when only whitespace stands between it and a newline
    further on. *)
Fixpoint whitespace_to_newline (s : str) : str :=
  match s with
  | [] => []
  | c :: r =>
      if isspace c && newline_ahead_b r then whitespace_to_newline r
      else c :: whitespace_to_newline r
  end.

(** The specification's normalisation: the two replacements, then the
    trimming of both ends. *)
Definition normalized (t : str) : str :=
  strip (whitespace_to_newline (blank_runs_to_space t)).

(** *** Dates in a title *)

(** The text of a date: day, separator, month, separator, year. *)
Definition date_text (dd : str) (s1 : char) (mm : str) (s2 : char) (yy : str) : str :=
  dd ++ s1 :: mm ++ s2 :: yy.

(** One or two digits for the day and for the month, two to four for the
    year, a dot or a dash between them. *)
Definition date_shaped (dd : str) (s1 : char) (mm : str) (s2 : char) (yy : str)
    : Prop :=
  forallb isdecimal dd = true /\ (1 <= length dd <= 2)%nat
  /\ is_dot_or_dash s1 = true
  /\ forallb isdecimal mm = true /\ (1 <= length mm <= 2)%nat
  /\ is_dot_or_dash s2 = true
  /\ forallb isdecimal yy = true /\ (2 <= length yy <= 4)%nat.

(** The title has the text of a date at position [i]. *)
Definition date_at (t : str) (i : nat) : Prop :=
  exists dd s1 mm s2 yy post,
    date_shaped dd s1 mm s2 yy /\ drop i t = date_text dd s1 mm s2 yy ++ post.

(** The year takes the digits that follow, up to four. *)
Definition year_complete (yy post : str) : Prop :=
  length yy = 4%nat \/ forall c r, post = c :: r -> isdecimal c = false.

(** [dd], [mm], [yy] are the groups of the first date of the title: no
    position to its left has the text of a date. *)
Definition first_date (t dd mm yy : str) : Prop :=
  exists pre s1 s2 post,
    t = pre ++ date_text dd s1 mm s2 yy ++ post
    /\ date_shaped dd s1 mm s2 yy /\ year_complete yy post
    /\ forall j, (j < length pre)%nat -> ~ date_at t j.

(** No character of [s] is a decimal digit. *)
Definition digit_free (s : str) : bool := forallb (fun c => negb (isdecimal c)) s.

(** The number a string of digits writes. *)
Definition dec_value (w : str) : N :=
  fold_left (fun acc c => acc * 10 + match decimal c with Some d => d | None => 0 end) w 0.

(** The year a year group stands for. *)
Definition year_of (yy : str) : N :=
  if (length yy =? 2)%nat then 2000 + dec_value yy else dec_value yy.

(** The [date_slug] of a date read as year [y], month [m], day [d]. *)
Definition slug_of (y m d : N) : str :=
  if valid_date y m d then isoformat {| year := y; month := m; day := d |} else [].

(** The pattern as the specification words it: a year of two digits or of
    four, [(\d{1,2})[.\-](\d{1,2})[.\-](\d{2}(?:\d{2})?)]. *)
Definition RE_DATE_AS_SPECIFIED : regex :=
  Cat (Grp (Rep isdecimal 1 (Some 2%nat)))
    (Cat (Chr is_dot_or_dash)
       (Cat (Grp (Rep isdecimal 1 (Some 2%nat)))
          (Cat (Chr is_dot_or_dash)
             (Grp (Cat (Rep isdecimal 2 (Some 2%nat))
                     (Alt (Rep isdecimal 2 (Some 2%nat)) Eps)))))).

(** The groups of the first match of a pattern of three groups. *)
Definition first_groups (r : regex) (t : str) : option (str * str * str) :=
  match search r t with
  | Some (_, [dd; mm; yy], _) => Some (dd, mm, yy)
  | _ => None
  end.

(** *** The marker of the article text *)

(** The text of the paragraphs, joined, before it is cut and cleaned. *)
Definition joined_text (soup : Soup) : str :=
  join (py "\n")
    (List.filter nonempty
       match article soup with
       | Some ps => ps
       | None => main_p soup
       end).

Definition READ_ALSO : str := py "Читайте також".

(** [w] is the phrase [p] up to the case of its letters. *)
Definition same_ignoring_case (p w : str) : Prop :=
  Forall2 (fun a b => ci_eq a b = true) p w.

Fixpoint same_ignoring_case_b (p w : str) : bool :=
  match p, w with
  | [], [] => true
  | a :: p', b :: w' => ci_eq a b && same_ignoring_case_b p' w'
  | _, _ => false
  end.

(** The marker phrase stands at position [i] of [txt]. *)
Definition marker_at (txt : str) (i : nat) : Prop :=
  exists w post, drop i txt = w ++ post /\ same_ignoring_case READ_ALSO w.

Definition first_marker_at (txt : str) (i : nat) : Prop :=
  marker_at txt i /\ forall j, (j < i)%nat -> ~ marker_at txt j.

(** *** First occurrences *)

(** The elements of [l] that are the first of their key, in the order of
    [l]. *)
Fixpoint first_by {A K} `{EqDecision K} (key : A -> K) (l : list A) : list A :=
  match l with
  | [] => []
  | x :: r => x :: filter (fun y => key y <> key x) (first_by key r)
  end.

Definition first_occurrences (l : list str) : list str := first_by id l.

(** [p] occurs in [s]. *)
Definition substring (p s : str) : Prop := exists a b, s = a ++ p ++ b.

(** The test of line 87, on the attribute as the page has it. *)
Definition href_has_slugs (href : str) : bool :=
  contains SLUG_DAILY href && contains SLUG_INVASION href.

(** The related links as the specification words them: the anchors whose
    resolved form has both fragments. *)
Definition related_links_as_specified (resolve : str -> str -> str)
    (soup : Soup) (base_url : str) : list str :=
  first_occurrences
    (List.filter href_has_slugs (map (urljoin resolve base_url) (a_href soup))).

(** *** The crawl *)

(** A row whose [date_slug] is empty or a text [pd.to_datetime] reads. *)
Definition dated_or_blank (r : Row) : Prop :=
  date_slug r = [] \/ is_Some (to_datetime (date_slug r)).

(** What holds of the loop variables whenever line 112 is reached. *)
Record Invariant (driver : Driver) (st : State) : Prop := {
  queue_NoDup : NoDup (queue st);
  queue_fresh : forall u, u ∈ queue st -> u ∉ visited st;
  gets_NoDup : NoDup (gets st);
  gets_visited : forall u, u ∈ gets st <-> u ∈ visited st;
  visited_size : size (visited st) = length (gets st);
  rows_bound : (length (rows st) <= DAYS_BACK)%nat;
  visited_bound : (size (visited st) <= MAX_PAGES)%nat;
  rows_fetched : forall r, r ∈ rows st -> url r ∈ gets st /\ get driver (url r) = true;
  rows_urls : NoDup (map url (rows st));
  rows_dates : Forall dated_or_blank (rows st)
}.

(** *** The final frame *)

(** The Timestamp of a row, as a number. *)
Definition row_key (r : Row) : N :=
  match to_datetime (date_slug r) with
  | Some d => date_key d
  | None => 0
  end.

(** [a] may stand before [b] in a frame sorted by date, latest first. *)
Definition newer_first (a b : Row) : Prop := row_key b <= row_key a.

(** A stable sort by insertion, latest first: one way [sort_values] can
    behave. *)
Fixpoint insert_desc (c : date * Row) (l : list (date * Row)) : list (date * Row) :=
  match l with
  | [] => [c]
  | x :: r =>
      if date_key (fst x) <=? date_key (fst c) then c :: l
      else x :: insert_desc c r
  end.

Definition insertion_sort_desc (l : list (date * Row)) : list (date * Row) :=
  foldr insert_desc [] l.

End Spec.

(** ** A site of three briefs *)

Module Examples.
Import Re Scrap.

Definition URL_19 : str :=
  py "https://www.zsu.gov.ua/news/operatyvna-informatsiia-stanom-na-0800-19102025-shchodo-rosiiskoho-vtorhnennia".
Definition URL_18 : str :=
  py "https://www.zsu.gov.ua/news/operatyvna-informatsiia-stanom-na-0800-18102025-shchodo-rosiiskoho-vtorhnennia".

Definition brief (title body : string) (hrefs : list str) : Soup :=
  {| heading := Some (py title);
     article := Some [py body; py "Читайте також: інші новини"];
     main_p := [];
     a_href := py "/news" :: hrefs |}.

(** The seed links to the briefs of the two days before, the second to
    the third and back to the seed; any other address fails to load. *)
Definition three_briefs : Driver :=
  {| get := fun u => bool_decide (u = START_URL \/ u = URL_19 \/ u = URL_18);
     wait_body := fun _ => true;
     page_source := fun u =>
       if decide (u = START_URL) then
         brief "Оперативна інформація станом на 08:00 20.10.2025"
           "Зведення за 20 жовтня." [URL_19; URL_18; URL_19]
       else if decide (u = URL_19) then
         brief "Оперативна інформація станом на 08:00 19.10.2025"
           "Зведення за 19 жовтня." [URL_18; START_URL]
       else
         brief "Оперативна інформація станом на 08:00 18.10.2025"
           "Зведення за 18 жовтня." [] |}.

(** A browser that loads nothing. *)
Definition offline : Driver :=
  {| get := fun _ => false;
     wait_body := fun _ => false;
     page_source := fun _ =>
       {| heading := None; article := None; main_p := []; a_href := [] |} |}.

(** Absolute references resolve to themselves. *)
Definition absolute (base ref : str) : str := ref.

Definition row (u : str) (slug : string) : Row :=
  {| url := u; title := py "t"; text := py "x"; date_slug := py slug |}.

(** Rows out of order, one url twice and one row without a date. *)
Definition mixed_rows : list Row :=
  [row URL_18 "2025-10-18"; row START_URL "2025-10-20"; row (py "u") "";
   row URL_19 "2025-10-19"; row START_URL "2025-10-21"].

End Examples.

(** ** The link graph of a run *)

Module Frontier.
Import Re Scrap.

Section Graph.
Variable resolve : str -> str -> str.
Variable driver : Driver.

(** The related links of the page at [v]. *)
Definition links_of (v : str) : list str :=
  find_prev_day_links resolve (page_source driver v) v.

(** The row the loop makes of the page at [u] (lines 130 to 146). *)
Definition row_of (u : str) : Row :=
  let soup := page_source driver u in
  parse_page_html soup u
    (title_date_slug match heading soup with Some t => t | None => [] end).

(** The urls the seed leads to, through the related links of pages that
    load. *)
Inductive reachable : str -> Prop :=
| reach_seed : reachable START_URL
| reach_link v x :
    reachable v -> get driver v = true -> x ∈ links_of v -> reachable x.

(** The urls in the order the loop met them: those fetched, then those
    pending. *)
Definition discovered (st : State) : list str := gets st ++ queue st.

(** What the loop variables say about the graph. *)
Record Explored (st : State) : Prop := {
  rows_are_pages : rows st = map row_of (List.filter (get driver) (gets st));
  seed_discovered : START_URL ∈ discovered st;
  discovered_reachable : forall u, u ∈ discovered st -> reachable u;
  links_discovered : forall v x,
    v ∈ gets st -> get driver v = true -> x ∈ links_of v -> x ∈ discovered st
}.

End Graph.

End Frontier.

(** A run whose pages carry no date. *)
Module Undated.
Import Re Scrap.

(** The seed links to one more page; neither title has a digit. *)
Definition two_notes : Driver :=
  {| get := fun u => bool_decide (u = START_URL \/ u = Examples.URL_19);
     wait_body := fun _ => true;
     page_source := fun u =>
       if decide (u = START_URL) then
         Examples.brief "Оперативна інформація" "Перше зведення."
           [Examples.URL_19; START_URL]
       else Examples.brief "Зведення" "Друге зведення." [] |}.

End Undated.

(** Runs with faults. *)
Module Faults.
Import Re Scrap.

(** A reference with both fragments whose authority opens a bracket and
    does not close it: [urlsplit] refuses it (ValueError, "Invalid IPv6
    URL"). *)
Definition BRACKET_HREF : str :=
  py "//[operatyvna-informatsiia-shchodo-rosiiskoho-vtorhnennia".

(** [urljoin] on the references of the examples: one that opens an
    authority with a bracket and has no closing bracket is refused, an
    absolute one resolves to itself. *)
Definition strict (base ref : str) : option str :=
  if startswith (py "//[") ref && negb (mem 93 ref) then None else Some ref.

(** The session of a driver whose loaded pages are all read and parsed. *)
Definition sound (d : Driver) : Raising.Browser :=
  {| Raising.get := get d;
     Raising.wait_body := wait_body d;
     Raising.page_source := fun u => Some (page_source d u) |}.

(** The three briefs, the one of the 19th failing to load. *)
Definition one_down : Driver :=
  {| get := fun u => bool_decide (u = START_URL \/ u = Examples.URL_18);
     wait_body := fun _ => false;
     page_source := page_source Examples.three_briefs |}.

(** The seed loads, and its page has a link that [urljoin] refuses. *)
Definition bad_link : Driver :=
  {| get := fun u => bool_decide (u = START_URL);
     wait_body := fun _ => true;
     page_source := fun _ =>
       Examples.brief "Оперативна інформація станом на 08:00 20.10.2025"
         "Зведення за 20 жовтня." [BRACKET_HREF] |}.

(** The dates that pandas before 3 holds as a Timestamp, nanoseconds in
    64 bits: 1677-09-22 to 2262-04-11. *)
Definition nanosecond_dates (d : date) : bool :=
  (16770922 <=? date_key d) && (date_key d <=? 22620411).

End Faults.
Import Re Scrap.

(** * Properties *)

(** ** The matcher against the language of a pattern *)

Ltac assoc := repeat first [rewrite <- app_assoc | progress simpl].
Ltac lens := repeat first [rewrite length_app | progress simpl].

Section ReFacts.

Lemma rep_sound {A} p (k : str -> option A) x s : forall lo hi,
  rep p lo hi s k = Some x ->
  exists w s', s = w ++ s' /\ forallb p w = true /\ (lo <= length w)%nat
    /\ (forall h, hi = Some h -> (length w <= h)%nat) /\ k s' = Some x.
Proof.
  induction s as [|c s IH]; intros lo hi H; simpl in H.
  - destruct lo; [|discriminate].
    exists [], []. repeat split; simpl; auto; intros; lia.
  - assert (Hstop : match lo with O => k (c :: s) | S _ => None end = Some x ->
       exists w s', c :: s = w ++ s' /\ forallb p w = true /\ (lo <= length w)%nat
         /\ (forall h, hi = Some h -> (length w <= h)%nat) /\ k s' = Some x).
    { destruct lo; [|discriminate]. intros Hk.
      exists [], (c :: s). repeat split; simpl; auto; intros; lia. }
    destruct (p c) eqn:Hp; simpl in H; [|auto].
    destruct (exhausted hi) eqn:Hx; simpl in H; [auto|].
    destruct (rep p (Nat.pred lo) (option_map Nat.pred hi) s k) eqn:Hr; [|auto].
    injection H as ->.
    destruct (IH _ _ Hr) as (w & s' & -> & Hw & Hlo & Hhi & Hk).
    exists (c :: w), s'. simpl. rewrite Hp, Hw. repeat split; auto; [lia|].
    intros h ->. destruct h as [|h]; [discriminate|].
    specialize (Hhi h eq_refl). lia.
Qed.

Lemma rep_complete {A} p (k : str -> option A) w s' : forall lo hi,
  forallb p w = true -> (lo <= length w)%nat ->
  (forall h, hi = Some h -> (length w <= h)%nat) -> is_Some (k s') ->
  is_Some (rep p lo hi (w ++ s') k).
Proof.
  induction w as [|c w IH]; intros lo hi Hw Hlo Hhi Hk; simpl in *.
  - assert (lo = O) as -> by lia.
    destruct s' as [|c s]; simpl; auto.
    destruct (p c && negb (exhausted hi)); auto.
    destruct (rep p _ _ s k); eauto.
  - apply andb_prop in Hw as [Hc Hw]. rewrite Hc. simpl.
    assert (exhausted hi = false) as ->.
    { destruct hi as [[|h]|]; auto. specialize (Hhi _ eq_refl). lia. }
    simpl.
    assert (is_Some (rep p (Nat.pred lo) (option_map Nat.pred hi) (w ++ s') k)) as [y ->]; eauto.
    apply IH; auto; [lia|].
    intros h Hh. destruct hi as [h'|]; [|discriminate]. simpl in Hh.
    injection Hh as <-. specialize (Hhi _ eq_refl). lia.
Qed.

Lemma take_matched (w s' : str) :
  take (length (w ++ s') - length s') (w ++ s') = w.
Proof.
  rewrite length_app. replace (length w + length s' - length s')%nat with (length w) by lia.
  apply take_app_length.
Qed.

(** Soundness: what the matcher returns comes from a text of the language
    followed by a text the rest of the pattern accepts. *)
Lemma run_sound {A} r : forall caps s (k : list str -> str -> option A) x,
  run r caps s k = Some x ->
  exists w s' caps', s = w ++ s' /\ matches r caps w caps' /\ k caps' s' = Some x.
Proof.
  induction r as [|p|r1 IH1 r2 IH2|r1 IH1 r2 IH2|p lo hi|r IH];
    intros caps s k x H; simpl in H.
  - exists [], s, caps. repeat split; auto. constructor.
  - destruct s as [|c s]; [discriminate|].
    destruct (p c) eqn:Hp; [|discriminate].
    exists [c], s, caps. repeat split; auto. by constructor.
  - apply IH1 in H as (w1 & s1 & caps1 & -> & M1 & H).
    apply IH2 in H as (w2 & s2 & caps2 & -> & M2 & H).
    exists (w1 ++ w2), s2, caps2. rewrite <- app_assoc. repeat split; auto.
    econstructor; eauto.
  - destruct (run r1 caps s k) eqn:H1.
    + injection H as ->. apply IH1 in H1 as (w & s' & caps' & -> & M & Hk).
      exists w, s', caps'. repeat split; auto. by apply M_AltL.
    + apply IH2 in H as (w & s' & caps' & -> & M & Hk).
      exists w, s', caps'. repeat split; auto. by apply M_AltR.
  - apply rep_sound in H as (w & s' & -> & Hw & Hlo & Hhi & Hk).
    exists w, s', caps. repeat split; auto. by constructor.
  - apply IH in H as (w & s' & caps' & -> & M & Hk).
    rewrite take_matched in Hk.
    exists w, s', (caps' ++ [w]). repeat split; auto. by constructor.
Qed.

(** Completeness: backtracking loses no match. *)
Lemma run_complete {A} r caps w caps' :
  matches r caps w caps' ->
  forall s' (k : list str -> str -> option A),
  is_Some (k caps' s') -> is_Some (run r caps (w ++ s') k).
Proof.
  induction 1 as [caps|p c caps Hp|r1 r2 caps w1 caps1 w2 caps2 _ IH1 _ IH2
                 |r1 r2 caps w caps1 _ IH|r1 r2 caps w caps1 _ IH
                 |p lo hi caps w Hw Hlo Hhi|r caps w caps1 _ IH];
    intros s' k Hk; simpl.
  - done.
  - by rewrite Hp.
  - rewrite <- app_assoc. apply IH1, IH2, Hk.
  - destruct (IH s' k Hk) as [y ->]. eauto.
  - destruct (run r1 caps (w ++ s') k); eauto.
  - by apply rep_complete.
  - apply IH. by rewrite take_matched.
Qed.

(** Greed: the repetition taken is the longest that lets the rest of the
    pattern match. *)
Lemma rep_greedy {A} p (k : str -> option A) x s : forall lo hi,
  rep p lo hi s k = Some x ->
  exists w s', s = w ++ s' /\ forallb p w = true /\ (lo <= length w)%nat
    /\ (forall h, hi = Some h -> (length w <= h)%nat) /\ k s' = Some x /\
    forall w2 s2, s = w2 ++ s2 -> forallb p w2 = true ->
      (length w < length w2)%nat ->
      (forall h, hi = Some h -> (length w2 <= h)%nat) -> k s2 = None.
Proof.
  induction s as [|c s IH]; intros lo hi H; simpl in H.
  - destruct lo; [|discriminate]. exists [], [].
    split_and!; simpl; auto; try (intros; lia).
    intros w2 s2 E _ L _. symmetry in E. apply app_eq_nil in E as [-> _]. simpl in L; lia.
  - destruct (p c && negb (exhausted hi)) eqn:Hc.
    + destruct (rep p (Nat.pred lo) (option_map Nat.pred hi) s k) eqn:Hr.
      * injection H as ->.
        destruct (IH _ _ Hr) as (w & s' & -> & Hw & Hlo & Hhi & Hk & Hmax).
        apply andb_prop in Hc as [Hpc Hx]. apply negb_true_iff in Hx.
        exists (c :: w), s'. split_and!; simpl; auto.
        -- by rewrite Hpc.
        -- lia.
        -- intros h ->. destruct h as [|h]; [discriminate|].
           specialize (Hhi h eq_refl). lia.
        -- intros w2 s2 E Hw2 L Hh. destruct w2 as [|c2 w2]; [simpl in L; lia|].
           simpl in E. injection E as <- E. simpl in Hw2.
           apply andb_prop in Hw2 as [_ Hw2].
           apply (Hmax w2 s2 E Hw2); [simpl in L; lia|].
           intros h Hh'. destruct hi as [h'|]; [|discriminate]. simpl in Hh'.
           injection Hh' as <-. specialize (Hh _ eq_refl). simpl in Hh. lia.
      * destruct lo; [|discriminate]. exists [], (c :: s).
        split_and!; simpl; auto; try (intros; lia).
        intros w2 s2 E Hw2 L Hh. destruct w2 as [|c2 w2]; [simpl in L; lia|].
        simpl in E. injection E as <- E. simpl in Hw2. apply andb_prop in Hw2 as [_ Hw2].
        destruct (k s2) eqn:Hk2; [|done]. exfalso.
        assert (is_Some (rep p (Nat.pred 0) (option_map Nat.pred hi) (w2 ++ s2) k)) as [y Hy].
        { apply rep_complete; [assumption|simpl; lia| |by eauto].
          intros h Hh'. destruct hi as [h'|]; [|discriminate]. simpl in Hh'.
          injection Hh' as <-. specialize (Hh _ eq_refl). simpl in Hh. lia. }
        rewrite <- E in Hy. congruence.
    + destruct lo; [|discriminate]. exists [], (c :: s).
      split_and!; simpl; auto; try (intros; lia).
      intros w2 s2 E Hw2 L Hh. destruct w2 as [|c2 w2]; [simpl in L; lia|].
      simpl in E. injection E as <- E. simpl in Hw2. apply andb_prop in Hw2 as [Hc2 Hw2].
      rewrite Hc2 in Hc. simpl in Hc. apply negb_false_iff in Hc.
      destruct hi as [[|h]|]; try discriminate. specialize (Hh _ eq_refl). simpl in Hh. lia.
Qed.

Lemma run_Cat_sound {A} r1 r2 caps s (k : list str -> str -> option A) x :
  run (Cat r1 r2) caps s k = Some x ->
  exists w1 s1 caps1, s = w1 ++ s1 /\ matches r1 caps w1 caps1
    /\ run r2 caps1 s1 k = Some x.
Proof. simpl. apply run_sound. Qed.

Lemma matches_Grp_Rep p lo hi caps w caps' :
  matches (Grp (Rep p lo hi)) caps w caps' ->
  forallb p w = true /\ (lo <= length w)%nat
  /\ (forall h, hi = Some h -> (length w <= h)%nat) /\ caps' = caps ++ [w].
Proof.
  intros M. inversion M as [| | | | | |r c0 w0 c1 M1]; subst.
  inversion M1; subst. auto.
Qed.

Lemma matches_Chr p caps w caps' :
  matches (Chr p) caps w caps' -> exists c, w = [c] /\ p c = true /\ caps' = caps.
Proof. intros M. inversion M; subst. eauto. Qed.

Lemma match_at_sound r s caps n :
  match_at r s = Some (caps, n) ->
  exists w s', s = w ++ s' /\ matches r [] w caps /\ n = length w.
Proof.
  unfold match_at. intros H.
  apply run_sound in H as (w & s' & caps' & -> & M & H).
  injection H as -> <-. exists w, s'. repeat split; auto.
  rewrite length_app. lia.
Qed.

Lemma match_at_complete r w s' caps :
  matches r [] w caps -> is_Some (match_at r (w ++ s')).
Proof. intros M. unfold match_at. eapply run_complete; eauto. Qed.

Lemma match_at_None r s w s' caps :
  match_at r s = None -> s = w ++ s' -> ~ matches r [] w caps.
Proof.
  intros H -> M. destruct (match_at_complete r w s' caps M) as [x Hx]. congruence.
Qed.

(** [search] returns the match at the least position that has one. *)
Lemma search_from_Some r s : forall i0 i caps n,
  search_from r i0 s = Some (i, caps, n) ->
  exists j, i = (i0 + j)%nat /\ (j <= length s)%nat /\
    match_at r (drop j s) = Some (caps, n) /\
    forall j', (j' < j)%nat -> match_at r (drop j' s) = None.
Proof.
  induction s as [|c s IH]; intros i0 i caps n H; simpl in H.
  - destruct (match_at r []) as [[caps' n']|] eqn:E; [|discriminate].
    injection H as <- <- <-. exists O. simpl. repeat split; auto; try lia; intros; lia.
  - destruct (match_at r (c :: s)) as [[caps' n']|] eqn:E.
    + injection H as <- <- <-. exists O. simpl. repeat split; auto; try lia; intros; lia.
    + apply IH in H as (j & -> & Hj & Hm & Hmin).
      exists (S j). simpl. repeat split; auto; try lia.
      intros [|j'] Hlt; simpl; auto. apply Hmin. lia.
Qed.

Lemma search_from_None r s : forall i0,
  search_from r i0 s = None -> forall j, match_at r (drop j s) = None.
Proof.
  induction s as [|c s IH]; intros i0 H j; simpl in H.
  - destruct (match_at r []) as [[caps' n']|] eqn:E; [discriminate|].
    by rewrite drop_nil.
  - destruct (match_at r (c :: s)) as [[caps' n']|] eqn:E; [discriminate|].
    destruct j as [|j]; simpl; eauto.
Qed.

Lemma search_from_first r s : forall i0 j caps n,
  (j <= length s)%nat -> match_at r (drop j s) = Some (caps, n) ->
  (forall j', (j' < j)%nat -> match_at r (drop j' s) = None) ->
  search_from r i0 s = Some ((i0 + j)%nat, caps, n).
Proof.
  induction s as [|c s IH]; intros i0 j caps n Hj Hm Hmin; simpl.
  - rewrite drop_nil in Hm. rewrite Hm. simpl in Hj. do 3 f_equal. lia.
  - destruct j as [|j].
    + simpl in Hm. rewrite Hm. do 3 f_equal. lia.
    + pose proof (Hmin O ltac:(lia)) as H0. simpl in H0. rewrite H0. simpl in Hm, Hj.
      rewrite (IH (S i0) j caps n); auto; [do 3 f_equal; lia|lia|].
      intros j' Hlt. apply (Hmin (S j')). lia.
Qed.

Lemma search_Some r s i caps n :
  search r s = Some (i, caps, n) ->
  (i <= length s)%nat /\ match_at r (drop i s) = Some (caps, n) /\
  forall j, (j < i)%nat -> match_at r (drop j s) = None.
Proof.
  intros H. apply search_from_Some in H as (j & -> & H). exact H.
Qed.

Lemma search_None r s :
  search r s = None -> forall j, match_at r (drop j s) = None.
Proof. apply search_from_None. Qed.

Lemma search_first r s i caps n :
  (i <= length s)%nat -> match_at r (drop i s) = Some (caps, n) ->
  (forall j, (j < i)%nat -> match_at r (drop j s) = None) ->
  search r s = Some (i, caps, n).
Proof. intros. unfold search. by rewrite (search_from_first r s 0 i caps n). Qed.

(** The scans of [sub] and [split], one match at a time. *)
Lemma sub_go_skip r repl s : forall n,
  sub_go r repl n s = sub r repl (drop n s).
Proof.
  induction s as [|c s IH]; intros [|n]; simpl; auto.
Qed.

Lemma sub_cons r repl c s :
  sub r repl (c :: s) =
  match match_at r (c :: s) with
  | Some (_, n) => repl ++ sub r repl (drop (Nat.pred n) s)
  | None => c :: sub r repl s
  end.
Proof.
  unfold sub at 1. simpl. destruct (match_at r (c :: s)) as [[caps n]|]; auto.
  by rewrite sub_go_skip.
Qed.

Lemma split_go_skip r s : forall n cur,
  split_go r n cur s = split_go r 0 cur (drop n s).
Proof.
  induction s as [|c s IH]; intros [|n] cur; simpl; auto.
Qed.

(** The first piece of a split is the text before the leftmost match. *)
Lemma split_go_hd r s : forall i0 cur,
  hd [] (split_go r 0 cur s) =
  cur ++ match search_from r i0 s with
         | Some (i, _, _) => take (i - i0) s
         | None => s
         end.
Proof.
  induction s as [|c s IH]; intros i0 cur; simpl.
  - destruct (match_at r []) as [[caps n]|]; simpl; by rewrite ?take_nil, app_nil_r.
  - destruct (match_at r (c :: s)) as [[caps n]|] eqn:E; simpl.
    + by rewrite Nat.sub_diag, app_nil_r.
    + rewrite (IH (S i0)), <- app_assoc. simpl.
      destruct (search_from r (S i0) s) as [[[i caps] n]|] eqn:E1; [|done].
      destruct (search_from_Some _ _ _ _ _ _ E1) as (j & -> & _).
      replace (S i0 + j - i0)%nat with (S (S i0 + j - S i0)) by lia. done.
Qed.

Lemma split_hd r s :
  hd [] (split r s) =
  match search r s with
  | Some (i, _, _) => take i s
  | None => s
  end.
Proof.
  unfold split, search. rewrite (split_go_hd r s 0). simpl.
  destruct (search_from r 0 s) as [[[i caps] n]|]; by rewrite ?Nat.sub_0_r.
Qed.

End ReFacts.

(** ** [clean_text] *)

Section CleanText.
Import Spec.

Lemma no_pair_cons R a s : no_pair R (a :: s) = true -> no_pair R s = true.
Proof. destruct s as [|b s]; simpl; auto. intros H. by apply andb_prop in H as [_ H]. Qed.

Lemma no_pair_cons2 R a b s :
  no_pair R (a :: b :: s) = negb (R a b) && no_pair R (b :: s).
Proof. reflexivity. Qed.

Lemma no_pair_drop R n : forall s, no_pair R s = true -> no_pair R (drop n s) = true.
Proof.
  induction n as [|n IH]; intros [|a s] H; simpl; auto.
  apply IH. by apply no_pair_cons in H.
Qed.

Lemma no_pair_app_r R l s : no_pair R (l ++ s) = true -> no_pair R s = true.
Proof. intros H. apply (no_pair_drop R (length l)) in H. by rewrite drop_app_length in H. Qed.

Lemma no_pair_spec R s pre a b post :
  no_pair R s = true -> s = pre ++ a :: b :: post -> R a b = false.
Proof.
  intros H ->. apply no_pair_app_r in H. simpl in H.
  apply andb_prop in H as [H _]. by apply negb_true_iff in H.
Qed.

Lemma no_pair_app_l R l s : no_pair R (l ++ s) = true -> no_pair R l = true.
Proof.
  induction l as [|a l IH]; simpl; auto.
  destruct l as [|b l]; simpl in *; auto.
  intros H. apply andb_prop in H as [-> H]. simpl. auto.
Qed.

(** Induction along the scan of [sub]. *)
Lemma sub_ind r repl (P : str -> str -> Prop) :
  P [] [] ->
  (forall c s out, match_at r (c :: s) = None -> P s out -> P (c :: s) (c :: out)) ->
  (forall c s caps n out, match_at r (c :: s) = Some (caps, n) ->
     P (drop (Nat.pred n) s) out -> P (c :: s) (repl ++ out)) ->
  forall s, P s (sub r repl s).
Proof.
  intros Hnil Hcopy Hrepl s.
  remember (length s) as m eqn:Hm. revert s Hm.
  induction m as [m IH] using lt_wf_ind. intros [|c s] Hm.
  - exact Hnil.
  - rewrite sub_cons. simpl in Hm.
    destruct (match_at r (c :: s)) as [[caps n]|] eqn:E.
    + eapply Hrepl; eauto. eapply IH; [|reflexivity].
      rewrite length_drop. lia.
    + apply Hcopy; auto. eapply IH; [|reflexivity]. lia.
Qed.

Lemma drop_matched (c : char) (s w s' : str) :
  c :: s = w ++ s' -> (1 <= length w)%nat -> drop (Nat.pred (length w)) s = s'.
Proof.
  destruct w as [|c' w]; simpl; [lia|]. intros E _. injection E as _ ->.
  apply drop_app_length.
Qed.

Lemma drop_matched_newline (c : char) (s v s' : str) :
  c :: s = v ++ 10 :: s' -> drop (Nat.pred (S (length v))) s = s'.
Proof.
  intros E. replace (S (length v)) with (length (v ++ [10]))
    by (rewrite length_app; simpl; lia).
  apply (drop_matched c); [by rewrite <- app_assoc|].
  rewrite length_app. simpl. lia.
Qed.

Lemma blank_isspace c : is_blank c = true -> isspace c = true.
Proof.
  unfold is_blank. intros H. apply orb_prop in H as [H|H]; apply N.eqb_eq in H; by subst.
Qed.

Lemma forallb_blank_isspace w : forallb is_blank w = true -> forallb isspace w = true.
Proof.
  induction w as [|c w IH]; simpl; auto. intros H. apply andb_prop in H as [Hc H].
  by rewrite (blank_isspace c Hc), IH.
Qed.

(** *** The pattern [[ \t]+] *)

Lemma blanks_match s caps n :
  match_at RE_BLANKS s = Some (caps, n) ->
  exists w s', s = w ++ s' /\ forallb is_blank w = true /\ (1 <= length w)%nat
    /\ n = length w /\ forall c s'', s' = c :: s'' -> is_blank c = false.
Proof.
  intros H. pose proof (match_at_sound _ _ _ _ H) as (w & s' & -> & M & ->).
  inversion M as [| | | | |p lo hi caps0 w0 Hw Hlo _|]; subst.
  exists w, s'. repeat split; auto.
  intros c s'' ->. destruct (is_blank c) eqn:Hc; [|done]. exfalso.
  unfold match_at, RE_BLANKS in H. simpl in H.
  apply rep_greedy in H as (w1 & s1 & E & _ & _ & _ & Hk & Hmax).
  injection Hk as Hk. rewrite E in Hk.
  assert (length w1 = length w) as Hlen.
  { apply (f_equal length) in E. repeat rewrite length_app in E.
    repeat rewrite length_app in Hk. lia. }
  specialize (Hmax (w ++ [c]) s''). rewrite <- app_assoc in Hmax.
  discriminate Hmax; auto.
  - rewrite forallb_app, Hw. simpl. by rewrite Hc.
  - rewrite length_app. simpl. lia.
  - intros h; discriminate.
Qed.

Lemma blanks_no_match c s :
  match_at RE_BLANKS (c :: s) = None -> is_blank c = false.
Proof.
  intros H. destruct (is_blank c) eqn:Hc; [|done]. exfalso.
  eapply (match_at_None _ _ [c] s []); eauto.
  constructor; simpl; [by rewrite Hc|lia|discriminate].
Qed.

(** *** The pattern [\s+\n] *)

Lemma space_newline_lang w caps :
  matches RE_SPACE_NEWLINE [] w caps ->
  exists v, w = v ++ [10] /\ forallb isspace v = true /\ (1 <= length v)%nat.
Proof.
  intros M. inversion M as [| |r1 r2 c0 w1 c1 w2 c2 M1 M2| | | |]; subst.
  inversion M1 as [| | | | |p lo hi caps0 w0 Hw Hlo _|]; subst.
  inversion M2 as [|p c caps0 Hc| | | | |]; subst.
  apply N.eqb_eq in Hc as ->. by exists w1.
Qed.

Lemma newline_ahead_match s :
  newline_ahead s -> forall c, isspace c = true ->
  is_Some (match_at RE_SPACE_NEWLINE (c :: s)).
Proof.
  intros (v & s' & -> & Hv) c Hc.
  replace (c :: v ++ 10 :: s') with (((c :: v) ++ [10]) ++ s')
    by (by rewrite <- app_assoc).
  eapply match_at_complete. econstructor.
  - constructor; [simpl; by rewrite Hc, Hv|simpl; lia|discriminate].
  - by constructor.
Qed.

Lemma space_newline_match s caps n :
  match_at RE_SPACE_NEWLINE s = Some (caps, n) ->
  exists v s', s = v ++ 10 :: s' /\ forallb isspace v = true /\ (1 <= length v)%nat
    /\ n = S (length v) /\ ~ newline_ahead s'.
Proof.
  intros H. pose proof (match_at_sound _ _ _ _ H) as (w & s' & -> & M & ->).
  apply space_newline_lang in M as (v & -> & Hv & Hlen).
  exists v, s'. rewrite <- app_assoc, length_app. simpl.
  repeat split; auto; [lia|].
  intros (u & s'' & -> & Hu).
  unfold match_at, RE_SPACE_NEWLINE in H. simpl in H.
  apply rep_greedy in H as (w1 & s1 & E & _ & _ & _ & Hk & Hmax).
  destruct s1 as [|c1 s1]; [discriminate|].
  destruct (is_newline c1) eqn:Hc1; [|discriminate].
  injection Hk as _ Hk.
  assert (length w1 = length v) as Hl1.
  { apply (f_equal length) in E. repeat rewrite length_app in E.
    repeat rewrite length_app in Hk. simpl in E, Hk. lia. }
  specialize (Hmax (v ++ 10 :: u) (10 :: s'')).
  rewrite <- !app_assoc in Hmax. simpl in Hmax.
  discriminate Hmax; auto.
  - rewrite forallb_app, Hv. simpl. by rewrite Hu.
  - rewrite length_app. simpl. lia.
  - intros h; discriminate.
Qed.

Lemma space_newline_no_match c s :
  match_at RE_SPACE_NEWLINE (c :: s) = None -> isspace c = true -> ~ newline_ahead s.
Proof.
  intros H Hc Hn. destruct (newline_ahead_match s Hn c Hc) as [x Hx]. congruence.
Qed.

Lemma forallb_drop {A} (p : A -> bool) n : forall l,
  forallb p l = true -> forallb p (drop n l) = true.
Proof.
  induction n as [|n IH]; intros [|a l]; simpl; auto.
  intros H. apply andb_prop in H as [_ H]. auto.
Qed.

Lemma filter_all_space w s :
  forallb isspace w = true -> List.filter visible (w ++ s) = List.filter visible s.
Proof.
  induction w as [|c w IH]; simpl; auto. intros H. apply andb_prop in H as [Hc H].
  unfold visible at 1. rewrite Hc. simpl. auto.
Qed.

(** *** First step: runs of blanks *)

Lemma blanks_sub_pairs s :
  no_pair both_blank (sub RE_BLANKS [32] s) = true /\
  forall c out', sub RE_BLANKS [32] s = c :: out' -> is_blank c = true ->
    exists c' s', s = c' :: s' /\ is_blank c' = true.
Proof.
  apply (sub_ind RE_BLANKS [32]
    (fun s out => no_pair both_blank out = true /\
       forall c out', out = c :: out' -> is_blank c = true ->
         exists c' s', s = c' :: s' /\ is_blank c' = true)); clear s.
  - split; [done|]. intros; discriminate.
  - intros c s out Hm [IH1 IH2]. apply blanks_no_match in Hm. split.
    + destruct out as [|b out]; [done|]. simpl in *.
      unfold both_blank at 1. by rewrite Hm, IH1.
    + intros c0 out' E Hb. injection E as <- _. congruence.
  - intros c s caps n out Hm [IH1 IH2].
    apply blanks_match in Hm as (w & s' & E & Hw & Hlen & -> & Hmax).
    rewrite (drop_matched c s w s' E Hlen) in IH2. split.
    + destruct out as [|b out]; [done|].
      change ([32] ++ b :: out) with (32 :: b :: out).
      rewrite no_pair_cons2. rewrite IH1, andb_true_r.
      destruct (is_blank b) eqn:Hb; [|unfold both_blank; by rewrite Hb, andb_false_r].
      destruct (IH2 b out eq_refl Hb) as (c' & s'' & -> & Hc').
      by rewrite (Hmax c' s'' eq_refl) in Hc'.
    + intros c0 out' _ _. exists c, s. split; [done|].
      destruct w as [|c' w]; [simpl in Hlen; lia|].
      simpl in E. injection E as -> _. simpl in Hw. by apply andb_prop in Hw as [Hw _].
Qed.

Lemma blanks_sub_no_tab s :
  forallb (fun c => negb (c =? 9)) (sub RE_BLANKS [32] s) = true.
Proof.
  apply (sub_ind RE_BLANKS [32]
    (fun s out => forallb (fun c => negb (c =? 9)) out = true)); clear s.
  - done.
  - intros c s out Hm IH. apply blanks_no_match in Hm. simpl. rewrite IH, andb_true_r.
    destruct (c =? 9) eqn:E; [|done]. apply N.eqb_eq in E as ->. discriminate.
  - intros c s caps n out _ IH. simpl. exact IH.
Qed.

Lemma blanks_sub_visible s :
  List.filter visible (sub RE_BLANKS [32] s) = List.filter visible s.
Proof.
  apply (sub_ind RE_BLANKS [32]
    (fun s out => List.filter visible out = List.filter visible s)); clear s.
  - done.
  - intros c s out _ IH. simpl. by rewrite IH.
  - intros c s caps n out Hm IH.
    apply blanks_match in Hm as (w & s' & E & Hw & Hlen & -> & _).
    rewrite (drop_matched c s w s' E Hlen) in IH.
    rewrite E, (filter_all_space w s' (forallb_blank_isspace w Hw)).
    by rewrite (filter_all_space [32] out eq_refl).
Qed.

(** *** Second step: whitespace before a newline *)

Lemma space_newline_sub_blank_pairs s :
  (no_pair both_blank s = true ->
   no_pair both_blank (sub RE_SPACE_NEWLINE [10] s) = true) /\
  forall c out', sub RE_SPACE_NEWLINE [10] s = c :: out' ->
    c = 10 \/ exists s', s = c :: s'.
Proof.
  apply (sub_ind RE_SPACE_NEWLINE [10]
    (fun s out => (no_pair both_blank s = true -> no_pair both_blank out = true) /\
       forall c out', out = c :: out' -> c = 10 \/ exists s', s = c :: s')); clear s.
  - split; [done|]. intros; discriminate.
  - intros c s out _ [IH1 IH2]. split.
    + intros H. pose proof (IH1 (no_pair_cons _ _ _ H)) as H1.
      destruct out as [|b out]; [done|]. rewrite no_pair_cons2. rewrite H1, andb_true_r.
      destruct (IH2 b out eq_refl) as [->|[s' ->]].
      * unfold both_blank. simpl. by rewrite andb_false_r.
      * simpl in H. by apply andb_prop in H as [H _].
    + intros c0 out' E. injection E as <- _. eauto.
  - intros c s caps n out _ [IH1 IH2]. split.
    + intros H. apply no_pair_cons, (no_pair_drop _ (Nat.pred n)) in H.
      apply IH1 in H. destruct out as [|b out]; [done|].
      change ([10] ++ b :: out) with (10 :: b :: out). rewrite no_pair_cons2. by rewrite H.
    + intros c0 out' E. injection E as <- _. by left.
Qed.

Lemma space_newline_sub_no_tab s :
  forallb (fun c => negb (c =? 9)) s = true ->
  forallb (fun c => negb (c =? 9)) (sub RE_SPACE_NEWLINE [10] s) = true.
Proof.
  apply (sub_ind RE_SPACE_NEWLINE [10]
    (fun s out => forallb (fun c => negb (c =? 9)) s = true ->
                  forallb (fun c => negb (c =? 9)) out = true)); clear s.
  - done.
  - intros c s out _ IH H. simpl in *. apply andb_prop in H as [-> H]. by rewrite IH.
  - intros c s caps n out _ IH H. simpl in *. apply andb_prop in H as [_ H].
    by apply IH, forallb_drop.
Qed.

Lemma space_newline_sub_pairs s :
  no_pair space_then_newline (sub RE_SPACE_NEWLINE [10] s) = true /\
  (~ newline_ahead s -> forall out', sub RE_SPACE_NEWLINE [10] s <> 10 :: out').
Proof.
  apply (sub_ind RE_SPACE_NEWLINE [10]
    (fun s out => no_pair space_then_newline out = true /\
       (~ newline_ahead s -> forall out', out <> 10 :: out'))); clear s.
  - split; [done|]. intros; discriminate.
  - intros c s out Hm [IH1 IH2]. split.
    + destruct out as [|b out]; [done|]. rewrite no_pair_cons2. rewrite IH1, andb_true_r.
      unfold space_then_newline. destruct (isspace c) eqn:Hc; [|done].
      destruct (is_newline b) eqn:Hb; [|done]. exfalso.
      apply N.eqb_eq in Hb as ->.
      by apply (IH2 (space_newline_no_match c s Hm Hc) out).
    + intros Hn out' E. injection E as -> _.
      apply Hn. by exists [], s.
  - intros c s caps n out Hm [IH1 IH2].
    apply space_newline_match in Hm as (v & s' & E & Hv & Hlen & -> & Hmax).
    pose proof (drop_matched_newline c s v s' E) as Hd.
    rewrite Hd in IH2. split.
    + destruct out as [|b out]; [done|].
      change ([10] ++ b :: out) with (10 :: b :: out). rewrite no_pair_cons2.
      rewrite IH1, andb_true_r. unfold space_then_newline.
      destruct (is_newline b) eqn:Hb; [|by rewrite andb_false_r]. exfalso.
      apply N.eqb_eq in Hb as ->. by apply (IH2 Hmax out).
    + intros Hn _ _. apply Hn. exists v, s'. by rewrite E.
Qed.

Lemma space_newline_sub_visible s :
  List.filter visible (sub RE_SPACE_NEWLINE [10] s) = List.filter visible s.
Proof.
  apply (sub_ind RE_SPACE_NEWLINE [10]
    (fun s out => List.filter visible out = List.filter visible s)); clear s.
  - done.
  - intros c s out _ IH. simpl. by rewrite IH.
  - intros c s caps n out Hm IH.
    apply space_newline_match in Hm as (v & s' & E & Hv & Hlen & -> & _).
    pose proof (drop_matched_newline c s v s' E) as Hd.
    rewrite Hd in IH. rewrite E.
    replace (v ++ 10 :: s') with ((v ++ [10]) ++ s') by (by rewrite <- app_assoc).
    rewrite (filter_all_space (v ++ [10]) s') by (by rewrite forallb_app, Hv).
    by rewrite (filter_all_space [10] out eq_refl).
Qed.

(** *** Third step: [strip] *)

Lemma lstrip_spec s :
  exists l, s = l ++ lstrip s /\ forallb isspace l = true /\
    forall c r, lstrip s = c :: r -> isspace c = false.
Proof.
  induction s as [|c s (l & E & Hl & Hh)]; simpl.
  - exists []. repeat split; auto. intros; discriminate.
  - destruct (isspace c) eqn:Hc.
    + exists (c :: l). simpl. rewrite Hc, Hl. repeat split; auto. by rewrite <- E.
    + exists []. repeat split; auto. intros c0 r E0. by injection E0 as <- _.
Qed.

Lemma forallb_rev {A} (p : A -> bool) l : forallb p (rev l) = forallb p l.
Proof.
  induction l as [|a l IH]; simpl; auto.
  rewrite forallb_app, IH. simpl. rewrite andb_true_r. apply andb_comm.
Qed.

Lemma rstrip_spec s :
  exists r, s = rstrip s ++ r /\ forallb isspace r = true /\
    forall c l, rstrip s = l ++ [c] -> isspace c = false.
Proof.
  unfold rstrip. destruct (lstrip_spec (rev s)) as (l & E & Hl & Hh).
  exists (rev l). repeat split.
  - rewrite <- rev_app_distr, <- E. by rewrite rev_involutive.
  - by rewrite forallb_rev.
  - intros c l0 E0. apply (f_equal (@rev N)) in E0.
    rewrite rev_involutive, rev_app_distr in E0. simpl in E0. eauto.
Qed.

Lemma strip_spec s :
  exists l r, s = l ++ strip s ++ r /\ forallb isspace l = true /\
    forallb isspace r = true /\
    (forall c x, strip s = c :: x -> isspace c = false) /\
    (forall c x, strip s = x ++ [c] -> isspace c = false).
Proof.
  unfold strip. destruct (lstrip_spec s) as (l & E & Hl & Hh).
  destruct (rstrip_spec (lstrip s)) as (r & E' & Hr & Ht).
  exists l, r. repeat split; auto.
  - by rewrite <- E', <- E.
  - intros c x Ex. rewrite Ex in E'. simpl in E'. eauto.
Qed.

(** *** The two replacements, run by run *)

Lemma blank_runs_run w : forall post,
  forallb is_blank w = true -> (1 <= length w)%nat -> starts_blank post = false ->
  blank_runs_to_space (w ++ post) = 32 :: blank_runs_to_space post.
Proof.
  induction w as [|c w IH]; intros post Hw Hlen Hp; [simpl in Hlen; lia|].
  simpl in Hw. apply andb_prop in Hw as [Hc Hw].
  change ((c :: w) ++ post) with (c :: (w ++ post)).
  cbn [blank_runs_to_space]. rewrite Hc.
  destruct w as [|d w].
  - simpl. by rewrite Hp.
  - assert (starts_blank ((d :: w) ++ post) = true) as ->.
    { simpl in Hw |- *. by apply andb_prop in Hw as [-> _]. }
    apply IH; [done|simpl; lia|done].
Qed.

Lemma blanks_sub_runs s : sub RE_BLANKS [32] s = blank_runs_to_space s.
Proof.
  apply (sub_ind RE_BLANKS [32] (fun s out => out = blank_runs_to_space s)); clear s.
  - done.
  - intros c s out Hm ->. apply blanks_no_match in Hm.
    cbn [blank_runs_to_space]. by rewrite Hm.
  - intros c s caps n out Hm ->.
    apply blanks_match in Hm as (w & s' & E & Hw & Hlen & -> & Hmax).
    rewrite (drop_matched c s w s' E Hlen), E.
    rewrite (blank_runs_run w s' Hw Hlen); [done|].
    destruct s' as [|c' s'']; [done|]. exact (Hmax c' s'' eq_refl).
Qed.

Lemma newline_ahead_decided s : newline_ahead_b s = true <-> newline_ahead s.
Proof.
  split.
  - induction s as [|c s IH]; [done|]. simpl.
    intros [Hc|[Hc Hs]%andb_prop]%orb_prop.
    + apply N.eqb_eq in Hc as ->. by exists [], s.
    + destruct (IH Hs) as (v & s' & -> & Hv). exists (c :: v), s'.
      split; [done|]. simpl. by rewrite Hc, Hv.
  - intros (v & s' & -> & Hv). induction v as [|c v IH]; [done|].
    simpl in Hv |- *. apply andb_prop in Hv as [Hc Hv].
    by rewrite Hc, (IH Hv), orb_true_r.
Qed.

Lemma whitespace_run v : forall post,
  forallb isspace v = true -> newline_ahead_b post = false ->
  whitespace_to_newline (v ++ 10 :: post) = 10 :: whitespace_to_newline post.
Proof.
  induction v as [|c v IH]; intros post Hv Hp.
  - simpl. by rewrite Hp.
  - simpl in Hv. apply andb_prop in Hv as [Hc Hv].
    change ((c :: v) ++ 10 :: post) with (c :: (v ++ 10 :: post)).
    cbn [whitespace_to_newline]. rewrite Hc.
    assert (newline_ahead_b (v ++ 10 :: post) = true) as ->.
    { apply newline_ahead_decided. by exists v, post. }
    by apply IH.
Qed.

Lemma space_newline_sub_runs s :
  sub RE_SPACE_NEWLINE [10] s = whitespace_to_newline s.
Proof.
  apply (sub_ind RE_SPACE_NEWLINE [10] (fun s out => out = whitespace_to_newline s));
    clear s.
  - done.
  - intros c s out Hm ->. cbn [whitespace_to_newline].
    destruct (isspace c) eqn:Hc; [|done].
    destruct (newline_ahead_b s) eqn:Hn; [|done]. exfalso.
    by apply (space_newline_no_match c s Hm Hc), newline_ahead_decided.
  - intros c s caps n out Hm ->.
    apply space_newline_match in Hm as (v & s' & E & Hv & Hlen & -> & Hmax).
    rewrite (drop_matched_newline c s v s' E), E.
    rewrite (whitespace_run v s' Hv); [done|].
    destruct (newline_ahead_b s') eqn:Hn; [|done].
    by apply newline_ahead_decided in Hn.
Qed.

Lemma clean_text_normalized t : clean_text t = normalized t.
Proof.
  unfold clean_text, normalized. change (py "\n") with [10]. change (py " ") with [32].
  by rewrite blanks_sub_runs, space_newline_sub_runs.
Qed.

(** C8, as amended.  [clean_text] is the normalisation of the
    specification on every input: each run of spaces and tabs becomes one
    space, whitespace that ends in a newline becomes that newline
    (newlines included, so a run of newlines becomes one), and what is
    left is the text between the first and the last character that is no
    whitespace.  So the result has no tab and no two spaces side by side,
    no whitespace character before a newline, no whitespace at either end,
    and all the other characters in their order; single spaces stay, and
    on the input of the specification it gives [a b c], one newline, a
    space and [d]. *)
Theorem clean_text_normal_form (t : str) :
  clean_text t = Spec.normalized t
  /\ (forall w post, forallb is_blank w = true -> (1 <= length w)%nat ->
        Spec.starts_blank post = false ->
        Spec.blank_runs_to_space (w ++ post) = 32 :: Spec.blank_runs_to_space post)
  /\ (forall c s, is_blank c = false ->
        Spec.blank_runs_to_space (c :: s) = c :: Spec.blank_runs_to_space s)
  /\ (forall v post, forallb isspace v = true -> ~ Spec.newline_ahead post ->
        Spec.whitespace_to_newline (v ++ 10 :: post)
        = 10 :: Spec.whitespace_to_newline post)
  /\ (forall c s, isspace c = false \/ ~ Spec.newline_ahead s ->
        Spec.whitespace_to_newline (c :: s) = c :: Spec.whitespace_to_newline s)
  /\ (exists l r,
        Spec.whitespace_to_newline (Spec.blank_runs_to_space t) = l ++ clean_text t ++ r
        /\ forallb isspace l = true /\ forallb isspace r = true)
  /\ ~ In 9 (clean_text t)
  /\ (forall pre post, clean_text t <> pre ++ 32 :: 32 :: post)
  /\ (forall pre a post, clean_text t = pre ++ a :: 10 :: post -> isspace a = false)
  /\ (forall c r, clean_text t = c :: r -> isspace c = false)
  /\ (forall c r, clean_text t = r ++ [c] -> isspace c = false)
  /\ List.filter visible (clean_text t) = List.filter visible t
  /\ clean_text (py "a b") = py "a b"
  /\ clean_text (py "a   b\t\tc \n\n d") = py "a b c\n d".
Proof.
  split; [apply clean_text_normalized|].
  split; [exact blank_runs_run|].
  split; [intros c s Hc; cbn [blank_runs_to_space]; by rewrite Hc|].
  split.
  { intros v post Hv Hn. apply whitespace_run; [done|].
    destruct (newline_ahead_b post) eqn:E; [|done].
    by apply newline_ahead_decided in E. }
  split.
  { intros c s H. cbn [whitespace_to_newline].
    destruct (isspace c) eqn:Hc; [|done].
    destruct (newline_ahead_b s) eqn:E; [|done].
    apply newline_ahead_decided in E. by destruct H. }
  unfold clean_text. change (py "\n") with [10]. change (py " ") with [32].
  rewrite <- blanks_sub_runs, <- space_newline_sub_runs.
  set (s1 := sub RE_BLANKS [32] t). set (s2 := sub RE_SPACE_NEWLINE [10] s1).
  destruct (strip_spec s2) as (l & r & E & Hl & Hr & Hhead & Hlast).
  assert (forallb (fun c => negb (c =? 9)) s2 = true) as Htab
    by apply space_newline_sub_no_tab, blanks_sub_no_tab.
  assert (no_pair both_blank s2 = true) as Hbb
    by apply space_newline_sub_blank_pairs, blanks_sub_pairs.
  assert (no_pair space_then_newline s2 = true) as Hsn
    by apply space_newline_sub_pairs.
  split_and!; [by exists l, r| | | |exact Hhead|exact Hlast| |by vm_compute|by vm_compute].
  - intros Hin. rewrite E, !forallb_app in Htab.
    apply andb_prop in Htab as [_ Htab]. apply andb_prop in Htab as [Htab _].
    rewrite forallb_forall in Htab. by apply Htab in Hin.
  - intros pre post E'. rewrite E' in E.
    assert (s2 = (l ++ pre) ++ 32 :: 32 :: post ++ r) as E2
      by (rewrite E, <- !app_assoc; done).
    by pose proof (no_pair_spec _ _ _ _ _ _ Hbb E2).
  - intros pre a post E'. rewrite E' in E.
    assert (s2 = (l ++ pre) ++ a :: 10 :: post ++ r) as E2
      by (rewrite E, <- !app_assoc; done).
    pose proof (no_pair_spec _ _ _ _ _ _ Hsn E2) as H.
    unfold space_then_newline in H. simpl in H. by rewrite andb_true_r in H.
  - transitivity (List.filter visible s2).
    + rewrite E at 2. rewrite filter_all_space; auto.
      rewrite List.filter_app.
      replace (List.filter visible r) with (@nil N); [by rewrite app_nil_r|].
      symmetry. rewrite <- (app_nil_r r). by rewrite filter_all_space.
    + unfold s2, s1. by rewrite space_newline_sub_visible, blanks_sub_visible.
Qed.

(** C8 as the specification states it fails: the two newlines of its
    input do not both survive, because [\s] also matches a newline. *)
Lemma clean_text_merges_newlines :
  clean_text (py "a   b\t\tc \n\n d") = py "a b c\n d"
  /\ count_occ N.eq_dec (py "a   b\t\tc \n\n d") 10 = 2%nat
  /\ count_occ N.eq_dec (clean_text (py "a   b\t\tc \n\n d")) 10 = 1%nat.
Proof. by vm_compute. Qed.

End CleanText.

(** ** The date of a title *)

Section TitleDate.
Import Spec.

Lemma decimal_ascii k : k < 10 -> decimal (48 + k) = Some k.
Proof.
  intros H. unfold decimal, Nd_zeros. cbn [List.find].
  replace ((48 <=? 48 + k) && (48 + k <? 48 + 10)) with true.
  - f_equal. lia.
  - symmetry. apply andb_true_intro. split; [apply N.leb_le|apply N.ltb_lt]; lia.
Qed.

Lemma dot_or_dash_not_decimal c : is_dot_or_dash c = true -> isdecimal c = false.
Proof.
  unfold is_dot_or_dash. intros H.
  apply orb_prop in H as [H|H]; apply N.eqb_eq in H; subst; reflexivity.
Qed.

Lemma int_from_value w : forall acc,
  forallb isdecimal w = true ->
  int_from acc w =
  Some (fold_left (fun a c => a * 10 + match decimal c with Some d => d | None => 0 end) w acc).
Proof.
  induction w as [|c w IH]; intros acc H; simpl in *; auto.
  apply andb_prop in H as [Hc H]. unfold isdecimal in Hc.
  destruct (decimal c) as [d|]; [|discriminate]. by apply IH.
Qed.

(** [int] reads a string of digits as its decimal value. *)
Lemma int_digits w :
  forallb isdecimal w = true -> (1 <= length w)%nat -> int w = Some (dec_value w).
Proof.
  intros H L. destruct w as [|c w]; [simpl in L; lia|].
  unfold int, dec_value. by apply int_from_value.
Qed.

Lemma fold_value_app w : forall v acc,
  fold_left (fun a c => a * 10 + match decimal c with Some d => d | None => 0 end) (v ++ w) acc =
  fold_left (fun a c => a * 10 + match decimal c with Some d => d | None => 0 end) w
    (fold_left (fun a c => a * 10 + match decimal c with Some d => d | None => 0 end) v acc).
Proof. intros v acc. apply fold_left_app. Qed.

(** Prefixing "20" to two digits adds 2000. *)
Lemma int_year yy :
  forallb isdecimal yy = true -> (2 <= length yy <= 4)%nat ->
  int (if (length yy =? 2)%nat then py "20" ++ yy else yy) = Some (year_of yy).
Proof.
  intros H L. unfold year_of. destruct (length yy =? 2)%nat eqn:E.
  - apply Nat.eqb_eq in E. destruct yy as [|a [|b [|c yy]]]; simpl in E; try lia.
    change (py "20" ++ [a; b]) with [50; 48; a; b].
    rewrite int_digits; [|simpl in *; exact H|simpl; lia].
    f_equal. unfold dec_value. simpl. lia.
  - apply int_digits; auto. lia.
Qed.

(** *** The pattern against the shape of a date *)

Lemma date_complete s dd s1 mm s2 yy post :
  date_shaped dd s1 mm s2 yy -> s = date_text dd s1 mm s2 yy ++ post ->
  is_Some (match_at RE_DATE s).
Proof.
  intros (Hd & Ld & H1 & Hm & Lm & H2 & Hy & Ly) ->.
  eapply match_at_complete with (caps := [dd; mm; yy]). unfold RE_DATE, date_text.
  apply (M_Cat _ _ [] dd [dd] _ [dd; mm; yy]).
  { apply (M_Grp _ [] dd []). constructor; auto; [lia|]. intros h [= <-]. lia. }
  apply (M_Cat _ _ [dd] [s1] [dd] _ [dd; mm; yy]); [by constructor|].
  apply (M_Cat _ _ [dd] mm [dd; mm] _ [dd; mm; yy]).
  { apply (M_Grp _ [dd] mm [dd]). constructor; auto; [lia|]. intros h [= <-]. lia. }
  apply (M_Cat _ _ [dd; mm] [s2] [dd; mm] yy [dd; mm; yy]); [by constructor|].
  apply (M_Grp _ [dd; mm] yy [dd; mm]). constructor; auto; [lia|]. intros h [= <-]. lia.
Qed.

(** What a match of the pattern is: the text of a date, its groups, and a
    year that took every digit it could. *)
Lemma date_match_inv s caps n :
  match_at RE_DATE s = Some (caps, n) ->
  exists dd s1 mm s2 yy post,
    s = date_text dd s1 mm s2 yy ++ post /\ date_shaped dd s1 mm s2 yy
    /\ year_complete yy post /\ caps = [dd; mm; yy]
    /\ n = length (date_text dd s1 mm s2 yy).
Proof.
  unfold match_at, RE_DATE. intros H.
  apply run_Cat_sound in H as (dd & r1 & c1 & E1 & M1 & H).
  apply matches_Grp_Rep in M1 as (Hd & Ld & Ud & ->).
  apply run_Cat_sound in H as (w1 & r2 & c2 & -> & M2 & H).
  apply matches_Chr in M2 as (s1 & -> & H1 & ->).
  apply run_Cat_sound in H as (mm & r3 & c3 & -> & M3 & H).
  apply matches_Grp_Rep in M3 as (Hm & Lm & Um & ->).
  apply run_Cat_sound in H as (w2 & r4 & c4 & -> & M4 & H).
  apply matches_Chr in M4 as (s2 & -> & H2 & ->).
  simpl in H.
  apply rep_greedy in H as (yy & post & -> & Hy & Ly & Uy & Hk & Hmax).
  rewrite take_matched in Hk. injection Hk as <- <-.
  specialize (Ud _ eq_refl). specialize (Um _ eq_refl). specialize (Uy _ eq_refl).
  exists dd, s1, mm, s2, yy, post. subst s. unfold date_text.
  split_and!.
  - by assoc.
  - unfold date_shaped. split_and!; auto.
  - destruct (decide (length yy = 4%nat)) as [|Hne]; [by left|right].
    intros c r ->. destruct (isdecimal c) eqn:Hc; [|done].
    specialize (Hmax (yy ++ [c]) r). rewrite <- app_assoc in Hmax.
    discriminate Hmax; auto.
    + rewrite forallb_app, Hy. simpl. by rewrite Hc.
    + rewrite length_app. simpl. lia.
    + intros h [= <-]. rewrite length_app. simpl. lia.
  - done.
  - lens. lia.
Qed.

Lemma digits_then_other (p : char -> bool) (a b : str) x y (r r' : str) :
  forallb p a = true -> forallb p b = true -> p x = false -> p y = false ->
  a ++ x :: r = b ++ y :: r' -> a = b /\ x = y /\ r = r'.
Proof.
  revert b. induction a as [|c a IH]; intros [|d b] Ha Hb Hx Hy E; simpl in *.
  - by injection E as -> ->.
  - injection E as -> _. apply andb_prop in Hb as [Hb _]. congruence.
  - injection E as -> _. apply andb_prop in Ha as [Ha _]. congruence.
  - injection E as -> E. apply andb_prop in Ha as [_ Ha]. apply andb_prop in Hb as [_ Hb].
    destruct (IH b Ha Hb Hx Hy E) as (-> & -> & ->). done.
Qed.

Lemma year_unique yy post yy' post' :
  forallb isdecimal yy = true -> forallb isdecimal yy' = true ->
  (length yy <= 4)%nat -> (length yy' <= 4)%nat ->
  year_complete yy post -> year_complete yy' post' ->
  yy ++ post = yy' ++ post' -> yy = yy'.
Proof.
  assert (forall a r b r', forallb isdecimal a = true -> (length a <= 4)%nat ->
            year_complete b r' -> forall k, a = b ++ k -> r' = k ++ r -> a = b) as Half.
  { intros a r b r' Ha La Cb [|c k] -> ->; [by rewrite app_nil_r|].
    exfalso. rewrite forallb_app in Ha. simpl in Ha.
    apply andb_prop in Ha as [_ Ha]. apply andb_prop in Ha as [Hc _].
    rewrite length_app in La. simpl in La.
    destruct Cb as [L|Hnd]; [lia|]. specialize (Hnd c (k ++ r) eq_refl). congruence. }
  intros Hy Hy' L L' C C' E.
  apply app_eq_inv in E as [(k & E1 & E2)|(k & E1 & E2)].
  - by eapply (Half yy post yy' post').
  - symmetry. by eapply (Half yy' post' yy post).
Qed.

(** The groups of the match at the start of the text of a date. *)
Lemma date_match_at s dd s1 mm s2 yy post :
  date_shaped dd s1 mm s2 yy -> year_complete yy post ->
  s = date_text dd s1 mm s2 yy ++ post ->
  match_at RE_DATE s = Some ([dd; mm; yy], length (date_text dd s1 mm s2 yy)).
Proof.
  intros Hs C E. destruct (date_complete _ _ _ _ _ _ _ Hs E) as [[caps n] H].
  rewrite H. destruct (date_match_inv _ _ _ H)
    as (dd' & s1' & mm' & s2' & yy' & post' & E' & Hs' & C' & -> & ->).
  destruct Hs as (Hd & Ld & H1 & Hm & Lm & H2 & Hy & Ly).
  destruct Hs' as (Hd' & Ld' & H1' & Hm' & Lm' & H2' & Hy' & Ly').
  rewrite E in E'. unfold date_text in E'.
  repeat first [rewrite <- app_assoc in E' | progress simpl in E'].
  apply digits_then_other with (p := isdecimal) in E' as (<- & <- & E');
    auto using dot_or_dash_not_decimal.
  apply digits_then_other with (p := isdecimal) in E' as (<- & <- & E');
    auto using dot_or_dash_not_decimal.
  apply year_unique in E' as <-; auto; lia.
Qed.

(** *** The date of a title from its first date *)

(** The first date decides the slug: the year group of two digits counts
    from 2000, any other as it stands. *)
Lemma title_date_slug_first t dd mm yy :
  first_date t dd mm yy ->
  title_date_slug t = slug_of (year_of yy) (dec_value mm) (dec_value dd).
Proof.
  intros (pre & s1 & s2 & post & -> & Hs & C & Hmin).
  unfold title_date_slug.
  rewrite (search_first RE_DATE _ (length pre) [dd; mm; yy]
             (length (date_text dd s1 mm s2 yy))).
  - destruct Hs as (Hd & Ld & H1 & Hm & Lm & H2 & Hy & Ly).
    rewrite int_year, !int_digits by (auto; lia).
    unfold datetime, slug_of. by destruct (valid_date _ _ _).
  - rewrite length_app. lia.
  - rewrite drop_app_length. by eapply date_match_at.
  - intros j Hj. destruct (match_at RE_DATE _) as [[caps n]|] eqn:E; [|done].
    exfalso. apply (Hmin j Hj).
    apply date_match_inv in E
      as (dd' & s1' & mm' & s2' & yy' & post' & E' & Hs' & _).
    by exists dd', s1', mm', s2', yy', post'.
Qed.

(** A title without the text of a date has no slug. *)
Lemma title_date_slug_none t :
  (forall i, ~ date_at t i) -> title_date_slug t = [].
Proof.
  intros Hno. unfold title_date_slug.
  destruct (search RE_DATE t) as [[[i caps] n]|] eqn:E; [|done].
  exfalso. apply search_Some in E as (_ & E & _). apply (Hno i).
  apply date_match_inv in E
    as (dd' & s1' & mm' & s2' & yy' & post' & E' & Hs' & _).
  by exists dd', s1', mm', s2', yy', post'.
Qed.

(** Every slug is empty or the ISO form of a date that [datetime] accepts. *)
Lemma title_date_slug_cases t :
  title_date_slug t = [] \/
  exists y m d, valid_date y m d = true /\
    title_date_slug t = isoformat {| year := y; month := m; day := d |}.
Proof.
  unfold title_date_slug.
  destruct (search RE_DATE t) as [[[i caps] n]|]; [|by left].
  destruct caps as [|dd [|mm [|yy [|]]]]; try by left.
  destruct (int _) as [y|]; [|by left].
  destruct (int mm) as [m|]; [|by left].
  destruct (int dd) as [d|]; [|by left].
  unfold datetime. destruct (valid_date y m d) eqn:V; [|by left].
  right. by exists y, m, d.
Qed.

(** *** The ISO form and [to_datetime] *)

Lemma ascii_digit_decimal c : is_ascii_digit c = true -> decimal c = Some (c - 48).
Proof.
  unfold is_ascii_digit. intros H. apply andb_prop in H as [H1 H2].
  apply N.leb_le in H1. apply N.leb_le in H2.
  replace c with (48 + (c - 48)) at 1 by lia. apply decimal_ascii. lia.
Qed.

Lemma ascii_digit_isdecimal w :
  forallb is_ascii_digit w = true -> forallb isdecimal w = true.
Proof.
  induction w as [|c w IH]; simpl; auto. intros H. apply andb_prop in H as [Hc H].
  unfold isdecimal at 1. rewrite (ascii_digit_decimal c Hc). simpl. auto.
Qed.

Lemma dec_value_snoc v c :
  dec_value (v ++ [c]) =
  dec_value v * 10 + match decimal c with Some d => d | None => 0 end.
Proof. unfold dec_value. by rewrite fold_left_app. Qed.

Lemma zero_padded_S w n :
  zero_padded (S w) n = zero_padded w (n / 10) ++ [48 + n mod 10].
Proof. reflexivity. Qed.

Lemma zero_padded_length w : forall n, length (zero_padded w n) = w.
Proof.
  induction w as [|w IH]; intros n; [done|].
  rewrite zero_padded_S, length_app, IH. simpl. lia.
Qed.

Lemma zero_padded_ascii w : forall n,
  forallb is_ascii_digit (zero_padded w n) = true.
Proof.
  induction w as [|w IH]; intros n; [done|].
  rewrite zero_padded_S, forallb_app, IH. simpl. rewrite andb_true_r.
  pose proof (N.mod_lt n 10 ltac:(lia)) as H.
  set (k := n mod 10) in *. clearbody k.
  unfold is_ascii_digit. apply andb_true_intro. split; apply N.leb_le; lia.
Qed.

(** Writing then reading a number of at most [w] digits. *)
Lemma dec_value_zero_padded w : forall n,
  n < 10 ^ N.of_nat w -> dec_value (zero_padded w n) = n.
Proof.
  induction w as [|w IH]; intros n H.
  - simpl in H. unfold zero_padded, dec_value. simpl. lia.
  - rewrite zero_padded_S, dec_value_snoc, IH.
    + pose proof (N.mod_lt n 10 ltac:(lia)) as Hlt.
      rewrite decimal_ascii by done. pose proof (N.div_mod' n 10) as Hdm.
      set (k := n mod 10) in *. set (q := n / 10) in *. clearbody k q. lia.
    + rewrite Nat2N.inj_succ, N.pow_succ_r' in H.
      apply N.Div0.div_lt_upper_bound. lia.
Qed.

(** Reading then writing a string of ASCII digits. *)
Lemma zero_padded_dec_value ds :
  forallb is_ascii_digit ds = true -> zero_padded (length ds) (dec_value ds) = ds.
Proof.
  induction ds as [|c v IH] using rev_ind; [done|].
  rewrite forallb_app. simpl. rewrite andb_true_r. intros H.
  apply andb_prop in H as [Hv Hc].
  rewrite length_app. simpl. rewrite Nat.add_1_r, zero_padded_S, dec_value_snoc.
  rewrite (ascii_digit_decimal c Hc).
  unfold is_ascii_digit in Hc. apply andb_prop in Hc as [H1 H2].
  apply N.leb_le in H1. apply N.leb_le in H2.
  assert ((dec_value v * 10 + (c - 48)) / 10 = dec_value v) as ->.
  { symmetry. apply (N.div_unique _ 10 _ (c - 48)); lia. }
  assert ((dec_value v * 10 + (c - 48)) mod 10 = c - 48) as ->.
  { symmetry. apply (N.mod_unique _ 10 (dec_value v)); lia. }
  rewrite IH by done. f_equal. f_equal. lia.
Qed.

Lemma int_zero_padded w n :
  (1 <= w)%nat -> n < 10 ^ N.of_nat w -> int (zero_padded w n) = Some n.
Proof.
  intros Hw H. rewrite int_digits.
  - by rewrite dec_value_zero_padded.
  - apply ascii_digit_isdecimal, zero_padded_ascii.
  - by rewrite zero_padded_length.
Qed.

Lemma valid_date_bounds y m d :
  valid_date y m d = true -> y < 10 ^ 4 /\ m < 10 ^ 2 /\ d < 10 ^ 2.
Proof.
  unfold valid_date. intros H.
  repeat (apply andb_prop in H as [H ?]).
  repeat match goal with H : (_ <=? _) = true |- _ => apply N.leb_le in H end.
  assert (days_in_month y m <= 31).
  { unfold days_in_month.
    destruct (m =? 2); [destruct (is_leap y)|destruct (mem m _)]; lia. }
  simpl. lia.
Qed.

(** [pd.to_datetime] reads back what [isoformat] wrote. *)
Lemma to_datetime_isoformat y m d :
  valid_date y m d = true ->
  to_datetime (isoformat {| year := y; month := m; day := d |})
  = Some {| year := y; month := m; day := d |}.
Proof.
  intros V. destruct (valid_date_bounds y m d V) as (Hy & Hm & Hd).
  unfold isoformat. cbn [year month day].
  pose proof (zero_padded_length 4 y) as Ly. pose proof (zero_padded_ascii 4 y) as Ay.
  pose proof (int_zero_padded 4 y ltac:(lia) Hy) as Iy.
  pose proof (zero_padded_length 2 m) as Lm. pose proof (zero_padded_ascii 2 m) as Am.
  pose proof (int_zero_padded 2 m ltac:(lia) Hm) as Im.
  pose proof (zero_padded_length 2 d) as Ld. pose proof (zero_padded_ascii 2 d) as Ad.
  pose proof (int_zero_padded 2 d ltac:(lia) Hd) as Id.
  destruct (zero_padded 4 y) as [|y1 [|y2 [|y3 [|y4 [|]]]]]; try discriminate.
  destruct (zero_padded 2 m) as [|m1 [|m2 [|]]]; try discriminate.
  destruct (zero_padded 2 d) as [|d1 [|d2 [|]]]; try discriminate.
  cbn [app]. unfold to_datetime. rewrite Iy, Im, Id.
  simpl in Ay, Am, Ad. rewrite !andb_true_r in Ay, Am, Ad.
  repeat match goal with H : _ && _ = true |- _ => apply andb_prop in H as [? ?] end.
  replace (forallb is_ascii_digit [y1; y2; y3; y4; m1; m2; d1; d2]) with true
    by (simpl; repeat match goal with H : is_ascii_digit _ = true |- _ => rewrite H; clear H end; done).
  simpl. unfold datetime. by rewrite V.
Qed.

(** What [pd.to_datetime] reads is the ISO form of a valid date. *)
Lemma to_datetime_inv s dt :
  to_datetime s = Some dt ->
  isoformat dt = s /\ valid_date (year dt) (month dt) (day dt) = true.
Proof.
  unfold to_datetime.
  destruct s as [|y1 [|y2 [|y3 [|y4 [|s1 [|m1 [|m2 [|s2 [|d1 [|d2 [|]]]]]]]]]]];
    try discriminate.
  destruct ((s1 =? 45) && (s2 =? 45)) eqn:Hs; [|discriminate].
  destruct (forallb is_ascii_digit _) eqn:Ha; [|discriminate]. cbn [andb].
  apply andb_prop in Hs as [H1 H2]. apply N.eqb_eq in H1 as ->. apply N.eqb_eq in H2 as ->.
  simpl in Ha. rewrite andb_true_r in Ha.
  repeat match goal with H : _ && _ = true |- _ => apply andb_prop in H as [? ?] end.
  assert (forallb is_ascii_digit [y1; y2; y3; y4] = true) as Ay
    by (simpl; repeat match goal with H : is_ascii_digit _ = true |- _ => rewrite H; clear H end; done).
  assert (forallb is_ascii_digit [m1; m2] = true) as Am
    by (simpl; repeat match goal with H : is_ascii_digit _ = true |- _ => rewrite H; clear H end; done).
  assert (forallb is_ascii_digit [d1; d2] = true) as Ad
    by (simpl; repeat match goal with H : is_ascii_digit _ = true |- _ => rewrite H; clear H end; done).
  rewrite (int_digits [y1; y2; y3; y4]), (int_digits [m1; m2]), (int_digits [d1; d2])
    by (auto using ascii_digit_isdecimal; simpl; lia).
  unfold datetime. destruct (valid_date _ _ _) eqn:V; [|discriminate].
  intros [= <-]. split; [|exact V]. unfold isoformat. cbn [year month day].
  pose proof (zero_padded_dec_value [y1; y2; y3; y4] Ay) as Ry.
  pose proof (zero_padded_dec_value [m1; m2] Am) as Rm.
  pose proof (zero_padded_dec_value [d1; d2] Ad) as Rd.
  cbn [length] in Ry, Rm, Rd. by rewrite Ry, Rm, Rd.
Qed.

(** *** Where the first date is *)

Lemma no_date_at_nondigit t j c r :
  drop j t = c :: r -> isdecimal c = false -> ~ date_at t j.
Proof.
  intros E Hc (dd & s1 & mm & s2 & yy & post & Hs & E').
  destruct Hs as (Hd & Ld & _). rewrite E in E'. unfold date_text in E'.
  destruct dd as [|c' dd]; [simpl in Ld; lia|]. simpl in E', Hd.
  injection E' as -> _. apply andb_prop in Hd as [Hd _]. congruence.
Qed.

Lemma no_date_at_no_match t j :
  match_at RE_DATE (drop j t) = None -> ~ date_at t j.
Proof.
  intros H (dd & s1 & mm & s2 & yy & post & Hs & E').
  destruct (date_complete _ _ _ _ _ _ _ Hs E') as [x Hx]. congruence.
Qed.

Lemma digit_free_no_date pre rest : forall j,
  digit_free pre = true -> (j < length pre)%nat -> ~ date_at (pre ++ rest) j.
Proof.
  induction pre as [|c pre IH]; intros j H L; simpl in *; [lia|].
  apply andb_prop in H as [Hc H]. apply negb_true_iff in Hc.
  destruct j as [|j].
  - by apply (no_date_at_nondigit _ 0 c (pre ++ rest)).
  - intros (dd & s1 & mm & s2 & yy & post & Hs & E'). simpl in E'.
    apply (IH j H ltac:(lia)). by exists dd, s1, mm, s2, yy, post.
Qed.

(** A title without a digit has no date. *)
Lemma digit_free_slug t : digit_free t = true -> title_date_slug t = [].
Proof.
  intros H. apply title_date_slug_none. intros i.
  destruct (decide (i < length t)%nat) as [L|L].
  - rewrite <- (app_nil_r t). by apply digit_free_no_date.
  - intros (dd & s1 & mm & s2 & yy & post & Hs & E').
    rewrite drop_ge in E' by lia. destruct Hs as (_ & Ld & _).
    destruct dd; [simpl in Ld; lia|discriminate].
Qed.

(** The text of a date is the first date of the title when the text
    before it is digit-free up to a stretch [mid] where the pattern has
    no match. *)
Lemma first_date_after pre mid dd s1 mm s2 yy post :
  digit_free pre = true ->
  (forall k, (k < length mid)%nat ->
     match_at RE_DATE (drop k (mid ++ date_text dd s1 mm s2 yy ++ post)) = None) ->
  date_shaped dd s1 mm s2 yy -> year_complete yy post ->
  first_date (pre ++ mid ++ date_text dd s1 mm s2 yy ++ post) dd mm yy.
Proof.
  intros Hp Hmid Hs C. exists (pre ++ mid), s1, s2, post.
  split_and!; auto; [by rewrite <- app_assoc|].
  intros j Hj. rewrite length_app in Hj.
  destruct (decide (j < length pre)%nat) as [L|L].
  - by apply digit_free_no_date.
  - apply no_date_at_no_match.
    replace j with (length pre + (j - length pre))%nat by lia.
    rewrite drop_app_add. apply Hmid. lia.
Qed.

End TitleDate.

(** C4, as amended.  The date of a title is read from the first text of
    the shape day, separator, month, separator, year, with one or two
    digits for day and month and two to four for the year; a year of two
    digits counts from 2000 and any other stands as written; no such text,
    or values that are no date of the calendar, give the empty slug, and a
    date gives its ISO form, the form [to_datetime] reads.  The examples
    of the specification hold after any digit-free beginning. *)
Theorem title_date_slug_spec :
  (forall t, (forall i, ~ Spec.date_at t i) -> title_date_slug t = [])
  /\ (forall t dd mm yy, Spec.first_date t dd mm yy ->
        title_date_slug t =
        Spec.slug_of (Spec.year_of yy) (Spec.dec_value mm) (Spec.dec_value dd))
  /\ (forall y m d, valid_date y m d = false -> Spec.slug_of y m d = [])
  /\ (forall y m d, valid_date y m d = true ->
        to_datetime (Spec.slug_of y m d) = Some {| year := y; month := m; day := d |})
  /\ (forall pre post, Spec.digit_free pre = true ->
        title_date_slug (pre ++ py "08:00 20.10.2025" ++ post) = py "2025-10-20")
  /\ (forall pre post, Spec.digit_free pre = true ->
        title_date_slug (pre ++ py "31.02.2025" ++ post) = [])
  /\ title_date_slug (py "no digits here") = []
  /\ (forall pre post, Spec.digit_free pre = true ->
        Spec.year_complete (py "25") post ->
        title_date_slug (pre ++ py "1.1.25" ++ post) = py "2025-01-01").
Proof.
  split_and!.
  - apply title_date_slug_none.
  - apply title_date_slug_first.
  - intros y m d V. unfold Spec.slug_of. by rewrite V.
  - intros y m d V. unfold Spec.slug_of. rewrite V. by apply to_datetime_isoformat.
  - intros pre post Hp.
    rewrite (title_date_slug_first _ (py "20") (py "10") (py "2025")); [by vm_compute|].
    apply (first_date_after pre (py "08:00 ") (py "20") 46 (py "10") 46 (py "2025") post Hp).
    + intros k Hk. do 6 (destruct k as [|k]; [reflexivity|]). simpl in Hk. lia.
    + unfold Spec.date_shaped. split_and!; try reflexivity; simpl; lia.
    + by left.
  - intros pre post Hp.
    rewrite (title_date_slug_first _ (py "31") (py "02") (py "2025")); [by vm_compute|].
    apply (first_date_after pre [] (py "31") 46 (py "02") 46 (py "2025") post Hp).
    + intros k Hk. simpl in Hk. lia.
    + unfold Spec.date_shaped. split_and!; try reflexivity; simpl; lia.
    + by left.
  - by apply digit_free_slug.
  - intros pre post Hp C.
    rewrite (title_date_slug_first _ (py "1") (py "1") (py "25")); [by vm_compute|].
    apply (first_date_after pre [] (py "1") 46 (py "1") 46 (py "25") post Hp).
    + intros k Hk. simpl in Hk. lia.
    + unfold Spec.date_shaped. split_and!; try reflexivity; simpl; lia.
    + exact C.
Qed.

(** C4 as the specification states it fails: the pattern of the code
    takes a year of three digits, where the pattern of two or four digits
    reads the year 20 in the same title. *)
Lemma year_of_three_digits_matched :
  Spec.first_groups RE_DATE (py "1.1.202") = Some (py "1", py "1", py "202")
  /\ Spec.first_groups Spec.RE_DATE_AS_SPECIFIED (py "1.1.202")
     = Some (py "1", py "1", py "20")
  /\ title_date_slug (py "1.1.202") = py "0202-01-01".
Proof. by vm_compute. Qed.

(** C10.  When the year group of the first date has three digits, the
    year is the number they write, without the prefix: the title
    [1.1.202] gets the slug [0202-01-01]. *)
Theorem three_digit_year_verbatim t dd mm yy :
  Spec.first_date t dd mm yy -> length yy = 3%nat ->
  title_date_slug t =
  Spec.slug_of (Spec.dec_value yy) (Spec.dec_value mm) (Spec.dec_value dd)
  /\ title_date_slug (py "1.1.202") = py "0202-01-01".
Proof.
  intros H L. split; [|by vm_compute].
  rewrite (title_date_slug_first t dd mm yy H). unfold Spec.year_of. by rewrite L.
Qed.

Lemma three_digit_year_verbatim_witness :
  title_date_slug (py "1.1.202") =
  Spec.slug_of (Spec.dec_value (py "202")) (Spec.dec_value (py "1"))
    (Spec.dec_value (py "1"))
  /\ title_date_slug (py "1.1.202") = py "0202-01-01".
Proof.
  apply (three_digit_year_verbatim (py "1.1.202") (py "1") (py "1") (py "202")).
  - exists [], 46, 46, []. split_and!.
    + reflexivity.
    + unfold Spec.date_shaped. split_and!; try reflexivity; simpl; lia.
    + right. intros c r E. discriminate E.
    + intros j Hj. simpl in Hj. lia.
  - reflexivity.
Defined.

Lemma title_date_slug_spec_witness :
  title_date_slug (py "Zvedennia 1.1.25") = py "2025-01-01".
Proof.
  apply (proj2 (proj2 (proj2 (proj2 (proj2 (proj2 (proj2 title_date_slug_spec))))))
           (py "Zvedennia ") []).
  - reflexivity.
  - right. intros c r E. discriminate E.
Defined.

(** ** [extract_article_text] *)

Section ArticleText.
Import Spec.

Lemma same_ignoring_case_b_true p : forall w,
  same_ignoring_case_b p w = true -> same_ignoring_case p w.
Proof.
  induction p as [|a p IH]; intros [|b w] H; simpl in H; try discriminate.
  - constructor.
  - apply andb_prop in H as [Hab H]. constructor; [done|by apply IH].
Qed.

Lemma lits_i_matches p : forall caps w caps',
  matches (lits_i p) caps w caps' <-> same_ignoring_case p w /\ caps' = caps.
Proof.
  induction p as [|a p IH]; intros caps w caps'; simpl; split.
  - intros M. inversion M; subst. split; [constructor|done].
  - intros [F ->]. inversion F; subst. constructor.
  - intros M. inversion M as [| |r1 r2 c0 w1 c1 w2 c2 M1 M2| | | |]; subst.
    apply matches_Chr in M1 as (c & -> & Hc & ->).
    apply IH in M2 as [F ->]. split; [by constructor|done].
  - intros [F ->]. inversion F as [|a' c p' w' Hc F']; subst.
    apply (M_Cat _ _ caps [c] caps w' caps); [by constructor|].
    apply IH. done.
Qed.

Lemma literal_group_matches (a b : str) (x : char) w :
  (exists caps,
     matches (Cat (lits_i a) (Cat (Grp (Alt (lit_i x) (lit_i x))) (lits_i b)))
       [] w caps)
  <-> same_ignoring_case (a ++ [x] ++ b) w.
Proof.
  split.
  - intros [caps M].
    inversion M as [| |r1 r2 c0 w1 c1 w23 c2 M1 M23| | | |]; subst.
    apply lits_i_matches in M1 as [F1 ->].
    inversion M23 as [| |r1 r2 c0 w2 c4 w3 c3 M2 M3| | | |]; subst.
    apply lits_i_matches in M3 as [F3 ->].
    assert (exists c, w2 = [c] /\ ci_eq x c = true) as (c & -> & Hc).
    { inversion M2 as [| | | | | |r c0 w0 c5 MA]; subst.
      inversion MA as [| | |r1 r2 c0 w0 c6 ML|r1 r2 c0 w0 c6 MR| |]; subst.
      - apply matches_Chr in ML as (c & -> & Hc & _). eauto.
      - apply matches_Chr in MR as (c & -> & Hc & _). eauto. }
    apply Forall2_app; [done|]. apply Forall2_app; [|done].
    by repeat constructor.
  - intros F. apply Forall2_app_inv_l in F as (w1 & w23 & F1 & F23 & ->).
    apply Forall2_app_inv_l in F23 as (w2 & w3 & F2 & F3 & ->).
    inversion F2 as [|a' c p' w' Hc F']; subst. inversion F'; subst.
    exists [[c]].
    apply (M_Cat _ _ [] w1 [] _ [[c]]); [by apply lits_i_matches|].
    apply (M_Cat _ _ [] [c] [[c]] w3 [[c]]); [|by apply lits_i_matches].
    apply (M_Grp _ [] [c] []). apply M_AltL. by constructor.
Qed.

(** The language of the pattern is the marker phrase in any case. *)
Lemma read_also_matches w :
  (exists caps, matches RE_READ_ALSO [] w caps) <-> same_ignoring_case READ_ALSO w.
Proof. apply (literal_group_matches (py "Чит") (py "йте також") 0x430). Qed.

Lemma marker_at_match txt i :
  marker_at txt i <-> is_Some (match_at RE_READ_ALSO (drop i txt)).
Proof.
  split.
  - intros (w & post & E & F). apply read_also_matches in F as [caps M].
    rewrite E. by eapply match_at_complete.
  - intros [[caps n] H]. apply match_at_sound in H as (w & post & E & M & _).
    exists w, post. split; [done|]. apply read_also_matches. eauto.
Qed.

Lemma marker_at_length txt i : marker_at txt i -> (i <= length txt)%nat.
Proof.
  intros (w & post & E & F). destruct (decide (i <= length txt)%nat); [done|].
  rewrite drop_ge in E by lia. symmetry in E. apply app_eq_nil in E as [-> _].
  apply Forall2_length in F. discriminate F.
Qed.

(** The cut of line 80: the text before the first marker. *)
Lemma split_read_also_first txt i :
  first_marker_at txt i -> hd [] (split RE_READ_ALSO txt) = take i txt.
Proof.
  intros [Hi Hmin]. pose proof (marker_at_length _ _ Hi) as L.
  apply marker_at_match in Hi as [[caps n] Hm].
  rewrite split_hd, (search_first RE_READ_ALSO txt i caps n L Hm); [done|].
  intros j Hj. destruct (match_at RE_READ_ALSO (drop j txt)) eqn:E; [|done].
  exfalso. apply (Hmin j Hj), marker_at_match. by rewrite E.
Qed.

Lemma split_read_also_none txt :
  (forall i, ~ marker_at txt i) -> hd [] (split RE_READ_ALSO txt) = txt.
Proof.
  intros Hno. rewrite split_hd.
  destruct (search RE_READ_ALSO txt) as [[[i caps] n]|] eqn:E; [|done].
  exfalso. apply search_Some in E as (_ & E & _).
  apply (Hno i), marker_at_match. by rewrite E.
Qed.

Lemma no_marker_at_no_match txt j :
  match_at RE_READ_ALSO (drop j txt) = None -> ~ marker_at txt j.
Proof. intros H M. apply marker_at_match in M as [x Hx]. congruence. Qed.

Lemma joined_text_cons h hs p ps :
  nonempty p = true ->
  exists rest,
    joined_text {| heading := h; article := None; main_p := p :: ps; a_href := hs |}
    = p ++ rest.
Proof.
  intros Hp. unfold joined_text. cbn [article main_p List.filter]. rewrite Hp.
  destruct (List.filter nonempty ps) as [|q qs]; simpl.
  - exists []. by rewrite app_nil_r.
  - by eexists.
Qed.

(** The two bodies of the example: the marker starts at position 19. *)
Lemma example_first_marker rest :
  first_marker_at (py "...preceding text. Читайте також: link text" ++ rest) 19.
Proof.
  split.
  - exists (py "Читайте також"), (py ": link text" ++ rest).
    split; [reflexivity|]. apply same_ignoring_case_b_true. by vm_compute.
  - intros j Hj. apply no_marker_at_no_match.
    do 19 (destruct j as [|j]; [reflexivity|]). lia.
Qed.

Lemma example_first_marker_capitals rest :
  first_marker_at (py "...preceding text. ЧИТАЙТЕ ТАКОЖ: link text" ++ rest) 19.
Proof.
  split.
  - exists (py "ЧИТАЙТЕ ТАКОЖ"), (py ": link text" ++ rest).
    split; [reflexivity|]. apply same_ignoring_case_b_true. by vm_compute.
  - intros j Hj. apply no_marker_at_no_match.
    do 19 (destruct j as [|j]; [reflexivity|]). lia.
Qed.

Lemma extract_article_text_first soup i :
  first_marker_at (joined_text soup) i ->
  extract_article_text soup = clean_text (take i (joined_text soup)).
Proof.
  intros H. unfold extract_article_text. fold (joined_text soup).
  by rewrite (split_read_also_first _ _ H).
Qed.

End ArticleText.

(** C7.  When the joined text of the paragraphs has the marker phrase, in
    any case of its letters, the body is the text before the first
    marker, cleaned; without a marker it is the whole text, cleaned.  The
    body of the example, with the marker in small or in capital letters,
    ends at [preceding text.]. *)
Theorem extract_article_text_cut (soup : Soup) (i : nat) :
  Spec.first_marker_at (Spec.joined_text soup) i ->
  extract_article_text soup = clean_text (take i (Spec.joined_text soup))
  /\ (forall soup', (forall j, ~ Spec.marker_at (Spec.joined_text soup') j) ->
        extract_article_text soup' = clean_text (Spec.joined_text soup'))
  /\ (forall h ps hs,
        extract_article_text
          {| heading := h; article := None; a_href := hs;
             main_p := py "...preceding text. Читайте також: link text" :: ps |}
        = py "...preceding text.")
  /\ (forall h ps hs,
        extract_article_text
          {| heading := h; article := None; a_href := hs;
             main_p := py "...preceding text. ЧИТАЙТЕ ТАКОЖ: link text" :: ps |}
        = py "...preceding text.").
Proof.
  intros H. split_and!.
  - by apply extract_article_text_first.
  - intros soup' Hno. unfold extract_article_text. fold (Spec.joined_text soup').
    by rewrite (split_read_also_none _ Hno).
  - intros h ps hs.
    destruct (joined_text_cons h hs
                (py "...preceding text. Читайте також: link text") ps eq_refl)
      as [rest E].
    rewrite (extract_article_text_first _ 19); rewrite E;
      [by vm_compute|apply example_first_marker].
  - intros h ps hs.
    destruct (joined_text_cons h hs
                (py "...preceding text. ЧИТАЙТЕ ТАКОЖ: link text") ps eq_refl)
      as [rest E].
    rewrite (extract_article_text_first _ 19); rewrite E;
      [by vm_compute|apply example_first_marker_capitals].
Qed.

Lemma extract_article_text_cut_witness :
  extract_article_text
    {| heading := None; article := Some [py "Zvedennia."; py "Читайте також: inshe"];
       main_p := []; a_href := [] |}
  = py "Zvedennia.".
Proof.
  pose proof (extract_article_text_cut
    {| heading := None; article := Some [py "Zvedennia."; py "Читайте також: inshe"];
       main_p := []; a_href := [] |} 11) as H.
  destruct H as [H _].
  - split.
    + exists (py "Читайте також"), (py ": inshe").
      split; [reflexivity|]. apply same_ignoring_case_b_true. by vm_compute.
    + intros j Hj. apply no_marker_at_no_match.
      do 11 (destruct j as [|j]; [reflexivity|]). lia.
  - rewrite H. reflexivity.
Defined.

(** ** Keeping the first of each key *)

Lemma filter_all {A} (P : A -> Prop) `{!forall x, Decision (P x)} (l : list A) :
  (forall x, x ∈ l -> P x) -> filter P l = l.
Proof.
  induction l as [|x l IH]; intros Hall; [done|].
  rewrite filter_cons_True by (apply Hall; by left).
  f_equal. apply IH. intros y Hy. apply Hall. by right.
Qed.

Section FirstBy.
Import Spec.
Context {A : Type} (key : A -> list N).

(** The step of the two loops that keep a set of the keys seen. *)
Definition keep_new (acc : gset (list N) * list A) (r : A) : gset (list N) * list A :=
  let (seen, out) := acc in
  if decide (key r ∈ seen) then acc else ({[key r]} ∪ seen, out ++ [r]).

Lemma foldl_keep_new l : forall seen out,
  (forall k, k ∈ seen <-> k ∈ map key out) ->
  snd (foldl keep_new (seen, out) l)
  = out ++ filter (fun y => key y ∉ map key out) (first_by key l).
Proof.
  induction l as [|x r IH]; intros seen out Hinv; simpl.
  - by rewrite app_nil_r.
  - destruct (decide (key x ∈ seen)) as [Hin|Hin].
    + rewrite (IH seen out Hinv). f_equal.
      rewrite filter_cons_False by (intros Hn; apply Hn, Hinv, Hin).
      rewrite list_filter_filter. apply list_filter_iff. intros y. split; [|tauto].
      intros Hy. split; [done|]. intros E. apply Hy. rewrite E. by apply Hinv.
    + rewrite (IH _ (out ++ [x])).
      * rewrite <- app_assoc. f_equal. simpl.
        rewrite filter_cons_True by (intros Hn; apply Hin, Hinv, Hn). f_equal.
        rewrite list_filter_filter. apply list_filter_iff. intros y.
        rewrite map_app, not_elem_of_app. simpl. rewrite list_elem_of_singleton. tauto.
      * intros k. rewrite map_app, elem_of_app, elem_of_union, elem_of_singleton.
        simpl. rewrite list_elem_of_singleton. rewrite Hinv. tauto.
Qed.

Lemma fold_keep_new_first l :
  snd (foldl keep_new (∅, []) l) = first_by key l.
Proof.
  rewrite foldl_keep_new by (intros k; simpl; rewrite elem_of_nil; set_solver).
  simpl. apply filter_all. intros y _. apply not_elem_of_nil.
Qed.

Lemma first_by_elem l r : r ∈ first_by key l -> r ∈ l.
Proof.
  induction l as [|x l IH]; simpl; [done|].
  rewrite !elem_of_cons, list_elem_of_filter. tauto.
Qed.

Lemma first_by_keys l r : r ∈ l -> exists r', r' ∈ first_by key l /\ key r' = key r.
Proof.
  induction l as [|x l IH]; simpl; [by rewrite elem_of_nil|].
  rewrite elem_of_cons. intros [->|Hin].
  - exists x. split; [by left|done].
  - destruct (IH Hin) as (r' & Hr' & E).
    destruct (decide (key r' = key x)) as [Ex|Ex].
    + exists x. split; [by left|congruence].
    + exists r'. split; [|done]. right. by apply list_elem_of_filter.
Qed.

Lemma first_by_NoDup l : NoDup (map key (first_by key l)).
Proof.
  induction l as [|x l IH]; simpl; [constructor|].
  apply NoDup_cons. split.
  - rewrite list_elem_of_fmap. intros (y & E & Hy).
    apply list_elem_of_filter in Hy as [Hy _]. congruence.
  - apply (sublist_NoDup _ (map key (first_by key l))); [exact IH|].
    apply (fmap_sublist key), sublist_filter.
Qed.

Lemma first_by_sublist l : sublist (first_by key l) l.
Proof.
  induction l as [|x l IH]; simpl; [constructor|].
  apply sublist_skip. etrans; [apply sublist_filter|exact IH].
Qed.

(** The rows kept are those that no row of the same key precedes. *)
Lemma first_by_spec l r :
  r ∈ first_by key l <->
  exists i, l !! i = Some r /\
    forall j r', (j < i)%nat -> l !! j = Some r' -> key r' <> key r.
Proof.
  induction l as [|x l IH]; simpl.
  - rewrite elem_of_nil. split; [done|]. intros (i & Hi & _). by destruct i.
  - rewrite elem_of_cons, list_elem_of_filter, IH. split.
    + intros [->|(Hne & i & Hi & Hmin)].
      * exists O. split; [done|]. intros; lia.
      * exists (S i). split; [done|]. intros [|j] r' Hj Hr'; simpl in Hr'.
        -- injection Hr' as <-. congruence.
        -- apply (Hmin j); [lia|done].
    + intros ([|i] & Hi & Hmin); simpl in Hi.
      * injection Hi as ->. by left.
      * right. split.
        -- intros E. by apply (Hmin O x ltac:(lia) eq_refl).
        -- exists i. split; [done|]. intros j r' Hj Hr'. apply (Hmin (S j)); [lia|done].
Qed.

(** A list that is already the first of each key stays as it is. *)
Lemma first_by_id l : NoDup (map key l) -> first_by key l = l.
Proof.
  induction l as [|x l IH]; simpl; [done|].
  rewrite NoDup_cons. intros [Hx Hl]. rewrite (IH Hl). f_equal.
  apply filter_all. intros y Hy E. apply Hx. rewrite <- E.
  apply list_elem_of_fmap. eauto.
Qed.

End FirstBy.

(** ** [find_prev_day_links] *)

Section Links.
Import Spec.

Lemma startswith_spec p : forall s, startswith p s = true <-> exists b, s = p ++ b.
Proof.
  induction p as [|a p IH]; intros s; simpl.
  - split; [intros _; by exists s|done].
  - destruct s as [|c s]; simpl.
    + split; [done|]. intros (b & E). discriminate E.
    + rewrite andb_true_iff, N.eqb_eq, IH. split.
      * intros (-> & b & ->). by exists b.
      * intros (b & E). injection E as -> ->. eauto.
Qed.

(** [in] is the test for a substring. *)
Lemma contains_spec p : forall s, contains p s = true <-> substring p s.
Proof.
  induction s as [|c s IH]; simpl.
  - rewrite orb_false_r, startswith_spec. split.
    + intros (b & E). exists [], b. done.
    + intros (a & b & E). symmetry in E. apply app_eq_nil in E as (-> & E).
      apply app_eq_nil in E as (-> & ->). by exists [].
  - rewrite orb_true_iff, startswith_spec, IH. split.
    + intros [(b & ->)|(a & b & ->)]; [by exists [], b|by exists (c :: a), b].
    + intros ([|c' a] & b & E); simpl in E.
      * left. by exists b.
      * right. injection E as -> ->. by exists a, b.
Qed.

Lemma foldl_collect {B} (f : B -> bool) (g : B -> str) l : forall acc,
  foldl (fun links href => if f href then links ++ [g href] else links) acc l
  = acc ++ map g (List.filter f l).
Proof.
  induction l as [|x l IH]; intros acc; simpl; [by rewrite app_nil_r|].
  rewrite IH. destruct (f x); [|done]. by rewrite <- app_assoc.
Qed.

Lemma unique_first l : unique l = first_occurrences l.
Proof. exact (fold_keep_new_first id l). Qed.

Lemma find_prev_day_links_eq resolve soup base :
  find_prev_day_links resolve soup base
  = first_occurrences
      (map (urljoin resolve base) (List.filter href_has_slugs (a_href soup))).
Proof.
  unfold find_prev_day_links.
  rewrite (foldl_collect href_has_slugs (urljoin resolve base)). apply unique_first.
Qed.

(** The first loop with a [urljoin] that can raise: the links so far,
    then the resolved hrefs, or the exception. *)
Lemma foldl_collect_raised (f : str -> bool) (g : str -> option str) l :
  foldl (fun (links : option (list str)) href =>
           match links with
           | Some links =>
               if f href then
                 match g href with
                 | Some u => Some (links ++ [u])
                 | None => None
                 end
               else Some links
           | None => None
           end) None l = None.
Proof. by induction l. Qed.

Lemma foldl_collect_raising (f : str -> bool) (g : str -> option str) l :
  forall acc,
  foldl (fun (links : option (list str)) href =>
           match links with
           | Some links =>
               if f href then
                 match g href with
                 | Some u => Some (links ++ [u])
                 | None => None
                 end
               else Some links
           | None => None
           end) (Some acc) l
  = (fun ks => acc ++ ks) <$> mapM g (List.filter f l).
Proof.
  induction l as [|x l IH]; intros acc; simpl; [by rewrite app_nil_r|].
  destruct (f x); [|apply IH]. cbn [mapM]. destruct (g x) as [u|]; simpl.
  - rewrite IH. destruct (mapM g (List.filter f l)) as [ks|]; simpl; [|done].
    by rewrite <- app_assoc.
  - apply foldl_collect_raised.
Qed.

Lemma raising_links_eq resolve soup base :
  Raising.find_prev_day_links resolve soup base
  = first_occurrences
      <$> mapM (Raising.urljoin resolve base) (List.filter href_has_slugs (a_href soup)).
Proof.
  unfold Raising.find_prev_day_links.
  rewrite (foldl_collect_raising href_has_slugs (Raising.urljoin resolve base)).
  destruct (mapM _ _) as [ks|]; simpl; [|done]. by rewrite unique_first.
Qed.

Lemma has_slugs_spec href :
  href_has_slugs href = true
  <-> substring SLUG_DAILY href /\ substring SLUG_INVASION href.
Proof.
  unfold href_has_slugs. rewrite andb_true_iff.
  split; intros [H1 H2].
  - split; [exact (proj1 (contains_spec _ _) H1)|exact (proj1 (contains_spec _ _) H2)].
  - split; [exact (proj2 (contains_spec _ _) H1)|exact (proj2 (contains_spec _ _) H2)].
Qed.

Lemma urljoin_returning (total : str -> str -> str) base href :
  Raising.urljoin (fun b r => Some (total b r)) base href
  = Some (urljoin total base href).
Proof. unfold Raising.urljoin, urljoin. by destruct base, href. Qed.

End Links.

(** C6, as amended.  The anchors whose [href] attribute, as the page
    writes it, has both fragments are resolved against the url of the
    page in the order of the document.  When [urljoin] raises on one of
    them the extraction raises and returns nothing; otherwise it returns
    the resolved urls, of equal ones the first, in that order.  With a
    [urljoin] that never raises this is [Scrap.find_prev_day_links]; a
    reference with both fragments that opens a bracket in its authority
    makes it raise. *)
Theorem find_prev_day_links_spec resolve soup base :
  let hrefs := List.filter Spec.href_has_slugs (a_href soup) in
  Raising.find_prev_day_links resolve soup base
  = Spec.first_occurrences <$> mapM (Raising.urljoin resolve base) hrefs
  /\ (Raising.find_prev_day_links resolve soup base = None <->
      exists href, href ∈ a_href soup /\ Spec.substring SLUG_DAILY href
        /\ Spec.substring SLUG_INVASION href
        /\ Raising.urljoin resolve base href = None)
  /\ (forall out, Raising.find_prev_day_links resolve soup base = Some out ->
      exists links,
        Forall2 (fun href u => Raising.urljoin resolve base href = Some u) hrefs links
        /\ out = Spec.first_occurrences links
        /\ NoDup out /\ sublist out links
        /\ forall u, u ∈ out <->
             exists href, href ∈ a_href soup /\ Spec.substring SLUG_DAILY href
               /\ Spec.substring SLUG_INVASION href
               /\ Raising.urljoin resolve base href = Some u)
  /\ (forall total,
        Raising.find_prev_day_links (fun b r => Some (total b r)) soup base
        = Some (find_prev_day_links total soup base))
  /\ Raising.find_prev_day_links Faults.strict
       {| heading := None; article := None; main_p := [];
          a_href := [Faults.BRACKET_HREF] |} START_URL = None.
Proof.
  intros hrefs. rewrite !raising_links_eq. fold hrefs. split_and!.
  - done.
  - rewrite fmap_None. split.
    + intros Hn. apply mapM_None_1, Exists_exists in Hn as (href & Hin & Hn).
      unfold hrefs in Hin.
      apply list_elem_of_In, filter_In in Hin as [Hin Hs].
      apply has_slugs_spec in Hs as [H1 H2].
      exists href. split_and!; [by apply list_elem_of_In|assumption..].
    + intros (href & Hin & H1 & H2 & Hn). apply mapM_None_2, Exists_exists.
      exists href. split; [|assumption].
      apply list_elem_of_In, filter_In. split; [by apply list_elem_of_In|].
      apply has_slugs_spec. split; assumption.
  - intros out Ho. apply fmap_Some in Ho as (links & Hm & ->).
    apply mapM_Some in Hm. exists links. unfold Spec.first_occurrences.
    split_and!; [done|done| | |].
    + pose proof (first_by_NoDup id links) as H. by rewrite list_fmap_id in H.
    + apply first_by_sublist.
    + intros u. split.
      * intros Hu. apply first_by_elem in Hu.
        destruct (proj1 (list_elem_of_lookup links u) Hu) as [i Hi].
        destruct (Forall2_lookup_r _ _ _ _ _ Hm Hi) as (href & Hh & Hr).
        assert (href ∈ hrefs) as Hin by (by apply list_elem_of_lookup; exists i).
        apply list_elem_of_In, filter_In in Hin as [Hin Hs].
        apply has_slugs_spec in Hs as [H1 H2].
        exists href. split_and!; [by apply list_elem_of_In|assumption..].
      * intros (href & Hin & H1 & H2 & Hr).
        assert (href ∈ hrefs) as Hh.
        { apply list_elem_of_In, filter_In. split; [by apply list_elem_of_In|].
          apply has_slugs_spec. split; assumption. }
        destruct (proj1 (list_elem_of_lookup hrefs href) Hh) as [i Hi].
        destruct (Forall2_lookup_l _ _ _ _ _ Hm Hi) as (u' & Hu' & Hr').
        assert (u' = u) as -> by congruence.
        assert (u ∈ links) as Hl by (by apply list_elem_of_lookup; exists i).
        destruct (first_by_keys id links _ Hl) as (r' & Hr'' & E). simpl in E. by subst.
  - intros total. rewrite raising_links_eq, find_prev_day_links_eq.
    rewrite (mapM_ext _ (fun href => Some (urljoin total base href)));
      [|intros href; apply urljoin_returning].
    assert (forall l : list str,
              mapM (fun href => Some (urljoin total base href)) l
              = Some (map (urljoin total base) l)) as ->; [|done].
    induction l as [|x l IH]; [done|]. cbn [mapM]. simpl. by rewrite IH.
  - by vm_compute.
Qed.

(** C6 as the specification states it fails: an anchor with an empty
    [href] on the seed page resolves to the url of the page, which has
    both fragments, and the code does not return it. *)
Lemma empty_href_not_followed :
  (forall resolve,
     find_prev_day_links resolve
       {| heading := None; article := None; main_p := []; a_href := [[]] |}
       START_URL = [])
  /\ (forall resolve,
        Spec.related_links_as_specified resolve
          {| heading := None; article := None; main_p := []; a_href := [[]] |}
          START_URL = [START_URL]).
Proof. split; intros resolve; by vm_compute. Qed.

(** ** The loop of [main] *)

Section Crawl.
Import Spec.

Lemma enqueue_spec seen links : forall q,
  exists added, enqueue seen q links = q ++ added
    /\ (forall u, u ∈ added -> u ∈ links /\ u ∉ seen /\ u ∉ q)
    /\ NoDup added.
Proof.
  induction links as [|x links IH]; intros q; simpl.
  - exists []. rewrite app_nil_r. split_and!; [done| |constructor].
    intros u Hu. by apply elem_of_nil in Hu.
  - fold (enqueue seen (if decide (x ∉ seen ∧ x ∉ q) then q ++ [x] else q) links).
    destruct (decide (x ∉ seen ∧ x ∉ q)) as [[Hs Hq]|Hn].
    + destruct (IH (q ++ [x])) as (added & -> & Hadd & Hnd).
      exists (x :: added). rewrite <- app_assoc. split_and!; [done| |].
      * intros u [->|Hu]%elem_of_cons; [rewrite elem_of_cons; by auto|].
        destruct (Hadd u Hu) as (H1 & H2 & H3). apply not_elem_of_app in H3 as [H3 _].
        rewrite elem_of_cons. auto.
      * apply NoDup_cons. split; [|done]. intros Hx.
        destruct (Hadd x Hx) as (_ & _ & H3). apply H3, elem_of_app. right. by left.
    + destruct (IH q) as (added & -> & Hadd & Hnd).
      exists added. split_and!; [done| |done].
      intros u Hu. destruct (Hadd u Hu) as (H1 & H2 & H3). rewrite elem_of_cons. auto.
Qed.

Lemma loop_cond_true st :
  loop_cond st = true ->
  (exists u q, queue st = u :: q) /\ (length (rows st) < DAYS_BACK)%nat
  /\ (size (visited st) < MAX_PAGES)%nat.
Proof.
  unfold loop_cond. intros H. apply andb_prop in H as [H H3]. apply andb_prop in H as [H1 H2].
  apply Nat.ltb_lt in H2, H3. split_and!; [|done..].
  destruct (queue st) as [|u q]; [discriminate|eauto].
Qed.

(** The loop stops exactly on an empty queue, on a full output or on the
    cap of the visited urls. *)
Lemma loop_cond_false st :
  loop_cond st = false <->
  queue st = [] \/ (DAYS_BACK <= length (rows st))%nat
  \/ (MAX_PAGES <= size (visited st))%nat.
Proof.
  unfold loop_cond. rewrite !andb_false_iff, !Nat.ltb_ge.
  destruct (queue st); simpl; intuition congruence.
Qed.

Variable resolve : str -> str -> str.
Variable driver : Driver.

Lemma initial_invariant : Invariant driver initial.
Proof.
  split; unfold initial; cbn [rows visited queue gets].
  - apply NoDup_singleton.
  - intros u _. apply not_elem_of_empty.
  - constructor.
  - intros u. rewrite elem_of_nil. set_solver.
  - apply size_empty.
  - simpl. lia.
  - rewrite size_empty. lia.
  - intros r Hr. by apply elem_of_nil in Hr.
  - constructor.
  - constructor.
Qed.

Lemma title_dated_or_blank soup u t :
  dated_or_blank (parse_page_html soup u (title_date_slug t)).
Proof.
  unfold dated_or_blank. simpl.
  destruct (title_date_slug_cases t) as [->|(y & m & d & V & ->)]; [by left|right].
  rewrite (to_datetime_isoformat y m d V). eauto.
Qed.

(** One turn of the loop keeps the invariant and visits one more url. *)
Lemma loop_body_invariant st :
  Invariant driver st -> loop_cond st = true ->
  Invariant driver (loop_body resolve driver st)
  /\ size (visited (loop_body resolve driver st)) = S (size (visited st)).
Proof.
  intros [Hq Hfresh Hg Hgv Hsz Hrb Hvb Hrf Hru Hrd] Hc.
  apply loop_cond_true in Hc as ((u & q & Eq) & Hrows & Hvis).
  unfold loop_body. rewrite Eq. rewrite Eq in Hq, Hfresh.
  apply NoDup_cons in Hq as [Huq Hq].
  assert (u ∉ visited st) as Hu by (apply Hfresh; by left).
  assert (u ∉ gets st) as Hug by (by rewrite Hgv).
  destruct (decide (u ∈ visited st)) as [|_]; [done|].
  assert (size ({[u]} ∪ visited st) = S (size (visited st))) as Hsize.
  { rewrite size_union by set_solver. by rewrite size_singleton. }
  assert (NoDup (gets st ++ [u])) as Hg'.
  { apply NoDup_app. split_and!; [done| |apply NoDup_singleton].
    intros x Hx ->%list_elem_of_singleton. done. }
  assert (forall x, x ∈ gets st ++ [u] <-> x ∈ {[u]} ∪ visited st) as Hgv'.
  { intros x. rewrite elem_of_app, list_elem_of_singleton, Hgv. set_solver. }
  destruct (get driver u) eqn:Hget; cbn zeta.
  - destruct (enqueue_spec ({[u]} ∪ visited st)
                (find_prev_day_links resolve (page_source driver u) u) q)
      as (added & Eadd & Hadd & Hnd).
    split; [split|]; cbn [rows visited queue gets]; try rewrite Eadd.
    + apply NoDup_app. split_and!; [done| |done].
      intros x Hx Hx'. by destruct (Hadd x Hx') as (_ & _ & H3).
    + intros x [Hx|Hx]%elem_of_app.
      * apply not_elem_of_union. split; [|apply Hfresh; by right].
        intros ->%elem_of_singleton. done.
      * by destruct (Hadd x Hx) as (_ & H2 & _).
    + exact Hg'.
    + exact Hgv'.
    + rewrite Hsize, length_app. simpl. lia.
    + rewrite length_app. simpl. lia.
    + lia.
    + intros r [Hr|Hr]%elem_of_app.
      * destruct (Hrf r Hr). split; [|done]. apply elem_of_app. by left.
      * apply list_elem_of_singleton in Hr as ->.
        simpl. split; [|done]. apply elem_of_app. right. by left.
    + rewrite map_app. apply NoDup_app. split_and!; [done| |apply NoDup_singleton].
      intros x Hx ->%list_elem_of_singleton.
      apply (list_elem_of_fmap url) in Hx as (r & E & Hr). simpl in E.
      destruct (Hrf r Hr) as [Hin _]. by rewrite <- E in Hin.
    + apply Forall_app. split; [done|]. constructor; [|constructor].
      apply title_dated_or_blank.
    + exact Hsize.
  - split; [split|]; cbn [rows visited queue gets].
    + exact Hq.
    + intros x Hx. apply not_elem_of_union. split; [|apply Hfresh; by right].
      intros ->%elem_of_singleton. done.
    + exact Hg'.
    + exact Hgv'.
    + rewrite Hsize, length_app. simpl. lia.
    + lia.
    + lia.
    + intros r Hr. destruct (Hrf r Hr). split; [|done]. apply elem_of_app. by left.
    + exact Hru.
    + exact Hrd.
    + exact Hsize.
Qed.

Lemma turn_invariant st : Invariant driver st -> Invariant driver (turn resolve driver st).
Proof.
  intros H. unfold turn. destruct (loop_cond st) eqn:Hc; [|done].
  by apply loop_body_invariant.
Qed.

Lemma after_S n :
  after resolve driver (S n) = turn resolve driver (after resolve driver n).
Proof. reflexivity. Qed.

Lemma after_invariant n : Invariant driver (after resolve driver n).
Proof.
  induction n as [|n IH]; [apply initial_invariant|].
  rewrite after_S. by apply turn_invariant.
Qed.

(** The loop ends within the turns that the cap leaves. *)
Lemma while_ends k : forall st fuel,
  Invariant driver st -> (MAX_PAGES - size (visited st) <= k)%nat -> (k < fuel)%nat ->
  exists st', while resolve driver fuel st = Some st'
    /\ Invariant driver st' /\ loop_cond st' = false.
Proof.
  induction k as [|k IH]; intros st [|fuel] Hinv Hk Hf; try lia; simpl.
  - destruct (loop_cond st) eqn:Hc; [|eauto].
    apply loop_cond_true in Hc as (_ & _ & Hv). lia.
  - destruct (loop_cond st) eqn:Hc; [|eauto].
    destruct (loop_body_invariant st Hinv Hc) as [Hinv' Hsz].
    apply IH; [done| |lia]. rewrite Hsz. lia.
Qed.

(** The state the loop ends in is one of the states after some turns. *)
Lemma while_after fuel : forall n st,
  while resolve driver fuel (after resolve driver n) = Some st ->
  exists m, st = after resolve driver m.
Proof.
  induction fuel as [|fuel IH]; intros n st H; simpl in H; [discriminate|].
  destruct (loop_cond (after resolve driver n)) eqn:Hc.
  - apply (IH (S n)). rewrite after_S. unfold turn. by rewrite Hc.
  - injection H as <-. eauto.
Qed.

Lemma while_more fuel : forall st st' d,
  while resolve driver fuel st = Some st' ->
  while resolve driver (fuel + d) st = Some st'.
Proof.
  induction fuel as [|fuel IH]; intros st st' d H; simpl in *; [discriminate|].
  destruct (loop_cond st); [by apply IH|done].
Qed.

(** The loop ends, in the same state whatever the turns allowed beyond
    the cap. *)
Lemma while_total :
  exists st, (forall fuel, (MAX_PAGES < fuel)%nat ->
                while resolve driver fuel initial = Some st)
    /\ Invariant driver st /\ loop_cond st = false.
Proof.
  destruct (while_ends MAX_PAGES initial (S MAX_PAGES) initial_invariant)
    as (st & Hw & Hinv & Hc); [lia..|].
  exists st. split_and!; [|done..].
  intros fuel Hf. replace fuel with (S MAX_PAGES + (fuel - S MAX_PAGES))%nat by lia.
  by apply while_more.
Qed.

(** What one turn does to the loop variables. *)
Lemma loop_body_shape st u q :
  Invariant driver st -> loop_cond st = true -> queue st = u :: q ->
  let st' := loop_body resolve driver st in
  visited st' = {[u]} ∪ visited st /\ gets st' = gets st ++ [u]
  /\ (get driver u = false -> rows st' = rows st /\ queue st' = q)
  /\ (get driver u = true ->
      exists row, rows st' = rows st ++ [row] /\ url row = u)
  /\ exists added, queue st' = q ++ added
       /\ forall x, x ∈ added ->
            x ∈ find_prev_day_links resolve (page_source driver u) u
            /\ x ∉ visited st' /\ x ∉ q.
Proof.
  intros Hinv Hc Eq st'. subst st'. unfold loop_body. rewrite Eq.
  assert (u ∉ visited st) as Hu by (apply (queue_fresh _ _ Hinv); rewrite Eq; by left).
  destruct (decide (u ∈ visited st)) as [|_]; [done|].
  destruct (get driver u) eqn:Hget; cbn zeta; cbn [rows visited queue gets].
  - split_and!; [done|done|done| |].
    + intros _. eexists. split; [done|]. done.
    + destruct (enqueue_spec ({[u]} ∪ visited st)
                  (find_prev_day_links resolve (page_source driver u) u) q)
        as (added & -> & Hadd & _).
      exists added. split; [done|]. intros x Hx. by apply Hadd.
  - split_and!; [done|done|done|done|].
    exists []. rewrite app_nil_r. split; [done|]. intros x Hx. by apply elem_of_nil in Hx.
Qed.

Lemma turn_visited_mono st : visited st ⊆ visited (turn resolve driver st).
Proof.
  unfold turn. destruct (loop_cond st); [|done]. unfold loop_body.
  destruct (queue st) as [|u q]; [done|].
  destruct (decide (u ∈ visited st)); [done|].
  destruct (get driver u); cbn zeta; cbn [visited]; set_solver.
Qed.

Lemma after_visited_mono n k :
  visited (after resolve driver n) ⊆ visited (after resolve driver (n + k)).
Proof.
  induction k as [|k IH]; [by rewrite Nat.add_0_r|].
  rewrite Nat.add_succ_r, after_S. etrans; [exact IH|apply turn_visited_mono].
Qed.

End Crawl.

(** C1.  After any number of turns of the loop no url was fetched twice,
    the urls fetched are the visited ones, no visited url is pending and
    no url is pending twice; a turn marks the url it takes from the queue
    as visited, fetches it, and queues only urls that are neither visited
    nor pending. *)
Theorem frontier_visits_once resolve driver n :
  let st := after resolve driver n in
  NoDup (gets st)
  /\ (forall u, u ∈ gets st <-> u ∈ visited st)
  /\ (forall u, u ∈ visited st -> u ∉ queue st)
  /\ NoDup (queue st)
  /\ (forall u q, loop_cond st = true -> queue st = u :: q ->
        let st' := after resolve driver (S n) in
        visited st' = {[u]} ∪ visited st /\ gets st' = gets st ++ [u]
        /\ exists added, queue st' = q ++ added
             /\ forall x, x ∈ added -> x ∉ visited st' /\ x ∉ q).
Proof.
  intros st. pose proof (after_invariant resolve driver n) as Hinv. fold st in Hinv.
  split_and!.
  - apply (Spec.gets_NoDup _ _ Hinv).
  - apply (Spec.gets_visited _ _ Hinv).
  - intros u Hv Hq. by apply (Spec.queue_fresh _ _ Hinv u).
  - apply (Spec.queue_NoDup _ _ Hinv).
  - intros u q Hc Eq st'. subst st'. rewrite after_S. fold st. unfold turn. rewrite Hc.
    destruct (loop_body_shape resolve driver st u q Hinv Hc Eq)
      as (Hv & Hg & _ & _ & added & Ea & Hadd).
    split_and!; [done|done|]. exists added. split; [done|].
    intros x Hx. by destruct (Hadd x Hx) as (_ & H2 & H3).
Qed.

(** C2.  The loop ends for every browser, whatever the pages link to: in
    a state that more than [MAX_PAGES] turns always reach, with at most
    [DAYS_BACK] = 30 rows and at most [MAX_PAGES] = 60 visited urls; and
    it stops exactly when the queue is empty, the rows number
    [DAYS_BACK], or the visited urls number [MAX_PAGES]. *)
Theorem crawl_terminates resolve driver :
  exists st,
    (forall fuel, (MAX_PAGES < fuel)%nat ->
       while resolve driver fuel initial = Some st)
    /\ (exists n, st = after resolve driver n)
    /\ loop_cond st = false
    /\ (length (rows st) <= DAYS_BACK)%nat /\ (size (visited st) <= MAX_PAGES)%nat
    /\ DAYS_BACK = 30%nat /\ MAX_PAGES = 60%nat
    /\ forall st', loop_cond st' = false <->
         queue st' = [] \/ (DAYS_BACK <= length (rows st'))%nat
         \/ (MAX_PAGES <= size (visited st'))%nat.
Proof.
  destruct (while_total resolve driver) as (st & Hw & Hinv & Hc).
  exists st. split_and!; try done.
  - apply (while_after resolve driver (S MAX_PAGES) 0). apply Hw. lia.
  - apply (Spec.rows_bound _ _ Hinv).
  - apply (Spec.visited_bound _ _ Hinv).
  - apply loop_cond_false.
Qed.

(** ** The frame that is written *)

Section Frame.
Import Spec.

Lemma drop_duplicates_first rows : drop_duplicates rows = first_by url rows.
Proof. exact (fold_keep_new_first url rows). Qed.

Lemma insert_desc_perm c l : insert_desc c l ≡ₚ c :: l.
Proof.
  induction l as [|x l IH]; simpl; [done|].
  destruct (_ <=? _); [done|]. rewrite IH. apply Permutation_swap.
Qed.

Lemma insert_desc_sorted c l :
  Sorted later_first l -> Sorted later_first (insert_desc c l).
Proof.
  induction l as [|x l IH]; simpl; intros H.
  - repeat constructor.
  - destruct (date_key x.1 <=? date_key c.1) eqn:E.
    + apply N.leb_le in E. constructor; [done|]. constructor. exact E.
    + apply N.leb_gt in E. inversion H as [|? ? Hs Hh]; subst.
      constructor; [by apply IH|].
      destruct l as [|y l]; simpl.
      * constructor. unfold later_first. lia.
      * destruct (date_key y.1 <=? date_key c.1); constructor.
        -- unfold later_first. lia.
        -- by inversion Hh.
Qed.

Lemma insertion_sort_desc_perm l : insertion_sort_desc l ≡ₚ l.
Proof.
  induction l as [|x l IH]; simpl; [done|].
  rewrite insert_desc_perm. by constructor.
Qed.

Lemma insertion_sort_desc_sorted l : Sorted later_first (insertion_sort_desc l).
Proof.
  induction l as [|x l IH]; simpl; [constructor|]. by apply insert_desc_sorted.
Qed.

(** The interface of [sort_values] has a model. *)
Definition insertion_sorter : Sorter :=
  {| sort_values := insertion_sort_desc;
     sort_values_perm := insertion_sort_desc_perm;
     sort_values_sorted := insertion_sort_desc_sorted |}.

Lemma with_timestamp_id d r :
  to_datetime (date_slug r) = Some d -> with_timestamp (d, r) = r.
Proof.
  intros H. apply to_datetime_inv in H as [E _].
  destruct r as [u t x s]. unfold with_timestamp. simpl in *. by rewrite E.
Qed.

Lemma has_date_readable r :
  dated_or_blank r -> has_date r = true -> is_Some (to_datetime (date_slug r)).
Proof.
  unfold has_date. intros [E|H] Hd; [|done]. rewrite E in Hd. discriminate Hd.
Qed.

(** The conversion of the column succeeds on the dated rows, and pairs
    each row with the date of its slug. *)
Lemma convert_column_Some df :
  Forall dated_or_blank df -> Forall (fun r => has_date r = true) df ->
  exists dv, convert_column df = Some dv /\ map snd dv = df
    /\ Forall (fun c => to_datetime (date_slug (snd c)) = Some (fst c)) dv.
Proof.
  induction df as [|r df IH]; intros Hw Hd.
  - exists []. split_and!; [done|done|constructor].
  - apply Forall_cons in Hw as [Hr Hw]. apply Forall_cons in Hd as [Hdr Hd].
    destruct (IH Hw Hd) as (dv & E & Es & Hk).
    destruct (has_date_readable r Hr Hdr) as [d Hdt].
    exists ((d, r) :: dv). unfold convert_column in *. split_and!.
    + cbn [mapM]. rewrite Hdt. simpl. by rewrite E.
    + simpl. by rewrite Es.
    + by constructor.
Qed.

Lemma Forall_filter_true {A} (f : A -> bool) l :
  Forall (fun x => f x = true) (List.filter f l).
Proof.
  apply Forall_forall. intros x Hx. by apply list_elem_of_In, filter_In in Hx as [_ Hx].
Qed.

Lemma Forall_filter_keep {A} (P : A -> Prop) (f : A -> bool) l :
  Forall P l -> Forall P (List.filter f l).
Proof.
  rewrite !Forall_forall. intros H x Hx. apply H.
  by apply list_elem_of_In, filter_In in Hx as [Hx%list_elem_of_In _].
Qed.

Lemma first_by_Forall {A} (P : A -> Prop) (key : A -> list N) l :
  Forall P l -> Forall P (first_by key l).
Proof.
  rewrite !Forall_forall. intros H x Hx. by apply H, (first_by_elem key).
Qed.

Lemma map_with_timestamp dv :
  Forall (fun c => to_datetime (date_slug (snd c)) = Some (fst c)) dv ->
  map with_timestamp dv = map snd dv.
Proof.
  induction 1 as [|[d r] dv H _ IH]; simpl; [done|].
  simpl in H. by rewrite (with_timestamp_id d r H), IH.
Qed.

(** Sorting pairs by their date sorts the rows by the date of their slug. *)
Lemma sorted_rows dv :
  Forall (fun c => to_datetime (date_slug (snd c)) = Some (fst c)) dv ->
  Sorted later_first dv -> Sorted newer_first (map snd dv).
Proof.
  intros Hk Hs. induction Hs as [|[d r] dv Hs IH Hh]; simpl; [constructor|].
  apply Forall_cons in Hk as [Hr Hk]. constructor; [by apply IH|].
  destruct Hh as [|[d' r'] dv' Hl]; simpl; constructor.
  apply Forall_cons in Hk as [Hr' _]. simpl in Hr, Hr'.
  unfold newer_first, row_key. rewrite Hr, Hr'. exact Hl.
Qed.

(** What [aggregate] returns, step by step. *)
Lemma aggregate_eq S rows :
  Forall dated_or_blank rows ->
  let df := first_by url rows in
  if existsb has_date df then
    exists sorted,
      aggregate S rows = Some (take DAYS_BACK sorted)
      /\ sorted ≡ₚ List.filter has_date df /\ Sorted newer_first sorted
  else aggregate S rows = Some (take DAYS_BACK df).
Proof.
  intros Hw df. unfold aggregate. rewrite drop_duplicates_first. fold df.
  assert (Forall dated_or_blank df) as Hwd by by apply first_by_Forall.
  destruct (existsb has_date df) eqn:Hany.
  - assert (nonempty_frame df = true) as ->.
    { destruct df; [discriminate Hany|done]. }
    cbn [andb].
    destruct (convert_column_Some (List.filter has_date df))
      as (dv & -> & Es & Hk);
      [by apply Forall_filter_keep|apply Forall_filter_true|].
    pose proof (sort_values_perm S dv) as Hp.
    assert (Forall (fun c => to_datetime (date_slug (snd c)) = Some (fst c))
              (sort_values S dv)) as Hk'
      by (by rewrite Hp).
    exists (map snd (sort_values S dv)). split_and!.
    + f_equal. rewrite firstn_map. apply map_with_timestamp.
      by apply Forall_take.
    + rewrite <- Es. by apply Permutation_map.
    + apply sorted_rows; [done|]. apply sort_values_sorted.
  - by rewrite andb_false_r.
Qed.

Lemma aggregate_total S rows :
  Forall dated_or_blank rows -> is_Some (aggregate S rows).
Proof.
  intros Hw. pose proof (aggregate_eq S rows Hw) as H. cbv zeta in H.
  destruct (existsb has_date (first_by url rows)).
  - destruct H as (sorted & -> & _). eauto.
  - rewrite H. eauto.
Qed.

Lemma convert_column_inv df : forall dv,
  convert_column df = Some dv ->
  map snd dv = df
  /\ Forall (fun c => to_datetime (date_slug (snd c)) = Some (fst c)) dv.
Proof.
  unfold convert_column.
  induction df as [|r df IH]; intros dv H; cbn [mapM] in H.
  - injection H as <-. split; [done|constructor].
  - destruct (to_datetime (date_slug r)) as [d|] eqn:Hd; [|discriminate H].
    simpl in H. destruct (mapM _ df) as [dv'|]; [|discriminate H].
    simpl in H. injection H as <-. destruct (IH dv' eq_refl) as [E Hk].
    split; [simpl; by rewrite E|by constructor].
Qed.

Lemma readable_has_date r d :
  to_datetime (date_slug r) = Some d -> has_date r = true /\ dated_or_blank r.
Proof.
  intros H. split; [|right; by rewrite H].
  unfold has_date. destruct (date_slug r); [discriminate H|done].
Qed.

Lemma filter_sublist {A} (f : A -> bool) l : sublist (List.filter f l) l.
Proof.
  induction l as [|x l IH]; simpl; [constructor|].
  destruct (f x); by constructor.
Qed.

Lemma filter_true_all {A} (f : A -> bool) l :
  Forall (fun x => f x = true) l -> List.filter f l = l.
Proof.
  induction 1 as [|x l Hx _ IH]; simpl; [done|]. by rewrite Hx, IH.
Qed.

Lemma existsb_all_false {A} (f : A -> bool) l :
  existsb f l = false -> Forall (fun x => f x = false) l.
Proof.
  induction l as [|x l IH]; simpl; [constructor|].
  intros [Hx Hl]%orb_false_elim. constructor; auto.
Qed.

Lemma existsb_all_true {A} (f : A -> bool) x l :
  Forall (fun y => f y = true) (x :: l) -> existsb f (x :: l) = true.
Proof. intros [Hx _]%Forall_cons. simpl. by rewrite Hx. Qed.

Lemma Sorted_take {A} (R : A -> A -> Prop) n : forall l,
  Sorted R l -> Sorted R (take n l).
Proof.
  induction n as [|n IH]; intros l H; [constructor|].
  destruct H as [|x l Hs Hh]; simpl; [constructor|].
  constructor; [by apply IH|].
  destruct Hh as [|y l' Hxy]; [destruct n; constructor|].
  destruct n; simpl; by constructor.
Qed.

(** From rows sorted by the date of their slug back to sorted pairs. *)
Lemma sorted_pairs dv :
  Forall (fun c => to_datetime (date_slug (snd c)) = Some (fst c)) dv ->
  Sorted newer_first (map snd dv) -> Sorted later_first dv.
Proof.
  induction dv as [|[d r] dv IH]; intros Hk Hs; [constructor|].
  apply Forall_cons in Hk as [Hr Hk]. simpl in Hs.
  inversion Hs as [|? ? Hs' Hh]; subst. constructor; [by apply IH|].
  destruct dv as [|[d' r'] dv]; constructor.
  apply Forall_cons in Hk as [Hr' _]. simpl in Hr, Hr', Hh.
  inversion Hh as [|? ? Hl]; subst.
  unfold newer_first, row_key in Hl. by rewrite Hr, Hr' in Hl.
Qed.

(** What holds of any frame that [aggregate] returns. *)
Lemma aggregate_result S rows out :
  aggregate S rows = Some out ->
  NoDup (map url out) /\ (length out <= DAYS_BACK)%nat
  /\ ((Forall (fun r => is_Some (to_datetime (date_slug r))) out
       /\ Sorted newer_first out)
      \/ Forall (fun r => has_date r = false) out).
Proof.
  unfold aggregate. rewrite drop_duplicates_first.
  set (df := first_by url rows).
  pose proof (first_by_NoDup url rows) as Hnd. fold df in Hnd.
  destruct (nonempty_frame df && existsb has_date df) eqn:Hc.
  - destruct (convert_column _) as [dv|] eqn:Ec; [|discriminate].
    intros [= <-]. apply convert_column_inv in Ec as [Es Hk].
    pose proof (sort_values_perm S dv) as Hp.
    assert (Forall (fun c => to_datetime (date_slug (snd c)) = Some (fst c))
              (sort_values S dv)) as Hk' by (by rewrite Hp).
    rewrite (map_with_timestamp _ (Forall_take _ _ _ Hk')).
    rewrite <- firstn_map. split_and!.
    + apply (sublist_NoDup _ (map url (map snd (sort_values S dv)))).
      * rewrite (Permutation_map url (Permutation_map snd Hp)), Es.
        apply (sublist_NoDup _ (map url df)); [done|].
        apply (fmap_sublist url), filter_sublist.
      * apply (fmap_sublist url), sublist_take.
    + rewrite length_take. lia.
    + left. split.
      * apply Forall_take, Forall_forall. intros r Hr.
        apply (list_elem_of_fmap snd) in Hr as (c & -> & Hc').
        rewrite Forall_forall in Hk'. rewrite (Hk' c Hc'). eauto.
      * apply Sorted_take, sorted_rows; [done|]. apply sort_values_sorted.
  - intros [= <-]. split_and!.
    + apply (sublist_NoDup _ (map url df)); [done|].
      apply (fmap_sublist url), sublist_take.
    + rewrite length_take. lia.
    + right. apply Forall_take. destruct df as [|r df']; [constructor|].
      simpl in Hc. by apply existsb_all_false.
Qed.

Lemma insertion_sort_desc_sorted_id l :
  Sorted later_first l -> insertion_sort_desc l = l.
Proof.
  induction 1 as [|x l Hs IH Hh]; simpl; [done|]. rewrite IH.
  destruct Hh as [|y l' Hxy]; simpl; [done|].
  unfold later_first in Hxy. apply N.leb_le in Hxy. by rewrite Hxy.
Qed.

End Frame.

(** C9.  Aggregating the frame that an aggregation returned gives the same
    rows again: a permutation of it for any [sort_values], and the very
    same frame when the sort leaves a sorted frame as it is, as the stable
    sort does. *)
Theorem aggregate_idempotent S rows out :
  aggregate S rows = Some out ->
  exists out', aggregate S out = Some out' /\ out' ≡ₚ out
    /\ ((forall l, Sorted later_first l -> sort_values S l = l) -> out' = out).
Proof.
  intros H. destruct (aggregate_result S rows out H) as (Hnd & Hlen & Hcase).
  unfold aggregate. rewrite drop_duplicates_first, (first_by_id url out Hnd).
  destruct Hcase as [[Hread Hsorted]|Hnone].
  - destruct out as [|r out].
    + exists []. by split_and!.
    + assert (Forall (fun r => has_date r = true) (r :: out)) as Hd.
      { eapply Forall_impl; [exact Hread|]. intros x [d Hx].
        by destruct (readable_has_date x d Hx). }
      assert (Forall Spec.dated_or_blank (r :: out)) as Hw.
      { eapply Forall_impl; [exact Hread|]. intros x Hx. by right. }
      rewrite (existsb_all_true has_date r out Hd), (filter_true_all has_date _ Hd).
      cbn [nonempty_frame andb].
      destruct (convert_column_Some (r :: out) Hw Hd) as (dv & -> & Es & Hk).
      pose proof (sort_values_perm S dv) as Hp.
      assert (Forall (fun c => to_datetime (date_slug (snd c)) = Some (fst c))
                (sort_values S dv)) as Hk' by (by rewrite Hp).
      assert (length (sort_values S dv) <= DAYS_BACK)%nat as Hl.
      { rewrite Hp, <- (length_map snd), Es. exact Hlen. }
      rewrite (take_ge _ _ Hl), (map_with_timestamp _ Hk').
      eexists. split_and!; [done| |].
      * rewrite <- Es. by apply Permutation_map.
      * intros Hstable. rewrite Hstable, Es; [done|].
        apply sorted_pairs; [done|]. by rewrite Es.
  - assert (nonempty_frame out && existsb has_date out = false) as ->.
    { apply andb_false_intro2. clear -Hnone.
      induction Hnone as [|x l Hx _ IH]; simpl; [done|]. by rewrite Hx, IH. }
    exists out. rewrite (take_ge _ _ Hlen). by split_and!.
Qed.



Lemma aggregate_idempotent_witness :
  exists out',
    aggregate insertion_sorter
      [Examples.row START_URL "2025-10-20"; Examples.row Examples.URL_19 "2025-10-19";
       Examples.row Examples.URL_18 "2025-10-18"] = Some out'
    /\ out' ≡ₚ [Examples.row START_URL "2025-10-20";
                Examples.row Examples.URL_19 "2025-10-19";
                Examples.row Examples.URL_18 "2025-10-18"]
    /\ ((forall l, Sorted later_first l -> sort_values insertion_sorter l = l) ->
        out' = [Examples.row START_URL "2025-10-20";
                Examples.row Examples.URL_19 "2025-10-19";
                Examples.row Examples.URL_18 "2025-10-18"]).
Proof.
  apply (aggregate_idempotent insertion_sorter Examples.mixed_rows).
  by vm_compute.
Defined.

(** C3.  The frame written is made in these steps: of the rows of one
    url the first is kept; when a row kept has a date, the rows with a
    date are sorted by date, latest first, and the first [DAYS_BACK] of
    them are the frame, the rows without a date being left out; otherwise
    the frame is the first [DAYS_BACK] rows kept, in their order. *)
Theorem aggregate_steps S rows :
  Forall Spec.dated_or_blank rows ->
  let df := Spec.first_by url rows in
  (forall r, r ∈ df <->
     exists i, rows !! i = Some r /\
       forall j r', (j < i)%nat -> rows !! j = Some r' -> url r' <> url r)
  /\ sublist df rows
  /\ if existsb has_date df then
       exists sorted,
         aggregate S rows = Some (take DAYS_BACK sorted)
         /\ sorted ≡ₚ List.filter has_date df /\ Sorted Spec.newer_first sorted
     else aggregate S rows = Some (take DAYS_BACK df).
Proof.
  intros Hw df. split_and!.
  - intros r. apply first_by_spec.
  - apply first_by_sublist.
  - by apply aggregate_eq.
Qed.

Lemma aggregate_steps_witness :
  exists sorted,
    aggregate insertion_sorter Examples.mixed_rows = Some (take DAYS_BACK sorted)
    /\ sorted ≡ₚ List.filter has_date (Spec.first_by url Examples.mixed_rows)
    /\ Sorted Spec.newer_first sorted.
Proof.
  pose proof (aggregate_steps insertion_sorter Examples.mixed_rows) as H.
  cbv zeta in H. destruct H as (_ & _ & H).
  - repeat (apply List.Forall_cons;
              [first [right; vm_compute; eexists; reflexivity
                     |left; vm_compute; reflexivity]|]).
    apply List.Forall_nil.
  - exact H.
Defined.

(** * Further properties *)

(** ** The queue *)

Section Enqueue.
Import Spec.

Lemma enqueue_cons seen q x links :
  enqueue seen q (x :: links)
  = enqueue seen (if decide ((x ∉ seen) ∧ (x ∉ q)) then q ++ [x] else q) links.
Proof. reflexivity. Qed.

Lemma enqueue_from (seen : gset (list N)) (q0 : list str) links : forall out,
  enqueue seen (q0 ++ out) links
  = q0 ++ out
    ++ filter (fun x => x ∉ out)
         (first_by id (filter (fun x => x ∉ seen ∧ x ∉ q0) links)).
Proof.
  induction links as [|x r IH]; intros out.
  - unfold enqueue. simpl. by rewrite filter_nil, !app_nil_r.
  - rewrite enqueue_cons.
    destruct (decide ((x ∉ seen) ∧ (x ∉ q0 ++ out))) as [[Hs Hq]|Hn].
    + apply not_elem_of_app in Hq as [Hq0 Hout].
      rewrite <- app_assoc, IH, <- !app_assoc. do 2 f_equal.
      rewrite (filter_cons_True _ x r) by done. cbn [first_by].
      rewrite filter_cons_True by done. simpl. f_equal.
      rewrite list_filter_filter. apply list_filter_iff. intros y. unfold id.
      rewrite not_elem_of_app, list_elem_of_singleton. tauto.
    + rewrite IH. do 2 f_equal.
      destruct (decide (x ∉ seen ∧ x ∉ q0)) as [HP|HP].
      * assert (x ∈ out) as Hin.
        { destruct (decide (x ∈ out)) as [|Hno]; [done|]. exfalso. apply Hn.
          split; [tauto|]. apply not_elem_of_app. tauto. }
        rewrite (filter_cons_True _ x r) by done. cbn [first_by].
        rewrite filter_cons_False by (intros Hno; by apply Hno).
        symmetry. apply list_filter_filter_l. intros y Hy E. unfold id in E.
        by subst.
      * by rewrite (filter_cons_False _ x r).
Qed.

End Enqueue.

(** X1.  [enqueue] keeps what is pending, in place, and appends the links
    that are neither visited nor pending, each once, in the order of
    their first occurrence. *)
Theorem enqueue_appends_new (seen : gset (list N)) (q links : list str) :
  enqueue seen q links
  = q ++ Spec.first_occurrences (filter (fun x => x ∉ seen ∧ x ∉ q) links).
Proof.
  pose proof (enqueue_from seen q links []) as H. rewrite app_nil_r in H.
  rewrite H. simpl. f_equal. apply filter_all. intros y _. apply not_elem_of_nil.
Qed.

(** ** The graph the loop explores *)

Section Explore.
Import Spec Frontier.
Variable resolve : str -> str -> str.
Variable driver : Driver.

(** The turn on a url not yet visited, written out. *)
Lemma loop_body_eq st u q :
  queue st = u :: q -> u ∉ visited st ->
  loop_body resolve driver st =
  if get driver u then
    {| rows := rows st ++ [row_of driver u]; visited := {[u]} ∪ visited st;
       queue := enqueue ({[u]} ∪ visited st) q (links_of resolve driver u);
       gets := gets st ++ [u] |}
  else
    {| rows := rows st; visited := {[u]} ∪ visited st; queue := q;
       gets := gets st ++ [u] |}.
Proof.
  intros Eq Hu. unfold loop_body. rewrite Eq.
  destruct (decide (u ∈ visited st)); [done|]. reflexivity.
Qed.

Lemma initial_explored : Explored resolve driver initial.
Proof.
  split; unfold discovered, initial; cbn [rows gets queue].
  - done.
  - rewrite app_nil_l. by apply list_elem_of_singleton.
  - intros u Hu. rewrite app_nil_l in Hu.
    apply list_elem_of_singleton in Hu as ->. constructor.
  - intros v x Hv. by apply elem_of_nil in Hv.
Qed.

Lemma loop_body_explored st :
  Invariant driver st -> Explored resolve driver st -> loop_cond st = true ->
  Explored resolve driver (loop_body resolve driver st)
  /\ exists added,
       discovered (loop_body resolve driver st) = discovered st ++ added.
Proof.
  intros Hinv [Hrows Hseed Hreach Hlinks] Hc.
  pose proof (loop_body_invariant resolve driver st Hinv Hc) as [Hinv' _].
  apply loop_cond_true in Hc as ((u & q & Eq) & _ & _).
  assert (u ∉ visited st) as Hu by (apply (queue_fresh _ _ Hinv); rewrite Eq; by left).
  rewrite (loop_body_eq st u q Eq Hu) in *.
  unfold discovered in *. rewrite Eq in *.
  assert (reachable resolve driver u) as Hru.
  { apply Hreach, elem_of_app. right. by left. }
  destruct (get driver u) eqn:Hget; cbn [rows gets queue visited] in *.
  - rewrite enqueue_appends_new.
    set (added := first_occurrences _).
    assert (forall x, x ∈ added -> x ∈ links_of resolve driver u) as Hadd.
    { intros x Hx. apply (first_by_elem id) in Hx.
      by apply list_elem_of_filter in Hx as [_ Hx]. }
    split; [split|]; unfold discovered; cbn [rows gets queue visited].
    + rewrite List.filter_app, map_app, <- Hrows. simpl. by rewrite Hget.
    + rewrite <- app_assoc. simpl. apply elem_of_app in Hseed as [H|H].
      * apply elem_of_app. by left.
      * apply elem_of_app. right. rewrite app_comm_cons. apply elem_of_app. by left.
    + intros x Hx. rewrite <- app_assoc in Hx. simpl in Hx.
      apply elem_of_app in Hx as [Hx|Hx].
      { apply Hreach, elem_of_app. by left. }
      rewrite app_comm_cons in Hx. apply elem_of_app in Hx as [Hx|Hx].
      { apply Hreach, elem_of_app. by right. }
      apply (reach_link resolve driver u x Hru Hget). by apply Hadd.
    + intros v x Hv Hgv Hx. apply elem_of_app in Hv as [Hv|Hv].
      * specialize (Hlinks v x Hv Hgv Hx). rewrite <- app_assoc. simpl.
        apply elem_of_app in Hlinks as [H|H]; [apply elem_of_app; by left|].
        apply elem_of_app. right. rewrite app_comm_cons. apply elem_of_app. by left.
      * apply list_elem_of_singleton in Hv as ->.
        destruct (decide (x ∉ {[u]} ∪ visited st ∧ x ∉ q)) as [HP|HP].
        -- apply elem_of_app. right. apply elem_of_app. right.
           destruct (first_by_keys id
                       (filter (fun x => x ∉ {[u]} ∪ visited st ∧ x ∉ q)
                          (links_of resolve driver u)) x) as (y & Hy & E).
           { by apply list_elem_of_filter. }
           unfold id in E. by subst.
        -- destruct (decide (x ∈ q)) as [Hq|Hq].
           { apply elem_of_app. right. apply elem_of_app. by left. }
           apply elem_of_app. left.
           apply (gets_visited _ _ Hinv'). cbn [gets visited].
           destruct (decide (x ∈ {[u]} ∪ visited st)); [done|tauto].
    + exists added. by rewrite <- !app_assoc.
  - split; [split|]; unfold discovered; cbn [rows gets queue visited].
    + rewrite List.filter_app. simpl. rewrite Hget. by rewrite app_nil_r.
    + by rewrite <- app_assoc.
    + intros x Hx. apply Hreach. by rewrite <- app_assoc in Hx.
    + intros v x Hv Hgv Hx. apply elem_of_app in Hv as [Hv|Hv].
      * rewrite <- app_assoc. by apply (Hlinks v x).
      * apply list_elem_of_singleton in Hv as ->. congruence.
    + exists []. by rewrite <- !app_assoc, app_nil_r.
Qed.

Lemma after_explored n : Explored resolve driver (after resolve driver n).
Proof.
  induction n as [|n IH]; [apply initial_explored|].
  rewrite after_S. unfold turn.
  destruct (loop_cond (after resolve driver n)) eqn:Hc; [|done].
  by apply loop_body_explored; [apply after_invariant|..].
Qed.

Lemma discovered_grows n : forall k,
  exists added,
    discovered (after resolve driver (n + k))
    = discovered (after resolve driver n) ++ added.
Proof.
  induction k as [|k (added & IH)].
  - exists []. by rewrite Nat.add_0_r, app_nil_r.
  - rewrite Nat.add_succ_r, after_S. unfold turn.
    destruct (loop_cond (after resolve driver (n + k))) eqn:Hc; [|eauto].
    destruct (loop_body_explored _ (after_invariant resolve driver (n + k))
                (after_explored (n + k)) Hc) as (_ & added' & E).
    exists (added ++ added'). by rewrite E, IH, <- app_assoc.
Qed.

End Explore.

(** X2.  At every turn the rows are the pages of the urls whose fetch
    succeeded, parsed, in the order of the fetches. *)
Theorem rows_are_fetched_pages resolve driver n :
  rows (after resolve driver n)
  = map (Frontier.row_of driver)
      (List.filter (get driver) (gets (after resolve driver n))).
Proof. apply (Frontier.rows_are_pages _ _ _ (after_explored resolve driver n)). Qed.

(** X3.  The loop never fetches or queues a url that the seed does not
    lead to through the related links of pages that loaded. *)
Theorem only_reachable_urls resolve driver n :
  Forall (Frontier.reachable resolve driver)
    (Frontier.discovered (after resolve driver n)).
Proof.
  apply Forall_forall.
  apply (Frontier.discovered_reachable _ _ _ (after_explored resolve driver n)).
Qed.

(** X4.  When the queue is empty, the visited urls are exactly the urls
    that the seed leads to. *)
Theorem exhausted_queue_visits_all resolve driver n :
  queue (after resolve driver n) = [] ->
  forall u, Frontier.reachable resolve driver u <-> u ∈ visited (after resolve driver n).
Proof.
  intros Hq u.
  pose proof (after_invariant resolve driver n) as Hinv.
  pose proof (after_explored resolve driver n) as [_ Hseed Hreach Hlinks].
  unfold Frontier.discovered in *. rewrite Hq, app_nil_r in *.
  split.
  - induction 1 as [|v x _ IH Hget Hx].
    + by apply (Spec.gets_visited _ _ Hinv).
    + apply (Spec.gets_visited _ _ Hinv), (Hlinks v x); [|done..].
      by apply (Spec.gets_visited _ _ Hinv).
  - intros Hu. by apply Hreach, (Spec.gets_visited _ _ Hinv).
Qed.

Lemma exhausted_queue_visits_all_witness :
  queue (after Examples.absolute Examples.three_briefs 3) = []
  /\ forall u,
       Frontier.reachable Examples.absolute Examples.three_briefs u
       <-> u ∈ visited (after Examples.absolute Examples.three_briefs 3).
Proof.
  split; [by vm_compute|].
  apply (exhausted_queue_visits_all Examples.absolute Examples.three_briefs 3).
  by vm_compute.
Defined.

(** X5.  The urls fetched followed by the urls pending only ever grow at
    the end: urls are fetched in the order in which they were first met. *)
Theorem discovery_order_kept resolve driver n k :
  exists added,
    Frontier.discovered (after resolve driver (n + k))
    = Frontier.discovered (after resolve driver n) ++ added.
Proof. apply discovered_grows. Qed.

(** X6.  [driver.get] is called at most [MAX_PAGES] times in a run, the
    failed calls included, once for each visited url, and the rows never
    outnumber the calls. *)
Theorem fetches_bounded resolve driver n :
  length (gets (after resolve driver n)) = size (visited (after resolve driver n))
  /\ (length (gets (after resolve driver n)) <= MAX_PAGES)%nat
  /\ (length (rows (after resolve driver n))
      <= length (gets (after resolve driver n)))%nat.
Proof.
  pose proof (after_invariant resolve driver n) as Hinv.
  pose proof (Spec.visited_size _ _ Hinv) as Hs.
  pose proof (Spec.visited_bound _ _ Hinv) as Hb.
  split_and!; [lia|lia|].
  rewrite (Frontier.rows_are_pages _ _ _ (after_explored resolve driver n)).
  rewrite length_map. apply List.filter_length_le.
Qed.

(** X7.  The rows of the loop have pairwise different urls, so the
    [drop_duplicates] of line 158 removes nothing. *)
Theorem drop_duplicates_keeps_rows resolve driver n :
  NoDup (map url (rows (after resolve driver n)))
  /\ drop_duplicates (rows (after resolve driver n)) = rows (after resolve driver n).
Proof.
  pose proof (Spec.rows_urls _ _ (after_invariant resolve driver n)) as H.
  split; [done|]. rewrite drop_duplicates_first. by apply first_by_id.
Qed.

(** ** The frame and the file *)

Section FrameMore.
Import Spec.

Lemma aggregate_subset S rows out :
  aggregate S rows = Some out -> forall r, r ∈ out -> r ∈ rows.
Proof.
  unfold aggregate. rewrite drop_duplicates_first.
  set (df := first_by url rows).
  destruct (nonempty_frame df && existsb has_date df).
  - destruct (convert_column _) as [dv|] eqn:Ec; [|discriminate].
    intros [= <-] r Hr. apply convert_column_inv in Ec as [Es Hk].
    pose proof (sort_values_perm S dv) as Hp.
    assert (Forall (fun c => to_datetime (date_slug (snd c)) = Some (fst c))
              (sort_values S dv)) as Hk' by (by rewrite Hp).
    rewrite (map_with_timestamp _ (Forall_take _ _ _ Hk')) in Hr.
    apply (list_elem_of_fmap snd) in Hr as (c & -> & Hc).
    apply (subseteq_take DAYS_BACK) in Hc. rewrite Hp in Hc.
    apply (first_by_elem url rows).
    assert (snd c ∈ List.filter has_date df) as Hin.
    { rewrite <- Es. by apply (list_elem_of_fmap_2 snd). }
    by apply list_elem_of_In, filter_In in Hin as [Hin%list_elem_of_In _].
  - intros [= <-] r Hr. apply (subseteq_take DAYS_BACK) in Hr.
    by apply (first_by_elem url rows).
Qed.

End FrameMore.

(** X8.  A frame that [aggregate] returns has only rows of its input, no
    url twice and at most [DAYS_BACK] rows, and is either all rows with a
    date, latest first, or all rows without one. *)
Theorem aggregate_output S rows out :
  aggregate S rows = Some out ->
  (forall r, r ∈ out -> r ∈ rows)
  /\ NoDup (map url out) /\ (length out <= DAYS_BACK)%nat
  /\ ((Forall (fun r => is_Some (to_datetime (date_slug r))) out
       /\ Sorted Spec.newer_first out)
      \/ Forall (fun r => has_date r = false) out).
Proof.
  intros H. split; [by apply (aggregate_subset S rows)|].
  by apply (aggregate_result S rows).
Qed.

Lemma aggregate_output_witness :
  (forall r,
     r ∈ [Examples.row START_URL "2025-10-20"; Examples.row Examples.URL_19 "2025-10-19";
          Examples.row Examples.URL_18 "2025-10-18"] -> r ∈ Examples.mixed_rows)
  /\ NoDup (map url
              [Examples.row START_URL "2025-10-20";
               Examples.row Examples.URL_19 "2025-10-19";
               Examples.row Examples.URL_18 "2025-10-18"])
  /\ (3 <= DAYS_BACK)%nat
  /\ ((Forall (fun r => is_Some (to_datetime (date_slug r)))
         [Examples.row START_URL "2025-10-20"; Examples.row Examples.URL_19 "2025-10-19";
          Examples.row Examples.URL_18 "2025-10-18"]
       /\ Sorted Spec.newer_first
            [Examples.row START_URL "2025-10-20";
             Examples.row Examples.URL_19 "2025-10-19";
             Examples.row Examples.URL_18 "2025-10-18"])
      \/ Forall (fun r => has_date r = false)
           [Examples.row START_URL "2025-10-20";
            Examples.row Examples.URL_19 "2025-10-19";
            Examples.row Examples.URL_18 "2025-10-18"]).
Proof.
  apply (aggregate_output insertion_sorter Examples.mixed_rows). by vm_compute.
Defined.

(** X9.  Every row of the file that a run writes is the parsed page of
    its url, a url that was fetched with success and that the seed leads
    to; no url has two rows and the rows are at most [DAYS_BACK]. *)
Theorem saved_rows_are_pages fuel resolve (sorter : Sorter) driver out :
  main fuel resolve sorter (Some driver) = Saved out ->
  (forall r, r ∈ out ->
     r = Frontier.row_of driver (url r) /\ get driver (url r) = true
     /\ Frontier.reachable resolve driver (url r))
  /\ NoDup (map url out) /\ (length out <= DAYS_BACK)%nat.
Proof.
  unfold main. destruct (while resolve driver fuel initial) as [st|] eqn:Hw; [|discriminate].
  destruct (aggregate sorter (rows st)) as [out'|] eqn:Ha; [|discriminate].
  intros [= <-].
  destruct (while_after resolve driver fuel 0 st Hw) as [m ->].
  pose proof (after_invariant resolve driver m) as Hinv.
  pose proof (after_explored resolve driver m) as Hex.
  destruct (aggregate_result sorter _ _ Ha) as (Hnd & Hlen & _).
  split_and!; [|done..].
  intros r Hr. apply (aggregate_subset sorter _ _ Ha) in Hr.
  rewrite (Frontier.rows_are_pages _ _ _ Hex) in Hr.
  apply (list_elem_of_fmap (Frontier.row_of driver)) in Hr as (u & -> & Hu).
  apply list_elem_of_In, filter_In in Hu as [Hu%list_elem_of_In Hget].
  cbn [Frontier.row_of parse_page_html url]. split_and!; [done|done|].
  apply (Frontier.discovered_reachable _ _ _ Hex). apply elem_of_app. by left.
Qed.

Lemma saved_rows_are_pages_witness :
  (forall r,
     r ∈ map (Frontier.row_of Examples.three_briefs)
           [START_URL; Examples.URL_19; Examples.URL_18] ->
     r = Frontier.row_of Examples.three_briefs (url r)
     /\ get Examples.three_briefs (url r) = true
     /\ Frontier.reachable Examples.absolute Examples.three_briefs (url r))
  /\ NoDup (map url (map (Frontier.row_of Examples.three_briefs)
                       [START_URL; Examples.URL_19; Examples.URL_18]))
  /\ (length (map (Frontier.row_of Examples.three_briefs)
                [START_URL; Examples.URL_19; Examples.URL_18]) <= DAYS_BACK)%nat.
Proof.
  apply (saved_rows_are_pages 61 Examples.absolute insertion_sorter Examples.three_briefs).
  by vm_compute.
Defined.

(** X10.  Every [date_slug] the loop computes is empty or the ISO text,
    ten characters long, of a date of the calendar. *)
Theorem title_date_slug_iso t :
  title_date_slug t = [] \/
  exists d,
    valid_date (year d) (month d) (day d) = true
    /\ title_date_slug t = isoformat d
    /\ length (title_date_slug t) = 10%nat.
Proof.
  destruct (title_date_slug_cases t) as [E|(y & m & d & V & E)]; [by left|right].
  exists {| year := y; month := m; day := d |}. split_and!; [done|done|].
  rewrite E. unfold isoformat. rewrite !length_app, !zero_padded_length. done.
Qed.

(** ** Texts *)

Section TextMore.
Import Spec.

Lemma blanks_sub_fixed s :
  no_pair both_blank s = true -> forallb (fun c => negb (c =? 9)) s = true ->
  sub RE_BLANKS [32] s = s.
Proof.
  apply (sub_ind RE_BLANKS [32]
    (fun s out => no_pair both_blank s = true ->
                  forallb (fun c => negb (c =? 9)) s = true -> out = s)); clear s.
  - done.
  - intros c s out _ IH Hp Ht. simpl in Ht. apply andb_prop in Ht as [_ Ht].
    by rewrite (IH (no_pair_cons _ _ _ Hp) Ht).
  - intros c s caps n out Hm IH Hp Ht.
    apply blanks_match in Hm as (w & s' & E & Hw & Hlen & -> & _).
    destruct w as [|a [|b w]]; [simpl in Hlen; lia| |].
    + simpl in E. injection E as <- <-. simpl in IH, Ht, Hw.
      apply andb_prop in Ht as [Hc Ht]. rewrite (IH (no_pair_cons _ _ _ Hp) Ht).
      rewrite andb_true_r in Hw. unfold is_blank in Hw.
      apply negb_true_iff in Hc. rewrite Hc, orb_false_r in Hw.
      by apply N.eqb_eq in Hw as ->.
    + simpl in E. injection E as <- ->. rewrite no_pair_cons2 in Hp.
      simpl in Hw. apply andb_prop in Hw as [Ha Hw]. apply andb_prop in Hw as [Hb _].
      unfold both_blank in Hp. by rewrite Ha, Hb in Hp.
Qed.

Lemma space_newline_sub_fixed s :
  no_pair space_then_newline s = true -> sub RE_SPACE_NEWLINE [10] s = s.
Proof.
  apply (sub_ind RE_SPACE_NEWLINE [10]
    (fun s out => no_pair space_then_newline s = true -> out = s)); clear s.
  - done.
  - intros c s out _ IH Hp. by rewrite (IH (no_pair_cons _ _ _ Hp)).
  - intros c s caps n out Hm _ Hp. exfalso.
    apply space_newline_match in Hm as (v & s' & E & Hv & Hlen & _).
    destruct v as [|a v _] using rev_ind; [simpl in Hlen; lia|].
    rewrite <- app_assoc in E. simpl in E.
    pose proof (no_pair_spec _ _ _ _ _ _ Hp E) as H.
    rewrite forallb_app in Hv. simpl in Hv. rewrite andb_true_r in Hv.
    apply andb_prop in Hv as [_ Ha]. unfold space_then_newline in H.
    by rewrite Ha in H.
Qed.

Lemma strip_fixed s :
  (forall c x, s = c :: x -> isspace c = false) ->
  (forall c x, s = x ++ [c] -> isspace c = false) -> strip s = s.
Proof.
  intros Hh Hl. unfold strip.
  assert (lstrip s = s) as ->.
  { destruct s as [|c x]; [done|]. simpl. by rewrite (Hh c x eq_refl). }
  unfold rstrip. destruct s as [|c x _] using rev_ind; [done|].
  rewrite rev_app_distr. simpl. rewrite (Hl c x eq_refl).
  change (c :: rev x) with (rev [c] ++ rev x).
  by rewrite <- rev_app_distr, rev_involutive.
Qed.

Lemma clean_text_fixed t : clean_text (clean_text t) = clean_text t.
Proof.
  unfold clean_text at 2. change (py "\n") with [10]. change (py " ") with [32].
  set (s1 := sub RE_BLANKS [32] t). set (s2 := sub RE_SPACE_NEWLINE [10] s1).
  destruct (strip_spec s2) as (l & r & E & Hl & Hr & Hhead & Hlast).
  assert (forallb (fun c => negb (c =? 9)) s2 = true) as Htab
    by apply space_newline_sub_no_tab, blanks_sub_no_tab.
  assert (no_pair both_blank s2 = true) as Hbb
    by apply space_newline_sub_blank_pairs, blanks_sub_pairs.
  assert (no_pair space_then_newline s2 = true) as Hsn
    by apply space_newline_sub_pairs.
  rewrite E in Htab, Hbb, Hsn. clear E.
  rewrite !forallb_app in Htab. apply andb_prop in Htab as [_ Htab].
  apply andb_prop in Htab as [Htab _].
  apply no_pair_app_r, no_pair_app_l in Hbb.
  apply no_pair_app_r, no_pair_app_l in Hsn.
  unfold clean_text. change (py "\n") with [10]. change (py " ") with [32].
  rewrite (blanks_sub_fixed _ Hbb Htab), (space_newline_sub_fixed _ Hsn).
  by apply strip_fixed.
Qed.

End TextMore.

(** X11.  [clean_text] changes nothing in a text it has cleaned, so the
    text [extract_article_text] returns is clean as well. *)
Theorem clean_text_idempotent :
  (forall t, clean_text (clean_text t) = clean_text t)
  /\ (forall soup, clean_text (extract_article_text soup) = extract_article_text soup).
Proof.
  split; [exact clean_text_fixed|].
  intros soup. unfold extract_article_text. apply clean_text_fixed.
Qed.

(** X12.  A date of the calendar written in a title as day, month and
    year of two, two and four digits, after a beginning without digits,
    is the date of the slug, whatever follows it. *)
Theorem written_date_recovered pre s1 s2 post y m d :
  Spec.digit_free pre = true ->
  is_dot_or_dash s1 = true -> is_dot_or_dash s2 = true ->
  valid_date y m d = true ->
  title_date_slug
    (pre ++ Spec.date_text (zero_padded 2 d) s1 (zero_padded 2 m) s2 (zero_padded 4 y)
         ++ post)
  = isoformat {| year := y; month := m; day := d |}.
Proof.
  intros Hp H1 H2 V. destruct (valid_date_bounds y m d V) as (Hy & Hm & Hd).
  rewrite (title_date_slug_first _ (zero_padded 2 d) (zero_padded 2 m) (zero_padded 4 y)).
  - unfold Spec.year_of. rewrite zero_padded_length. cbn [Nat.eqb].
    rewrite !dec_value_zero_padded by done. unfold Spec.slug_of. by rewrite V.
  - apply (first_date_after pre []); [done|simpl; lia| |].
    + unfold Spec.date_shaped. rewrite !zero_padded_length.
      split_and!; try done; try lia; apply ascii_digit_isdecimal, zero_padded_ascii.
    + left. apply zero_padded_length.
Qed.

Lemma written_date_recovered_witness :
  title_date_slug
    (py "Оперативна інформація станом на "
       ++ Spec.date_text (zero_padded 2 5) 46 (zero_padded 2 3) 46 (zero_padded 4 2024)
       ++ py " щодо російського вторгнення")
  = isoformat {| year := 2024; month := 3; day := 5 |}.
Proof.
  apply (written_date_recovered
           (py "Оперативна інформація станом на ") 46 46
           (py " щодо російського вторгнення") 2024 3 5); by vm_compute.
Defined.

(** ** Turns of the loop *)

Section Turns.
Import Spec.
Variable resolve : str -> str -> str.
Variable driver : Driver.

Lemma running_before n :
  loop_cond (after resolve driver (S n)) = true ->
  loop_cond (after resolve driver n) = true.
Proof.
  rewrite after_S. unfold turn.
  destruct (loop_cond (after resolve driver n)) eqn:E; [done|]. by rewrite E.
Qed.

Lemma running_fetches n :
  loop_cond (after resolve driver n) = true ->
  length (gets (after resolve driver n)) = n.
Proof.
  induction n as [|n IH]; [done|]. intros H.
  pose proof (running_before n H) as Hc.
  destruct (loop_cond_true _ Hc) as ((u & q & Eq) & _).
  rewrite after_S. unfold turn. rewrite Hc.
  destruct (loop_body_shape resolve driver _ u q (after_invariant resolve driver n) Hc Eq)
    as (_ & -> & _).
  rewrite length_app, (IH Hc). simpl. lia.
Qed.

Lemma while_stops fuel : forall st st',
  while resolve driver fuel st = Some st' -> loop_cond st' = false.
Proof.
  induction fuel as [|fuel IH]; intros st st' H; simpl in H; [discriminate|].
  destruct (loop_cond st) eqn:Hc; [by apply (IH _ _ H)|]. by injection H as <-.
Qed.

Lemma undated_aggregate (sorter : Sorter) rs :
  NoDup (map url rs) -> (length rs <= DAYS_BACK)%nat ->
  Forall (fun r => date_slug r = []) rs ->
  aggregate sorter rs = Some rs.
Proof.
  intros Hnd Hlen Hu. unfold aggregate.
  rewrite drop_duplicates_first, (first_by_id url rs Hnd).
  assert (existsb has_date rs = false) as ->.
  { clear Hnd Hlen. induction Hu as [|r l Hr _ IH]; [done|].
    simpl. unfold has_date at 1. by rewrite Hr, IH. }
  rewrite andb_false_r. f_equal. apply take_ge. lia.
Qed.

End Turns.

(** X13.  The test of line 114 never sends a turn back: a url taken from
    the queue is not yet visited and is fetched, so a loop still running
    after [n] turns has made [n] calls of [driver.get] and makes one more. *)
Theorem every_turn_fetches resolve driver n :
  loop_cond (after resolve driver n) = true ->
  exists u q,
    queue (after resolve driver n) = u :: q
    /\ u ∉ visited (after resolve driver n)
    /\ gets (after resolve driver (S n)) = gets (after resolve driver n) ++ [u]
    /\ length (gets (after resolve driver n)) = n.
Proof.
  intros Hc. destruct (loop_cond_true _ Hc) as ((u & q & Eq) & _).
  pose proof (after_invariant resolve driver n) as Hinv.
  exists u, q. split_and!; [done| | |by apply running_fetches].
  - apply (Spec.queue_fresh _ _ Hinv). rewrite Eq. by left.
  - rewrite after_S. unfold turn. rewrite Hc.
    by destruct (loop_body_shape resolve driver _ u q Hinv Hc Eq) as (_ & -> & _).
Qed.

Lemma every_turn_fetches_witness :
  exists u q,
    queue (after Examples.absolute Examples.three_briefs 2) = u :: q
    /\ u ∉ visited (after Examples.absolute Examples.three_briefs 2)
    /\ gets (after Examples.absolute Examples.three_briefs 3)
       = gets (after Examples.absolute Examples.three_briefs 2) ++ [u]
    /\ length (gets (after Examples.absolute Examples.three_briefs 2)) = 2%nat.
Proof.
  apply (every_turn_fetches Examples.absolute Examples.three_briefs 2). by vm_compute.
Defined.

(** X14.  When no page of a run has a date in its title, the file holds
    the rows of the loop as they are: one row for each page that loaded,
    in the order of the fetches. *)
Theorem undated_run_in_visit_order fuel resolve (sorter : Sorter) driver out :
  (forall u, date_slug (Frontier.row_of driver u) = []) ->
  main fuel resolve sorter (Some driver) = Saved out ->
  exists n,
    loop_cond (after resolve driver n) = false
    /\ out = rows (after resolve driver n)
    /\ out = map (Frontier.row_of driver)
               (List.filter (get driver) (gets (after resolve driver n))).
Proof.
  intros Hu. unfold main.
  destruct (while resolve driver fuel initial) as [st|] eqn:Hw; [|discriminate].
  pose proof (while_stops resolve driver _ _ _ Hw) as Hstop.
  destruct (while_after resolve driver fuel 0 st Hw) as [m ->].
  pose proof (after_invariant resolve driver m) as Hinv.
  pose proof (Frontier.rows_are_pages _ _ _ (after_explored resolve driver m)) as Er.
  rewrite (undated_aggregate sorter).
  - intros [= <-]. by exists m.
  - apply (Spec.rows_urls _ _ Hinv).
  - apply (Spec.rows_bound _ _ Hinv).
  - rewrite Er. apply Forall_forall. intros r Hr.
    apply (list_elem_of_fmap (Frontier.row_of driver)) in Hr as (u & -> & _). apply Hu.
Qed.

Lemma undated_run_in_visit_order_witness :
  exists n,
    loop_cond (after Examples.absolute Undated.two_notes n) = false
    /\ map (Frontier.row_of Undated.two_notes) [START_URL; Examples.URL_19]
       = rows (after Examples.absolute Undated.two_notes n)
    /\ map (Frontier.row_of Undated.two_notes) [START_URL; Examples.URL_19]
       = map (Frontier.row_of Undated.two_notes)
           (List.filter (get Undated.two_notes)
              (gets (after Examples.absolute Undated.two_notes n))).
Proof.
  apply (undated_run_in_visit_order 61 Examples.absolute insertion_sorter
           Undated.two_notes).
  - intros u. unfold Frontier.row_of, Undated.two_notes.
    cbn [page_source parse_page_html date_slug].
    destruct (decide (u = START_URL)); by vm_compute.
  - by vm_compute.
Defined.

Section Complete.
Variable resolve : str -> str -> str.
Variable driver : Driver.

Lemma exhausted_reachable n u :
  queue (after resolve driver n) = [] ->
  Frontier.reachable resolve driver u -> u ∈ gets (after resolve driver n).
Proof.
  intros Hq.
  pose proof (after_explored resolve driver n) as [_ Hseed _ Hlinks].
  unfold Frontier.discovered in *. rewrite Hq, app_nil_r in *.
  induction 1 as [|v x _ IH Hget Hx]; [done|]. by apply (Hlinks v x).
Qed.

Lemma after_stable m :
  loop_cond (after resolve driver m) = false ->
  forall d, after resolve driver (m + d) = after resolve driver m.
Proof.
  intros Hc d. induction d as [|d IH]; [by rewrite Nat.add_0_r|].
  rewrite Nat.add_succ_r, after_S, IH. unfold turn. by rewrite Hc.
Qed.

Lemma while_first fuel : forall k st,
  while resolve driver fuel (after resolve driver k) = Some st ->
  exists m, st = after resolve driver m
    /\ loop_cond (after resolve driver m) = false
    /\ forall j, (k <= j < m)%nat -> loop_cond (after resolve driver j) = true.
Proof.
  induction fuel as [|fuel IH]; intros k st H; simpl in H; [discriminate|].
  destruct (loop_cond (after resolve driver k)) eqn:Hc.
  - destruct (IH (S k) st) as (m & -> & Hm & Hj).
    { rewrite after_S. unfold turn. by rewrite Hc. }
    exists m. split_and!; [done|done|]. intros j Hjm.
    destruct (decide (j = k)) as [->|]; [done|]. apply Hj. lia.
  - injection H as <-. exists k. split_and!; [done|done|]. intros j Hjm. lia.
Qed.

(** A run that ends is in the state of any turn that has an empty queue. *)
Lemma while_exhausted fuel n st :
  while resolve driver fuel initial = Some st ->
  queue (after resolve driver n) = [] -> st = after resolve driver n.
Proof.
  intros Hw Hq. destruct (while_first fuel 0 st Hw) as (m & -> & Hm & Hj).
  destruct (decide (n < m)%nat) as [L|L].
  - assert (loop_cond (after resolve driver n) = true) as Hc by (apply Hj; lia).
    apply loop_cond_true in Hc as ((u & q & Eq) & _). congruence.
  - replace n with (m + (n - m))%nat by lia. by rewrite after_stable.
Qed.

End Complete.

(** X15.  When the queue is empty after some turn, the file of the run
    has the row of every page that the seed leads to, that loads and that
    has a date in its title. *)
Theorem dated_pages_all_saved fuel resolve (sorter : Sorter) driver n out :
  queue (after resolve driver n) = [] ->
  main fuel resolve sorter (Some driver) = Saved out ->
  forall u,
    Frontier.reachable resolve driver u -> get driver u = true ->
    has_date (Frontier.row_of driver u) = true ->
    Frontier.row_of driver u ∈ out.
Proof.
  intros Hq Hm u Hu Hget Hd. unfold main in Hm.
  destruct (while resolve driver fuel initial) as [st|] eqn:Hw; [|discriminate].
  rewrite (while_exhausted resolve driver fuel n st Hw Hq) in Hm. clear Hw st.
  pose proof (after_invariant resolve driver n) as Hinv.
  pose proof (Frontier.rows_are_pages _ _ _ (after_explored resolve driver n)) as Er.
  set (rs := rows (after resolve driver n)) in *.
  assert (Frontier.row_of driver u ∈ rs) as Hin.
  { rewrite Er. apply (list_elem_of_fmap_2 (Frontier.row_of driver)).
    apply list_elem_of_In, filter_In. split; [|done].
    by apply list_elem_of_In, exhausted_reachable. }
  pose proof (aggregate_eq sorter rs (Spec.rows_dates _ _ Hinv)) as H.
  cbv zeta in H. rewrite (first_by_id url rs (Spec.rows_urls _ _ Hinv)) in H.
  assert (existsb has_date rs = true) as Hany.
  { apply existsb_exists. exists (Frontier.row_of driver u).
    split; [by apply list_elem_of_In|done]. }
  rewrite Hany in H. destruct H as (sorted & Ea & Hp & _).
  rewrite Ea in Hm. injection Hm as <-.
  rewrite take_ge.
  - rewrite Hp. apply list_elem_of_In, filter_In. split; [by apply list_elem_of_In|done].
  - rewrite (Permutation_length Hp).
    pose proof (List.filter_length_le has_date rs) as Hl.
    pose proof (Spec.rows_bound _ _ Hinv) as Hb. fold rs in Hb. lia.
Qed.

Lemma dated_pages_all_saved_witness :
  queue (after Examples.absolute Examples.three_briefs 3) = []
  /\ forall u,
       Frontier.reachable Examples.absolute Examples.three_briefs u ->
       get Examples.three_briefs u = true ->
       has_date (Frontier.row_of Examples.three_briefs u) = true ->
       Frontier.row_of Examples.three_briefs u
       ∈ map (Frontier.row_of Examples.three_briefs)
           [START_URL; Examples.URL_19; Examples.URL_18].
Proof.
  split; [by vm_compute|].
  apply (dated_pages_all_saved 61 Examples.absolute insertion_sorter
           Examples.three_briefs 3).
  - by vm_compute.
  - by vm_compute.
Defined.

(** ** Runs that can raise *)

(** *** A run that raises nothing is a run of [Scrap]'s loop *)

Section Agree.
Import Spec.
Variable resolve_p : str -> str -> option str.
Variable browser : Raising.Browser.
Variable resolve : str -> str -> str.
Variable driver : Driver.
Hypothesis Hres : forall b r x, resolve_p b r = Some x -> resolve b r = x.
Hypothesis Hget : forall u, Raising.get browser u = get driver u.
Hypothesis Hpage :
  forall u s, Raising.page_source browser u = Some s -> page_source driver u = s.

Lemma urljoin_agrees b r x :
  Raising.urljoin resolve_p b r = Some x -> urljoin resolve b r = x.
Proof.
  unfold Raising.urljoin, urljoin.
  destruct b as [|c b]; [by intros [= <-]|].
  destruct r as [|d r]; [by intros [= <-]|]. apply Hres.
Qed.

Lemma find_prev_day_links_agrees soup b l :
  Raising.find_prev_day_links resolve_p soup b = Some l ->
  find_prev_day_links resolve soup b = l.
Proof.
  rewrite raising_links_eq, find_prev_day_links_eq.
  intros (links & Hm & ->)%fmap_Some. f_equal. apply mapM_Some in Hm.
  induction Hm as [|href u hs ls Hu _ IH]; [done|].
  simpl. by rewrite (urljoin_agrees _ _ _ Hu), IH.
Qed.

Lemma loop_body_agrees st st' :
  Raising.loop_body resolve_p browser st = Some st' ->
  loop_body resolve driver st = st'.
Proof.
  unfold Raising.loop_body, loop_body.
  destruct (queue st) as [|u q]; [by intros [= <-]|].
  destruct (decide (u ∈ visited st)); [by intros [= <-]|].
  rewrite <- Hget. destruct (Raising.get browser u); [|by intros [= <-]].
  cbv zeta. destruct (Raising.page_source browser u) as [soup|] eqn:Ep; [|done].
  rewrite (Hpage u soup Ep).
  destruct (Raising.find_prev_day_links resolve_p soup u) as [links|] eqn:Ef; [|done].
  rewrite (find_prev_day_links_agrees soup u links Ef). by intros [= <-].
Qed.

Lemma turn_agrees st st' :
  Raising.turn resolve_p browser st = Some st' -> turn resolve driver st = st'.
Proof.
  unfold Raising.turn, turn.
  destruct (loop_cond st); [apply loop_body_agrees|by intros [= <-]].
Qed.

Lemma after_agrees n : forall st,
  Raising.after resolve_p browser n = Some st -> after resolve driver n = st.
Proof.
  induction n as [|n IH]; intros st; cbn [Raising.after]; [by intros [= <-]|].
  destruct (Raising.after resolve_p browser n) as [st0|]; [|done].
  intros H. rewrite after_S, (IH st0 eq_refl). by apply turn_agrees.
Qed.

Lemma while_agrees fuel : forall st st',
  Raising.while resolve_p browser fuel st = Raising.Ended st' ->
  while resolve driver fuel st = Some st'.
Proof.
  induction fuel as [|fuel IH]; intros st st'; cbn [Raising.while while]; [done|].
  destruct (loop_cond st); [|by intros [= <-]].
  destruct (Raising.loop_body resolve_p browser st) as [st1|] eqn:E; [|done].
  rewrite (loop_body_agrees st st1 E). apply IH.
Qed.

End Agree.

Section Bounds.
Import Spec.
Variable in_bounds : date -> bool.

Lemma convert_column_agrees df dv :
  Raising.convert_column in_bounds df = Some dv -> convert_column df = Some dv.
Proof.
  unfold Raising.convert_column, convert_column. intros H%mapM_Some. apply mapM_Some.
  eapply Forall2_impl; [exact H|]. intros r c. simpl.
  destruct (to_datetime _); [|done]. by destruct (in_bounds _).
Qed.

Lemma aggregate_agrees S rows out :
  Raising.aggregate in_bounds S rows = Some out -> aggregate S rows = Some out.
Proof.
  unfold Raising.aggregate, aggregate.
  destruct (nonempty_frame _ && existsb has_date _); [|done].
  destruct (Raising.convert_column _ _) as [dv|] eqn:E; [|done].
  by rewrite (convert_column_agrees _ _ E).
Qed.

(** Dates that pandas holds convert as in [Scrap]. *)
Lemma aggregate_in_bounds S rows :
  Forall (fun r => forall d, to_datetime (date_slug r) = Some d -> in_bounds d = true)
    rows ->
  Raising.aggregate in_bounds S rows = aggregate S rows.
Proof.
  intros H. unfold Raising.aggregate, aggregate.
  destruct (nonempty_frame _ && existsb has_date _); [|done].
  unfold Raising.convert_column, convert_column.
  rewrite (Forall_mapM_ext _
             (fun r => match to_datetime (date_slug r) with
                       | Some d => Some (d, r)
                       | None => None
                       end)); [done|].
  rewrite drop_duplicates_first.
  apply (first_by_Forall _ url), (Forall_filter_keep _ has_date) in H.
  eapply Forall_impl; [exact H|]. intros r Hr. simpl in Hr |- *.
  destruct (to_datetime (date_slug r)) as [d|]; [|done]. by rewrite (Hr d eq_refl).
Qed.

(** One date that pandas does not hold makes line 162 raise. *)
Lemma aggregate_out_of_bounds S rows r d :
  NoDup (map url rows) -> r ∈ rows ->
  to_datetime (date_slug r) = Some d -> in_bounds d = false ->
  Raising.aggregate in_bounds S rows = None.
Proof.
  intros Hnd Hr Ht Hb. unfold Raising.aggregate.
  rewrite drop_duplicates_first, (first_by_id url rows Hnd).
  destruct (readable_has_date r d Ht) as [Hd _].
  assert (existsb has_date rows = true) as ->.
  { apply existsb_exists. exists r. split; [by apply list_elem_of_In|done]. }
  assert (nonempty_frame rows = true) as ->.
  { destruct rows; [by apply elem_of_nil in Hr|done]. }
  cbn [andb]. unfold Raising.convert_column.
  rewrite (mapM_None_2 _ (List.filter has_date rows)); [done|].
  apply Exists_exists. exists r. split.
  - apply list_elem_of_In, filter_In. split; [by apply list_elem_of_In|done].
  - simpl. by rewrite Ht, Hb.
Qed.

End Bounds.

(** *** The loop of one resolver and one session *)

Section Run.
Import Spec.
Variable resolve : str -> str -> option str.
Variable browser : Raising.Browser.

Lemma resolved_agrees b r x :
  resolve b r = Some x -> Raising.resolved resolve b r = x.
Proof. unfold Raising.resolved. by intros ->. Qed.

Lemma driver_of_page u s :
  Raising.page_source browser u = Some s ->
  page_source (Raising.driver_of browser) u = s.
Proof. simpl. by intros ->. Qed.

Lemma after_driver n st :
  Raising.after resolve browser n = Some st ->
  after (Raising.resolved resolve) (Raising.driver_of browser) n = st.
Proof. apply after_agrees; [apply resolved_agrees|done|apply driver_of_page]. Qed.

Lemma while_driver fuel st st' :
  Raising.while resolve browser fuel st = Raising.Ended st' ->
  while (Raising.resolved resolve) (Raising.driver_of browser) fuel st = Some st'.
Proof. apply while_agrees; [apply resolved_agrees|done|apply driver_of_page]. Qed.

(** As long as the loop runs, the turns taken are turns of [while]. *)
Lemma after_running n : forall st,
  Raising.after resolve browser n = Some st -> loop_cond st = true ->
  forall f,
    Raising.while resolve browser (n + f) initial = Raising.while resolve browser f st.
Proof.
  induction n as [|n IH]; intros st; cbn [Raising.after]; [by intros [= <-]|].
  destruct (Raising.after resolve browser n) as [st0|]; [|done].
  unfold Raising.turn. destruct (loop_cond st0) eqn:Hc0.
  - intros Hb Hc f. replace (S n + f)%nat with (n + S f)%nat by lia.
    rewrite (IH st0 eq_refl Hc0). cbn [Raising.while]. by rewrite Hc0, Hb.
  - intros [= <-] Hc. congruence.
Qed.

Lemma loop_body_raises st u q :
  queue st = u :: q -> u ∉ visited st -> Raising.get browser u = true ->
  (Raising.page_source browser u = None
   \/ exists soup, Raising.page_source browser u = Some soup
        /\ Raising.find_prev_day_links resolve soup u = None) ->
  Raising.loop_body resolve browser st = None.
Proof.
  intros Eq Hu Hg H. unfold Raising.loop_body. rewrite Eq.
  destruct (decide (u ∈ visited st)); [done|]. rewrite Hg. cbv zeta.
  destruct H as [->|(soup & -> & ->)]; done.
Qed.

Section Returns.
Variable in_bounds : date -> bool.
Hypothesis Hret :
  forall u, Raising.get browser u = true -> Raising.returns resolve in_bounds browser u.

Lemma loop_body_returns st : is_Some (Raising.loop_body resolve browser st).
Proof.
  unfold Raising.loop_body. destruct (queue st) as [|u q]; [eauto|].
  destruct (decide (u ∈ visited st)); [eauto|].
  destruct (Raising.get browser u) eqn:Hg; [|eauto].
  destruct (Hret u Hg) as (soup & -> & [l ->] & _). cbv zeta. eauto.
Qed.

Lemma while_returns fuel : forall st,
  Raising.while resolve browser fuel st
  = match while (Raising.resolved resolve) (Raising.driver_of browser) fuel st with
    | Some st' => Raising.Ended st'
    | None => Raising.Unfinished
    end.
Proof.
  induction fuel as [|fuel IH]; intros st; cbn [Raising.while while]; [done|].
  destruct (loop_cond st); [|done].
  destruct (loop_body_returns st) as [st1 E]. rewrite E.
  rewrite (loop_body_agrees resolve browser (Raising.resolved resolve)
             (Raising.driver_of browser) resolved_agrees (fun _ => eq_refl)
             driver_of_page st st1 E).
  apply IH.
Qed.

Lemma rows_in_bounds n :
  Forall (fun r => forall d, to_datetime (date_slug r) = Some d -> in_bounds d = true)
    (rows (after (Raising.resolved resolve) (Raising.driver_of browser) n)).
Proof.
  rewrite (Frontier.rows_are_pages _ _ _
             (after_explored (Raising.resolved resolve) (Raising.driver_of browser) n)).
  apply Forall_forall. intros r Hr.
  apply (list_elem_of_fmap (Frontier.row_of (Raising.driver_of browser))) in Hr
    as (u & -> & Hu).
  apply list_elem_of_In, filter_In in Hu as [_ Hg]. simpl in Hg.
  destruct (Hret u Hg) as (soup & Ep & _ & Hb).
  unfold Frontier.row_of. rewrite (driver_of_page u soup Ep).
  cbn [parse_page_html date_slug]. exact Hb.
Qed.

End Returns.

End Run.

(** ** The whole run *)




(** X16.  A run that raises nothing is a run of the loop of [Scrap]:
    for a resolver and pages that give what [urljoin] and the browser
    give where these return, the state after any number of turns without
    an exception, the state the loop ends in, and the file written are
    those of [Scrap]. *)
Theorem run_without_exception resolve_p in_bounds (sorter : Sorter) browser
    resolve driver :
  (forall b r x, resolve_p b r = Some x -> resolve b r = x) ->
  (forall u, Raising.get browser u = get driver u) ->
  (forall u s, Raising.page_source browser u = Some s -> page_source driver u = s) ->
  (forall n st,
     Raising.after resolve_p browser n = Some st -> after resolve driver n = st)
  /\ (forall fuel st,
        Raising.while resolve_p browser fuel initial = Raising.Ended st ->
        while resolve driver fuel initial = Some st)
  /\ (forall fuel out,
        Raising.main fuel resolve_p in_bounds sorter (Some browser) = Saved out ->
        main fuel resolve sorter (Some driver) = Saved out).
Proof.
  intros Hres Hget Hpage. split_and!.
  - intros n st. by apply after_agrees.
  - intros fuel st. by apply while_agrees.
  - intros fuel out. unfold Raising.main, main.
    destruct (Raising.while resolve_p browser fuel initial) as [st| |] eqn:Ew; try done.
    rewrite (while_agrees resolve_p browser resolve driver Hres Hget Hpage _ _ _ Ew).
    destruct (Raising.aggregate in_bounds sorter (rows st)) as [o|] eqn:Ea; [|done].
    by rewrite (aggregate_agrees in_bounds sorter _ _ Ea).
Qed.

Lemma run_without_exception_witness :
  (forall n st,
     Raising.after Faults.strict (Faults.sound Faults.one_down) n = Some st ->
     after Examples.absolute Faults.one_down n = st)
  /\ (forall fuel st,
        Raising.while Faults.strict (Faults.sound Faults.one_down) fuel initial
        = Raising.Ended st ->
        while Examples.absolute Faults.one_down fuel initial = Some st)
  /\ (forall fuel out,
        Raising.main fuel Faults.strict Faults.nanosecond_dates insertion_sorter
          (Some (Faults.sound Faults.one_down)) = Saved out ->
        main fuel Examples.absolute insertion_sorter (Some Faults.one_down) = Saved out).
Proof.
  apply (run_without_exception Faults.strict Faults.nanosecond_dates insertion_sorter
           (Faults.sound Faults.one_down) Examples.absolute Faults.one_down).
  - intros b r x. unfold Faults.strict, Examples.absolute.
    destruct (_ && _); [done|]. by intros [= <-].
  - done.
  - intros u s. simpl. by intros [= <-].
Defined.
